(** * libimgproc: contour extraction and ring simplification

    A shallow embedding of [imgproc/contours.cpp]: the marching-squares
    segment builder ([FindContour::Builder]), ring extraction and the
    Visvalingam-Whyatt style ring simplifier, together with the properties
    of the written specification that can be settled on the code.

    Conventions.
    - C++ [int] values are modelled by [Z]; signed overflow is undefined in
      C++, so no wrap-around is written out (lattice coordinates are twice
      the raster coordinates).
    - A [const Segment*] is an index into the segment store ([option nat],
      [None] for [nullptr]); the store is the list of inserted segments in
      insertion order together with the two unique look-ups by [start] and
      by [end] of [boost::multi_index_container].
    - [LOGTHROW], a null dereference, a loop that never ends and the use of
      an invalid iterator are the ways a call may fail to return; they are
      explicit in [Result]. *)

From Stdlib Require Import ZArith QArith Qabs List Bool Lia Permutation.
Import ListNotations.

#[local] Open Scope Z_scope.

(** ** Results of fallible calls *)

Inductive Failure : Type :=
| RuntimeError      (* LOGTHROW(info4, std::runtime_error) *)
| NullDereference   (* a member access through nullptr *)
| NoTermination     (* a loop that walks a cyclic chain for ever *)
| InvalidIterator.  (* an iterator of an empty list is dereferenced *)

Inductive Result (A : Type) : Type :=
| Ok (a : A)
| Fail (f : Failure).

Arguments Ok {A} a.
Arguments Fail {A} f.

Definition bind {A B : Type} (m : Result A) (k : A -> Result B) : Result B :=
  match m with
  | Ok a => k a
  | Fail f => Fail f
  end.

Notation "x <- m ;; k" := (bind m (fun x => k))
  (at level 61, m at next level, right associativity).

(** ** Cell types, directions, lattice vertices *)

Definition CellType := Z.

Abbreviation b0000 := 0%Z.
Abbreviation b0001 := 1%Z.
Abbreviation b0010 := 2%Z.
Abbreviation b0011 := 3%Z.
Abbreviation b0100 := 4%Z.
Abbreviation b0101 := 5%Z.
Abbreviation b0110 := 6%Z.
Abbreviation b0111 := 7%Z.
Abbreviation b1000 := 8%Z.
Abbreviation b1001 := 9%Z.
Abbreviation b1010 := 10%Z.
Abbreviation b1011 := 11%Z.
Abbreviation b1100 := 12%Z.
Abbreviation b1101 := 13%Z.
Abbreviation b1110 := 14%Z.
Abbreviation b1111 := 15%Z.

Module Direction.
Inductive t : Type := r | l | u | d | lu | ld | ru | rd.

Definition eqb (a b : t) : bool :=
  match a, b with
  | r, r | l, l | u, u | d, d | lu, lu | ld, ld | ru, ru | rd, rd => true
  | _, _ => false
  end.
End Direction.

Definition Vertex : Type := Z * Z.

Definition Vertex_eqb (a b : Vertex) : bool :=
  (fst a =? fst b) && (snd a =? snd b).

(** ** Segments and the segment store *)

Definition SegPtr : Type := option nat.

Definition SegPtr_eqb (a b : SegPtr) : bool :=
  match a, b with
  | None, None => true
  | Some x, Some y => Nat.eqb x y
  | _, _ => false
  end.

Record Segment : Type := mkSegment {
  seg_type : CellType;
  seg_direction : Direction.t;
  seg_start : Vertex;
  seg_end : Vertex;
  seg_prev : SegPtr;
  seg_next : SegPtr;
  seg_ringLeader : SegPtr
}.

Definition set_prev (s : Segment) (p : SegPtr) : Segment :=
  mkSegment (seg_type s) (seg_direction s) (seg_start s) (seg_end s)
            p (seg_next s) (seg_ringLeader s).

Definition set_next (s : Segment) (n : SegPtr) : Segment :=
  mkSegment (seg_type s) (seg_direction s) (seg_start s) (seg_end s)
            (seg_prev s) n (seg_ringLeader s).

Definition set_ringLeader (s : Segment) (rl : SegPtr) : Segment :=
  mkSegment (seg_type s) (seg_direction s) (seg_start s) (seg_end s)
            (seg_prev s) (seg_next s) rl.

(** The container: segments in insertion order; a pointer to a segment is its
    position. *)
Definition SegmentMap : Type := list Segment.

Fixpoint update (m : SegmentMap) (k : nat) (f : Segment -> Segment)
  : SegmentMap :=
  match m, k with
  | [], _ => []
  | s :: m', O => f s :: m'
  | s :: m', S k' => s :: update m' k' f
  end.

Fixpoint find_from (p : Segment -> bool) (m : SegmentMap) (k : nat)
  : SegPtr :=
  match m with
  | [] => None
  | s :: m' => if p s then Some k else find_from p m' (S k)
  end.

(** [segments.get<StartIdx>().find(v)] and [segments.get<EndIdx>().find(v)] *)
Definition findByStart (m : SegmentMap) (v : Vertex) : SegPtr :=
  find_from (fun s => Vertex_eqb (seg_start s) v) m O.

Definition findByEnd (m : SegmentMap) (v : Vertex) : SegPtr :=
  find_from (fun s => Vertex_eqb (seg_end s) v) m O.

(** [segments.insert(x).first]: both indices are [ordered_unique]; the
    insertion is refused when a stored segment has the same [start] (first
    index) or the same [end] (second index), and the iterator returned then
    designates the segment that refused it. *)
Definition insert (m : SegmentMap) (x : Segment) : SegmentMap * nat :=
  match findByStart m (seg_start x) with
  | Some k => (m, k)
  | None =>
      match findByEnd m (seg_end x) with
      | Some k => (m, k)
      | None => (m ++ [x], length m)
      end
  end.

(** ** Raster, border mask, contour *)

(** Modelled from the spec: [Contour::Raster] is declared outside the
    sources at hand; the spec gives its contract: dimensions [(W, H)] and
    [get(x, y)] returning 0 outside [[0,W) x [0,H)]. *)
Record Raster : Type := mkRaster {
  width : Z;
  height : Z;
  data : Z -> Z -> bool
}.

Definition in_bounds (w h x y : Z) : bool :=
  (0 <=? x) && (x <? w) && (0 <=? y) && (y <? h).

Definition get (ra : Raster) (x y : Z) : bool :=
  if in_bounds (width ra) (height ra) x y then data ra x y else false.

(** Modelled from the spec: the border mask is a bitmap of raster size; its
    class is declared outside the sources at hand.  The set pixels are kept
    as a duplicate-free list in the order they were first set; a [set]
    outside the bitmap changes nothing. *)
Record RasterMask : Type := mkMask {
  mask_width : Z;
  mask_height : Z;
  mask_set : list (Z * Z)
}.

Definition mask_get (m : RasterMask) (x y : Z) : bool :=
  existsb (Vertex_eqb (x, y)) (mask_set m).

Definition mask_put (m : RasterMask) (x y : Z) : RasterMask :=
  if in_bounds (mask_width m) (mask_height m) x y
  then if mask_get m x y then m
       else mkMask (mask_width m) (mask_height m) (mask_set m ++ [(x, y)])
  else m.

(** A ring vertex [(x, y)] in pixel space.  The coordinates are halves of
    integers plus an offset of 0 or 1/2, which a [double] holds exactly; they
    are kept as reduced fractions. *)
Definition Point2d : Type := Q * Q.
Definition Polygon : Type := list Point2d.

(** [Contour]; the type of the ring vertices is left open because the
    simplifier below is stated over any model of [double]. *)
Record ContourOf (P : Type) : Type := mkContour {
  rings : list (list P);
  border : RasterMask
}.

Arguments mkContour {P} rings border.
Arguments rings {P} c.
Arguments border {P} c.

Definition Contour : Type := ContourOf Point2d.

Inductive PixelOrigin : Type := center | corner.

(** [FindContour::params_] and the virtual [ambiguousType] *)
Record FindContour : Type := mkFindContour {
  pixelOrigin : PixelOrigin;
  joinStraightSegments : bool;
  ambiguousType : Vertex -> CellType -> CellType
}.

Record Builder : Type := mkBuilder {
  segments : SegmentMap;
  contour : Contour
}.

Definition offset (cf : FindContour) : Point2d :=
  match pixelOrigin cf with
  | center => (0, 0)%Q
  | corner => (1 # 2, 1 # 2)%Q
  end.

Definition Builder_init (w h : Z) : Builder :=
  mkBuilder [] (mkContour [] (mkMask w h [])).

(** ** [FindContour::Builder::setBorder] *)

(** The [SET_BORDER(X, Y)] calls of each case of the switch, in order. *)
Definition setBorder_marks (type : CellType) : list (Z * Z) :=
  match type with
  | b0000 => []
  | b0001 => [(0, 1)]
  | b0010 => [(1, 1)]
  | b0100 => [(1, 0)]
  | b1000 => [(0, 0)]
  | b0011 => [(0, 1); (1, 1)]
  | b0110 => [(1, 0); (1, 1)]
  | b1100 => [(0, 0); (1, 0)]
  | b1001 => [(0, 0); (0, 1)]
  | b0101 | b0111 | b1010 | b1011 | b1101 | b1110 =>
      [(0, 0); (1, 0); (0, 1); (1, 1)]
  | b1111 => []
  | _ => []
  end.

Definition SET_BORDER (i j : Z) (m : RasterMask) (XY : Z * Z) : RasterMask :=
  mask_put m (i + fst XY) (j + snd XY).

Definition setBorder (m : RasterMask) (type : CellType) (i j : Z)
  : RasterMask :=
  fold_left (SET_BORDER i j) (setBorder_marks type) m.

(** ** Ring leader distribution *)

Definition ringLeader_of (m : SegmentMap) (k : nat) : SegPtr :=
  match nth_error m k with
  | Some s => seg_ringLeader s
  | None => None
  end.

(** The loop shared by [distributeRingLeaderPrev] ([step = seg_prev]) and
    [distributeRingLeaderNext] ([step = seg_next]).  [ringLeader] is a
    reference to the field of the segment [orig] the walk started from and is
    read at every assignment.  A walk longer than the store has entered a
    cycle and never ends. *)
Fixpoint distribute (step : Segment -> SegPtr) (fuel : nat)
         (m : SegmentMap) (orig : nat) (cur : SegPtr) : Result SegmentMap :=
  match cur with
  | None => Ok m
  | Some k =>
      match fuel with
      | O => Fail NoTermination
      | S fuel' =>
          match nth_error m k with
          | None => Fail NullDereference
          | Some sk =>
              distribute step fuel'
                (update m k (fun x => set_ringLeader x (ringLeader_of m orig)))
                orig (step sk)
          end
      end
  end.

Definition distributeRingLeader (step : Segment -> SegPtr)
           (m : SegmentMap) (s : SegPtr) : Result SegmentMap :=
  match s with
  | None => Fail NullDereference
  | Some k =>
      match nth_error m k with
      | None => Fail NullDereference
      | Some sk => distribute step (S (length m)) m k (step sk)
      end
  end.

Definition distributeRingLeaderPrev := distributeRingLeader seg_prev.
Definition distributeRingLeaderNext := distributeRingLeader seg_next.

(** ** [FindContour::Builder::extract] *)

(** The lattice vertex [v] in pixel space: [(v(0) / 2.0 + offset(0),
    v(1) / 2.0 + offset(1))]. *)
Definition to_pixel (cf : FindContour) (v : Vertex) : Point2d :=
  (Qred (inject_Z (fst v) / 2 + fst (offset cf)),
   Qred (inject_Z (snd v) / 2 + snd (offset cf))).

Definition addVertex (cf : FindContour) (ring : Polygon) (v : Vertex)
  : Polygon :=
  ring ++ [to_pixel cf v].

(** The [for] loop of [extract]: [p] is the segment visited before [s]. *)
Fixpoint extract_loop (cf : FindContour) (m : SegmentMap) (head : nat)
         (end_ : nat) (fuel : nat) (p : Segment) (s : SegPtr)
         (ring : Polygon) : Result Polygon :=
  if SegPtr_eqb s (Some end_) then Ok ring
  else
    match fuel with
    | O => Fail NoTermination
    | S fuel' =>
        match s with
        | None => Fail NullDereference
        | Some k =>
            match nth_error m k with
            | None => Fail NullDereference
            | Some sk =>
                if negb (SegPtr_eqb (seg_ringLeader sk) (Some head))
                then Fail RuntimeError
                else
                  match seg_next sk with
                  | None => Fail RuntimeError
                  | Some _ =>
                      let ring' :=
                        if negb (joinStraightSegments cf)
                           || negb (Direction.eqb (seg_direction sk)
                                                  (seg_direction p))
                        then addVertex cf ring (seg_start sk)
                        else ring in
                      extract_loop cf m head end_ fuel' sk (seg_next sk) ring'
                  end
            end
        end
    end.

(** The terminal segment [end] of the walk. *)
Definition extract_end (m : SegmentMap) (head : nat) : Result nat :=
  match nth_error m head with
  | None => Fail NullDereference
  | Some h =>
      match seg_prev h with
      | None => Fail NullDereference
      | Some pk =>
          match nth_error m pk with
          | None => Fail NullDereference
          | Some hp =>
              Ok (if negb (seg_type h =? seg_type hp) then head else pk)
          end
      end
  end.

Definition extract_ring (cf : FindContour) (m : SegmentMap) (head : SegPtr)
  : Result Polygon :=
  match head with
  | None => Fail NullDereference
  | Some hk =>
      match nth_error m hk with
      | None => Fail NullDereference
      | Some h =>
          end_ <- extract_end m hk ;;
          extract_loop cf m hk end_ (S (length m)) h (seg_next h)
                       (addVertex cf [] (seg_start h))
      end
  end.

Definition extract (cf : FindContour) (b : Builder) (head : SegPtr)
  : Result Builder :=
  ring <- extract_ring cf (segments b) head ;;
  Ok (mkBuilder (segments b)
                (mkContour (rings (contour b) ++ [ring])
                           (border (contour b)))).

(** ** [FindContour::Builder::addSegment] *)

Definition with_segments (b : Builder) (m : SegmentMap) : Builder :=
  mkBuilder m (contour b).

(** Linking of the stored segment [s] with its neighbours: the statements
    under "link prev" and "link next".  Returns the store and the two ring
    leaders read. *)
Definition link (m : SegmentMap) (s : nat) (prev next : SegPtr)
  : SegmentMap * SegPtr * SegPtr :=
  let '(m1, pRingLeader) :=
    match prev with
    | Some p =>
        let m1 := update m p (fun x => set_next x (Some s)) in
        (m1, ringLeader_of m1 p)
    | None => (m, None)
    end in
  let '(m2, nRingLeader) :=
    match next with
    | Some n =>
        let m2 := update m1 n (fun x => set_prev x (Some s)) in
        (m2, ringLeader_of m2 n)
    | None => (m1, None)
    end in
  (m2, pRingLeader, nRingLeader).

Definition addSegment (cf : FindContour) (b : Builder)
           (type : CellType) (direction : Direction.t) (i j : Z)
           (start end_ : Vertex) : Result Builder :=
  let b := mkBuilder (segments b)
             (mkContour (rings (contour b))
                        (setBorder (border (contour b)) type i j)) in
  let prev := findByEnd (segments b) start in
  let next := findByStart (segments b) end_ in
  let '(m, s) :=
    insert (segments b) (mkSegment type direction start end_ prev next None) in
  match prev, next with
  | None, None => Ok (with_segments b m)
  | _, _ =>
      let '(m, pRingLeader, nRingLeader) := link m s prev next in
      match pRingLeader, nRingLeader with
      | None, None =>
          let m := update m s (fun x => set_ringLeader x (Some s)) in
          let m := match next with
                   | Some n =>
                       update m n
                              (fun x => set_ringLeader x (ringLeader_of m s))
                   | None => m
                   end in
          let m := match prev with
                   | Some p =>
                       update m p
                              (fun x => set_ringLeader x (ringLeader_of m s))
                   | None => m
                   end in
          Ok (with_segments b m)
      | None, Some _ =>
          m <- distributeRingLeaderPrev m next ;; Ok (with_segments b m)
      | Some _, None =>
          m <- distributeRingLeaderNext m prev ;; Ok (with_segments b m)
      | Some pl, Some nl =>
          if negb (Nat.eqb pl nl)
          then m <- distributeRingLeaderNext m prev ;; Ok (with_segments b m)
          else
            let m := update m s (fun x => set_ringLeader x pRingLeader) in
            extract cf (with_segments b m) pRingLeader
      end
  end.

(** ** The cell tables: [add], [addAmbiguous], [addBorder] *)

(** One expansion of the [ADD_SEGMENT] macro: the arguments of a call of
    [addSegment]. *)
Record Call : Type := mkCall {
  call_type : CellType;
  call_direction : Direction.t;
  call_i : Z;
  call_j : Z;
  call_start : Vertex;
  call_end : Vertex
}.

Definition ADD_SEGMENT (type : CellType) (i j : Z) (D : Direction.t)
           (X1 Y1 X2 Y2 : Z) : Call :=
  let x := i * 2 in
  let y := j * 2 in
  mkCall type D i j (x + X1, y + Y1) (x + X2, y + Y2).

(** The calls made by [addAmbiguous(otype, i, j)], in order. *)
Definition addAmbiguous_calls (cf : FindContour) (otype : CellType)
           (i j : Z) : list Call :=
  let v := (i * 2, j * 2) in
  let type := ambiguousType cf v otype in
  if type =? otype then
    match type with
    | b0101 => [ADD_SEGMENT type i j Direction.lu 0 1 1 0;
                ADD_SEGMENT type i j Direction.rd 2 1 1 2]
    | b1010 => [ADD_SEGMENT type i j Direction.ld 1 0 2 1;
                ADD_SEGMENT type i j Direction.ru 1 2 0 1]
    | _ => []
    end
  else
    match type with
    | b0101 => [ADD_SEGMENT type i j Direction.ld 1 0 0 1;
                ADD_SEGMENT type i j Direction.ru 1 2 2 1]
    | b1010 => [ADD_SEGMENT type i j Direction.lu 2 1 1 0;
                ADD_SEGMENT type i j Direction.rd 0 1 1 2]
    | _ => []
    end.

(** The calls made by [add(i, j, type)], in order. *)
Definition add_calls (cf : FindContour) (i j : Z) (type : CellType)
  : list Call :=
  match type with
  | b0000 => []
  | b0001 => [ADD_SEGMENT type i j Direction.rd 0 1 1 2]
  | b0010 => [ADD_SEGMENT type i j Direction.ru 1 2 2 1]
  | b0011 => [ADD_SEGMENT type i j Direction.r 0 1 2 1]
  | b0100 => [ADD_SEGMENT type i j Direction.lu 2 1 1 0]
  | b0101 => addAmbiguous_calls cf type i j
  | b0110 => [ADD_SEGMENT type i j Direction.u 1 2 1 0]
  | b0111 => [ADD_SEGMENT type i j Direction.ru 0 1 1 0]
  | b1000 => [ADD_SEGMENT type i j Direction.ld 1 0 0 1]
  | b1001 => [ADD_SEGMENT type i j Direction.d 1 0 1 2]
  | b1010 => addAmbiguous_calls cf type i j
  | b1011 => [ADD_SEGMENT type i j Direction.rd 1 0 2 1]
  | b1100 => [ADD_SEGMENT type i j Direction.l 2 1 0 1]
  | b1101 => [ADD_SEGMENT type i j Direction.ld 2 1 1 2]
  | b1110 => [ADD_SEGMENT type i j Direction.lu 1 2 0 1]
  | b1111 => []
  | _ => []
  end.

(** The calls made by [addBorder(i, j, type)], in order.  The case [b0010]
    has no [return] and runs on into the case [b0011]. *)
Definition addBorder_calls (i j : Z) (type : CellType) : list Call :=
  match type with
  | b0000 => []
  | b0001 => [ADD_SEGMENT type i j Direction.r 0 1 1 1;
              ADD_SEGMENT type i j Direction.d 1 1 1 2]
  | b0010 => [ADD_SEGMENT type i j Direction.u 1 2 1 1;
              ADD_SEGMENT type i j Direction.r 1 1 2 1;
              ADD_SEGMENT type i j Direction.r 0 1 2 1]
  | b0011 => [ADD_SEGMENT type i j Direction.r 0 1 2 1]
  | b0100 => [ADD_SEGMENT type i j Direction.l 2 1 1 1;
              ADD_SEGMENT type i j Direction.u 1 1 1 0]
  | b0101 => [ADD_SEGMENT type i j Direction.u 0 1 0 0;
              ADD_SEGMENT type i j Direction.r 0 0 1 0;
              ADD_SEGMENT type i j Direction.d 2 1 2 2;
              ADD_SEGMENT type i j Direction.l 2 2 1 2]
  | b0110 => [ADD_SEGMENT type i j Direction.u 1 2 1 0]
  | b0111 => [ADD_SEGMENT type i j Direction.u 0 1 0 0;
              ADD_SEGMENT type i j Direction.r 0 0 1 0]
  | b1000 => [ADD_SEGMENT type i j Direction.d 1 0 1 1;
              ADD_SEGMENT type i j Direction.l 1 1 0 1]
  | b1001 => [ADD_SEGMENT type i j Direction.d 1 0 1 2]
  | b1010 => [ADD_SEGMENT type i j Direction.r 1 0 2 0;
              ADD_SEGMENT type i j Direction.d 2 0 2 1;
              ADD_SEGMENT type i j Direction.l 1 2 0 2;
              ADD_SEGMENT type i j Direction.u 0 2 0 1]
  | b1011 => [ADD_SEGMENT type i j Direction.r 1 0 2 0;
              ADD_SEGMENT type i j Direction.d 2 0 2 1]
  | b1100 => [ADD_SEGMENT type i j Direction.l 2 1 0 1]
  | b1101 => [ADD_SEGMENT type i j Direction.d 2 1 2 2;
              ADD_SEGMENT type i j Direction.l 2 2 1 2]
  | b1110 => [ADD_SEGMENT type i j Direction.l 1 2 0 2;
              ADD_SEGMENT type i j Direction.u 0 2 0 1]
  | b1111 => []
  | _ => []
  end.

Definition run_call (cf : FindContour) (b : Builder) (c : Call)
  : Result Builder :=
  addSegment cf b (call_type c) (call_direction c) (call_i c) (call_j c)
             (call_start c) (call_end c).

(** The calls of a list made one after the other; a failure ends the run. *)
Fixpoint run_calls (cf : FindContour) (b : Builder) (cs : list Call)
  : Result Builder :=
  match cs with
  | [] => Ok b
  | c :: cs' => b' <- run_call cf b c ;; run_calls cf b' cs'
  end.

Definition add (cf : FindContour) (b : Builder) (i j : Z) (type : CellType)
  : Result Builder :=
  run_calls cf b (add_calls cf i j type).

Definition addBorder (cf : FindContour) (b : Builder) (i j : Z)
           (type : CellType) : Result Builder :=
  run_calls cf b (addBorder_calls i j type).

(** ** [FindContour::operator()] *)

Definition getFlags (raster : Raster) (x y : Z) : CellType :=
  Z.lor (Z.lor (Z.lor (Z.b2z (get raster x (y + 1)))
                      (Z.shiftl (Z.b2z (get raster (x + 1) (y + 1))) 1))
               (Z.shiftl (Z.b2z (get raster (x + 1) y)) 2))
        (Z.shiftl (Z.b2z (get raster x y)) 3).

(** The values [lo, lo + 1, ..., hi] of a loop counter ([hi] included). *)
Definition counter (lo hi : Z) : list Z :=
  map (fun k => lo + Z.of_nat k) (seq 0 (Z.to_nat (hi + 1 - lo))).

Inductive Visit : Type :=
| ADD (x y : Z)
| ADD_BORDER (x y : Z).

(** The cells in the order the sweep visits them. *)
Definition sweep (w h : Z) : list Visit :=
  let xend := w - 1 in
  let yend := h - 1 in
  map (fun i => ADD_BORDER i (-1)) (counter (-1) xend)
  ++ flat_map (fun j =>
       [ADD_BORDER (-1) j]
       ++ map (fun i => ADD i j) (counter 0 (xend - 1))
       ++ [ADD_BORDER xend j]) (counter 0 (yend - 1))
  ++ map (fun i => ADD_BORDER i yend) (counter (-1) xend).

Definition visit_calls (cf : FindContour) (raster : Raster) (v : Visit)
  : list Call :=
  match v with
  | ADD x y => add_calls cf x y (getFlags raster x y)
  | ADD_BORDER x y => addBorder_calls x y (getFlags raster x y)
  end.

Definition visit (cf : FindContour) (raster : Raster) (cb : Builder)
           (v : Visit) : Result Builder :=
  match v with
  | ADD x y => add cf cb x y (getFlags raster x y)
  | ADD_BORDER x y => addBorder cf cb x y (getFlags raster x y)
  end.

Fixpoint run_sweep (cf : FindContour) (raster : Raster) (cb : Builder)
         (vs : list Visit) : Result Builder :=
  match vs with
  | [] => Ok cb
  | v :: vs' => cb' <- visit cf raster cb v ;; run_sweep cf raster cb' vs'
  end.

Definition find_contour (cf : FindContour) (raster : Raster)
  : Result Contour :=
  cb <- run_sweep cf raster
          (Builder_init (width raster) (height raster))
          (sweep (width raster) (height raster)) ;;
  Ok (contour cb).

(** All calls of [addSegment] of one sweep over the raster, in order. *)
Definition sweep_calls (cf : FindContour) (raster : Raster) : list Call :=
  flat_map (visit_calls cf raster) (sweep (width raster) (height raster)).

(** ** Rasters given by their rows *)

Definition raster_of_rows (w h : Z) (rows : list (list bool)) : Raster :=
  mkRaster w h
    (fun x y => nth (Z.to_nat x) (nth (Z.to_nat y) rows []) false).

(** The default policy keeps an ambiguous type as it is. *)
Definition keep_type (v : Vertex) (t : CellType) : CellType := t.

Definition raster_1x1 : Raster := raster_of_rows 1 1 [[true]].

(** ** The border rule in the words of the specification *)

(** The corner of a cell that each bit of the cell code stands for, as
    [getFlags] reads them: bit 0 is pixel [(i, j+1)], bit 1 is [(i+1, j+1)],
    bit 2 is [(i+1, j)], bit 3 is [(i, j)]. *)
Definition corner_of_bit (k : Z) : Z * Z :=
  match k with
  | 0 => (0, 1)
  | 1 => (1, 1)
  | 2 => (1, 0)
  | _ => (0, 0)
  end.

Definition set_corners (type : CellType) : list (Z * Z) :=
  map corner_of_bit (filter (Z.testbit type) [0; 1; 2; 3]).

Definition all_corners : list (Z * Z) := [(0, 0); (1, 0); (0, 1); (1, 1)].

Definition is_saddle (type : CellType) : bool :=
  (type =? b0101) || (type =? b1010).

(** The rule as the specification words it: the corners whose bit is set,
    all four corners for the two saddles, none for [0000] and [1111]. *)
Definition stated_marks (type : CellType) : list (Z * Z) :=
  if (type =? b0000) || (type =? b1111) then []
  else if is_saddle type then all_corners
  else set_corners type.

(** The rule the switch implements: as above, and all four corners also for
    the codes with three bits set. *)
Definition three_bits (type : CellType) : bool :=
  Nat.eqb (length (set_corners type)) 3.

Definition table_marks (type : CellType) : list (Z * Z) :=
  if (type =? b0000) || (type =? b1111) then []
  else if is_saddle type || three_bits type then all_corners
  else set_corners type.

(** ** Subsequences *)

(** [Subsequence l1 l2]: [l1] is [l2] with some elements left out, the
    others in their order. *)
Inductive Subsequence {A : Type} : list A -> list A -> Prop :=
| Subsequence_nil : Subsequence [] []
| Subsequence_skip (x : A) (l1 l2 : list A) :
    Subsequence l1 l2 -> Subsequence l1 (x :: l2)
| Subsequence_keep (x : A) (l1 l2 : list A) :
    Subsequence l1 l2 -> Subsequence (x :: l1) (x :: l2).

(** ** Ring simplification: [findLockedPoints], [simplifyRing], [simplify]

    The simplifier computes with [double].  Its control flow depends on the
    arithmetic only through comparisons, so the arithmetic is kept abstract:
    every statement below holds for any choice of the operations, the
    floating-point ones in particular. *)

Section Simplify.

Variable double : Type.
Variable dlt : double -> double -> bool.           (* a < b *)
Variable dsub dmul : double -> double -> double.   (* a - b, a * b *)
Variable dabs : double -> double.                  (* std::abs *)
Variable dlit : Z -> double.                       (* a numeric literal *)
Variable infinity : double.
Variable isfinite : double -> bool.

(** [math::Point2d] and its [operator<], the key order of [std::map] and
    [std::set]; two keys are the same key when neither is less. *)
Definition P2 : Type := (double * double)%type.
Variable point_lt : P2 -> P2 -> bool.

Definition same_key (a b : P2) : bool :=
  negb (point_lt a b) && negb (point_lt b a).

(** [std::make_heap(first, last, comp)] on the range as a list. *)
Variable make_heap : (nat -> nat -> bool) -> list nat -> list nat.

(** *** [findLockedPoints] *)

(** [++cardinality[p]]: the map is kept as an association list; only the
    counts are read afterwards. *)
Fixpoint increment (m : list (P2 * Z)) (p : P2) : list (P2 * Z) :=
  match m with
  | [] => [(p, 0 + 1)]
  | (k, n) :: m' =>
      if same_key k p then (k, n + 1) :: m'
      else (k, n) :: increment m' p
  end.

Definition cardinality (contours : list (ContourOf P2)) : list (P2 * Z) :=
  fold_left
    (fun m contour =>
       fold_left (fun m ring => fold_left increment ring m)
                 (rings contour) m)
    contours [].

Definition LockedPoints : Type := list P2.

Definition findLockedPoints (contours : list (ContourOf P2))
  : LockedPoints :=
  map fst (filter (fun item => snd item >? 2) (cardinality contours)).

(** [lockedPoints.find(p) != lockedPoints.end()] *)
Definition is_locked (lockedPoints : LockedPoints) (p : P2) : bool :=
  existsb (same_key p) lockedPoints.

(** *** [area] *)

Definition area (a b c : P2) : double :=
  dabs (dsub (dmul (dsub (fst b) (fst a)) (dsub (snd c) (snd a)))
             (dmul (dsub (fst c) (fst a)) (dsub (snd b) (snd a)))).

(** *** [simplifyRing] *)

(** A node of the linked list [points]: a [math::Point3] holding x, y and
    the cost.  [node_id] is the identity of the node (its position in the
    input ring); an iterator kept in the heap is the identity of its
    node. *)
Record Node : Type := mkNode {
  node_id : nat;
  node_xy : P2;
  node_cost : double
}.

Definition LinkedPoints : Type := list Node.

Definition set_cost (n : Node) (c : double) : Node :=
  mkNode (node_id n) (node_xy n) c.

(** The lambda [add] applied to the point of index [i]: the new node and
    whether its iterator is pushed on the heap. *)
Definition add_point (lockedPoints : LockedPoints) (i : nat)
           (prev p next : P2) : Node * bool :=
  if negb (is_locked lockedPoints p)
  then (mkNode i p (area prev p next), true)
  else (mkNode i p infinity, false).

(** The three phases that fill [points]: first point, inner points, last
    point.  [d] stands for an index out of range, which does not occur. *)
Definition work_area (lockedPoints : LockedPoints) (ring : list P2) (d : P2)
  : list (Node * bool) :=
  let at_ i := nth i ring d in
  let size := length ring in
  [add_point lockedPoints 0 (at_ (size - 1)%nat) (at_ 0%nat) (at_ 1%nat)]
  ++ map (fun i => add_point lockedPoints i
                     (at_ (i - 1)%nat) (at_ i) (at_ (i + 1)%nat))
         (seq 1 (size - 2))
  ++ [add_point lockedPoints (size - 1)
                (at_ (size - 2)%nat) (at_ (size - 1)%nat) (at_ 0%nat)].

Fixpoint lookup (points : LinkedPoints) (id : nat) : option Node :=
  match points with
  | [] => None
  | n :: points' =>
      if Nat.eqb (node_id n) id then Some n else lookup points' id
  end.

(** The lambda [compare] on two iterators. *)
Definition compare_nodes (p1 p2 : Node) : bool :=
  if dlt (node_cost p1) (node_cost p2) then false
  else if dlt (node_cost p2) (node_cost p1) then true
  else if dlt (fst (node_xy p1)) (fst (node_xy p2)) then false
  else if dlt (fst (node_xy p2)) (fst (node_xy p1)) then true
  else dlt (snd (node_xy p1)) (snd (node_xy p2)).

Definition compare (points : LinkedPoints) (l r : nat) : bool :=
  match lookup points l, lookup points r with
  | Some p1, Some p2 => compare_nodes p1 p2
  | _, _ => false
  end.

Fixpoint position (points : LinkedPoints) (id : nat) : option nat :=
  match points with
  | [] => None
  | n :: points' =>
      if Nat.eqb (node_id n) id then Some O
      else option_map S (position points' id)
  end.

Fixpoint erase (points : LinkedPoints) (k : nat) : LinkedPoints :=
  match points, k with
  | [], _ => []
  | _ :: points', O => points'
  | n :: points', S k' => n :: erase points' k'
  end.

Fixpoint update_cost (points : LinkedPoints) (k : nat) (c : double)
  : LinkedPoints :=
  match points, k with
  | [], _ => []
  | n :: points', O => set_cost n c :: points'
  | n :: points', S k' => n :: update_cost points' k' c
  end.

(** Positions in the list stand for the iterators local to one round of
    the loop. *)
Definition getPrev (points : LinkedPoints) (it : nat) : nat :=
  if Nat.eqb it 0 then (length points - 1)%nat else (it - 1)%nat.

Definition getNext (points : LinkedPoints) (it : nat) : nat :=
  if Nat.eqb (S it) (length points) then 0%nat else S it.

(** The statements of one round after the stop test: the node at position
    [k] is erased and the costs of its two neighbours are recomputed. *)
Definition remove_point (points : LinkedPoints) (k : nat)
  : Result LinkedPoints :=
  let points := erase points k in
  match points with
  | [] => Fail InvalidIterator
  | n0 :: _ =>
      let point := if Nat.eqb k (length points) then 0%nat else k in
      let prev := getPrev points point in
      let xy it := node_xy (nth it points n0) in
      let points :=
        if isfinite (node_cost (nth prev points n0))
        then update_cost points prev
               (area (xy (getPrev points prev)) (xy prev) (xy point))
        else points in
      let points :=
        if isfinite (node_cost (nth point points n0))
        then update_cost points point
               (area (xy prev) (xy point) (xy (getNext points point)))
        else points in
      Ok points
  end.

(** The [while] loop; [heap] is the range from [heapBegin] to [heapEnd],
    [fuel] bounds the rounds by its length. *)
Fixpoint simplify_loop (fuel : nat) (stopCondition : double)
         (heap : list nat) (points : LinkedPoints) : Result LinkedPoints :=
  match fuel, heap with
  | O, _ | _, [] => Ok points
  | S fuel', _ :: _ =>
      match make_heap (compare points) heap with
      | [] => Ok points
      | point :: heap' =>
          match position points point, lookup points point with
          | Some k, Some n =>
              if dlt stopCondition (node_cost n) then Ok points
              else
                points' <- remove_point points k ;;
                simplify_loop fuel' stopCondition heap' points'
          | _, _ => Fail InvalidIterator
          end
      end
  end.

Definition simplifyRing (ring : list P2) (lockedPoints : LockedPoints)
           (stopCondition : double) : Result (list P2) :=
  let stopCondition := dmul stopCondition (dlit 2) in
  if (length ring <=? 4)%nat then Ok ring
  else
    let work := work_area lockedPoints ring (nth 0 ring (dlit 0, dlit 0)) in
    let points := map fst work in
    let heap := map (fun w => node_id (fst w)) (filter snd work) in
    points <- simplify_loop (length heap) stopCondition heap points ;;
    Ok (map node_xy points).

(** *** [simplify] *)

Fixpoint simplify_rings (lockedPoints : LockedPoints)
         (rs : list (list P2)) : Result (list (list P2)) :=
  match rs with
  | [] => Ok []
  | ring :: rs' =>
      ring' <- simplifyRing ring lockedPoints (dlit 10) ;;
      rs'' <- simplify_rings lockedPoints rs' ;;
      Ok (ring' :: rs'')
  end.

(** Modelled from the spec: [Contour::operator bool], declared outside the
    sources at hand; a contour is empty iff it has no rings. *)
Definition nonempty (contour : ContourOf P2) : bool :=
  match rings contour with
  | [] => false
  | _ :: _ => true
  end.

Fixpoint simplify_contours (lockedPoints : LockedPoints)
         (contours : list (ContourOf P2)) : Result (list (ContourOf P2)) :=
  match contours with
  | [] => Ok []
  | contour :: contours' =>
      contour' <-
        (if negb (nonempty contour) then Ok contour
         else rs <- simplify_rings lockedPoints (rings contour) ;;
              Ok (mkContour rs (border contour))) ;;
      contours'' <- simplify_contours lockedPoints contours' ;;
      Ok (contour' :: contours'')
  end.

Definition simplify (contours : list (ContourOf P2))
  : Result (list (ContourOf P2)) :=
  simplify_contours (findLockedPoints contours) contours.

End Simplify.

(** ** An exact instance of the arithmetic

    Rational numbers with exact operations, for running the simplifier on
    inputs whose coordinates and areas a [double] holds exactly (small
    integers).  There is no infinite rational: [None] is the infinity. *)

Module Exact.

Definition double : Type := option Q.

Definition dlt (a b : double) : bool :=
  match a, b with
  | Some x, Some y => negb (Qle_bool y x)
  | Some _, None => true
  | None, _ => false
  end.

Definition lift2 (f : Q -> Q -> Q) (a b : double) : double :=
  match a, b with
  | Some x, Some y => Some (Qred (f x y))
  | _, _ => None
  end.

Definition dsub : double -> double -> double := lift2 Qminus.
Definition dmul : double -> double -> double := lift2 Qmult.
Definition dabs (a : double) : double := option_map Qabs a.
Definition dlit (z : Z) : double := Some (inject_Z z).
Definition infinity : double := None.

Definition isfinite (a : double) : bool :=
  match a with
  | Some _ => true
  | None => false
  end.

(** Lexicographic order on points. *)
Definition point_lt (a b : double * double) : bool :=
  dlt (fst a) (fst b)
  || (negb (dlt (fst b) (fst a)) && dlt (snd a) (snd b)).

(** A heap builder: a greatest element of the range (under [comp]) is
    moved to the front, the others keep their order. *)
Fixpoint greatest (comp : nat -> nat -> bool) (best : nat) (l : list nat)
  : nat :=
  match l with
  | [] => best
  | x :: l' => greatest comp (if comp best x then x else best) l'
  end.

Fixpoint remove_first (x : nat) (l : list nat) : list nat :=
  match l with
  | [] => []
  | y :: l' => if Nat.eqb x y then l' else y :: remove_first x l'
  end.

Definition make_heap (comp : nat -> nat -> bool) (l : list nat)
  : list nat :=
  match l with
  | [] => []
  | x :: l' => let g := greatest comp x l' in g :: remove_first g l
  end.

Definition pt (x y : Z) : double * double := (dlit x, dlit y).

Definition findLockedPoints := findLockedPoints double point_lt.

Definition simplifyRing :=
  simplifyRing double dlt dsub dmul dabs dlit infinity isfinite point_lt
               make_heap.

Definition simplify :=
  simplify double dlt dsub dmul dabs dlit infinity isfinite point_lt
           make_heap.

End Exact.

(** ** Concrete inputs *)

(** The outline of the pixel (0,0), pixel centres at integer points. *)
Definition pixel_center_square : Polygon :=
  [(-1 # 2, -1 # 2); (1 # 2, -1 # 2); (1 # 2, 1 # 2); (-1 # 2, 1 # 2)]%Q.


(** The number of rings, over all contours, in which a point occurs: the
    cardinality that the comment in [findLockedPoints] and the specification
    speak of. *)
Definition rings_containing {P : Type} (same : P -> P -> bool)
           (contours : list (ContourOf P)) (p : P) : nat :=
  length (filter (existsb (same p)) (flat_map rings contours)).

(** A hexagon with two neighbouring vertices, (0,3) and (0,6), of the same
    cost 9 and the same x. *)
Definition hexagon : list (Exact.double * Exact.double) :=
  [Exact.pt 3 0; Exact.pt 0 3; Exact.pt 0 6; Exact.pt 3 9; Exact.pt 30 9;
   Exact.pt 30 0].

Definition hexagon_simplified : list (Exact.double * Exact.double) :=
  [Exact.pt 3 0; Exact.pt 0 3; Exact.pt 3 9; Exact.pt 30 9; Exact.pt 30 0].

(** The work area [simplifyRing] builds for the hexagon. *)
Definition hexagon_points : LinkedPoints Exact.double :=
  map fst (work_area Exact.double Exact.dsub Exact.dmul Exact.dabs
                     Exact.infinity Exact.point_lt [] hexagon
                     (Exact.pt 0 0)).

(** One contour with one ring that passes three times through (0,0). *)
Definition clover : list (ContourOf (Exact.double * Exact.double)) :=
  [mkContour [[Exact.pt 0 0; Exact.pt 1 0; Exact.pt 0 0; Exact.pt 0 1;
               Exact.pt 0 0]]
             (mkMask 0 0 [])].

(** ** Notions used in the statements about the sweep *)

(** The cell a visit of the sweep is about. *)
Definition visit_cell (v : Visit) : Z * Z :=
  match v with
  | ADD x y => (x, y)
  | ADD_BORDER x y => (x, y)
  end.

(** The policy for ambiguous cells answers a saddle code with a saddle
    code (the same one or the other). *)
Definition answers_saddles (cf : FindContour) : Prop :=
  forall (v : Vertex) (t : CellType),
    is_saddle t = true -> is_saddle (ambiguousType cf v t) = true.

(** [(x, y)] is a pixel of the raster at one of the corners [marks] selects
    (by cell code) of a cell visited by the sweep. *)
Definition at_corner_of_visited (marks : CellType -> list (Z * Z))
           (raster : Raster) (x y : Z) : Prop :=
  in_bounds (width raster) (height raster) x y = true
  /\ exists v : Visit,
      In v (sweep (width raster) (height raster))
      /\ getFlags raster (fst (visit_cell v)) (snd (visit_cell v)) <> b0000
      /\ getFlags raster (fst (visit_cell v)) (snd (visit_cell v)) <> b1111
      /\ In (x - fst (visit_cell v), y - snd (visit_cell v))
            (marks (getFlags raster (fst (visit_cell v))
                             (snd (visit_cell v)))).

Definition raster_2x1 : Raster := raster_of_rows 2 1 [[true; false]].

Definition raster_saddle : Raster :=
  raster_of_rows 2 2 [[true; false]; [false; true]].

(** The cell code of four corner values. *)
Definition code_of (b0 b1 b2 b3 : bool) : CellType :=
  Z.b2z b0 + 2 * Z.b2z b1 + 4 * Z.b2z b2 + 8 * Z.b2z b3.

(** ** The linking invariant of the segment store *)

(** If [A.next = B] then [B.prev = A] and [A.end = B.start]. *)
Definition links_consistent (m : SegmentMap) : Prop :=
  forall (a b : nat) (A : Segment),
    nth_error m a = Some A -> seg_next A = Some b ->
    exists B : Segment,
      nth_error m b = Some B /\ seg_prev B = Some a
      /\ seg_end A = seg_start B.

(** The same read from the other side: if [B.prev = A] then [A.next = B]
    and [A.end = B.start]. *)
Definition back_links_consistent (m : SegmentMap) : Prop :=
  forall (a b : nat) (B : Segment),
    nth_error m b = Some B -> seg_prev B = Some a ->
    exists A : Segment,
      nth_error m a = Some A /\ seg_next A = Some b
      /\ seg_end A = seg_start B.

Definition unique_starts (m : SegmentMap) : Prop :=
  forall (a b : nat) (A B : Segment),
    nth_error m a = Some A -> nth_error m b = Some B ->
    seg_start A = seg_start B -> a = b.

Definition unique_ends (m : SegmentMap) : Prop :=
  forall (a b : nat) (A B : Segment),
    nth_error m a = Some A -> nth_error m b = Some B ->
    seg_end A = seg_end B -> a = b.

Record store_ok (m : SegmentMap) : Prop := mk_store_ok {
  ok_starts : unique_starts m;
  ok_ends : unique_ends m;
  ok_next : links_consistent m;
  ok_prev : back_links_consistent m
}.

(** A store with the ring leaders blanked: what the updates of the ring
    leaders leave alone. *)
Definition shape (m : SegmentMap) : SegmentMap :=
  map (fun s => set_ringLeader s None) m.

(** The store after the insertion and the linking of [addSegment], before
    the ring leaders are dealt with. *)
Definition linked_store (m : SegmentMap) (type : CellType)
           (direction : Direction.t) (start end_ : Vertex) : SegmentMap :=
  let prev := findByEnd m start in
  let next := findByStart m end_ in
  let '(m1, s) :=
    insert m (mkSegment type direction start end_ prev next None) in
  match prev, next with
  | None, None => m1
  | _, _ => fst (fst (link m1 s prev next))
  end.

(** A call finds the store ready for it: its segment is new at both ends,
    or it has no neighbour in the store. *)
Definition admissible (m : SegmentMap) (start end_ : Vertex) : Prop :=
  (findByStart m start = None /\ findByEnd m end_ = None)
  \/ (findByEnd m start = None /\ findByStart m end_ = None).

(** What the linking does to the segment at position [k]. *)
Definition relink (prev next : SegPtr) (s k : nat) (x : Segment) : Segment :=
  let x1 := if SegPtr_eqb prev (Some k) then set_next x (Some s) else x in
  if SegPtr_eqb next (Some k) then set_prev x1 (Some s) else x1.

(** Every stored segment was asked for by one of the calls [cs]. *)
Definition covered (cs : list Call) (m : SegmentMap) : Prop :=
  forall (k : nat) (S : Segment),
    nth_error m k = Some S ->
    exists c, In c cs /\ call_start c = seg_start S
              /\ call_end c = seg_end S.

(** The third call of the case [b0010] of [addBorder], which comes from the
    case [b0011]: the only call of type [b0010] that starts on the left edge
    of its cell. *)
Definition is_fallthrough (c : Call) : bool :=
  (call_type c =? b0010)
  && Vertex_eqb (call_start c) (call_i c * 2 + 0, call_j c * 2 + 1).

(** Two calls, [q] made before [c], that do not disturb each other: they
    differ in both ends, or, when [c] is the run-on call, [q] is no
    neighbour of [c]. *)
Definition compatible (q c : Call) : Prop :=
  if is_fallthrough c
  then call_end q <> call_start c /\ call_start q <> call_end c
  else call_start q <> call_start c /\ call_end q <> call_end c.

(** ** Closed rings *)

Definition next_of (m : SegmentMap) (a : nat) : SegPtr :=
  match nth_error m a with
  | Some A => seg_next A
  | None => None
  end.

(** Following [next] from the segment [a] leads through the segments [ks],
    in this order, to the segment [b]. *)
Fixpoint next_path (m : SegmentMap) (a : nat) (ks : list nat) (b : nat)
  : Prop :=
  match ks with
  | [] => next_of m a = Some b
  | k :: ks' => next_of m a = Some k /\ next_path m k ks' b
  end.

(** A lattice segment by its two ends, [(start, end)]. *)
Definition Edge : Type := (Vertex * Vertex)%type.

Definition ends_of (m : SegmentMap) (k : nat) : Edge :=
  match nth_error m k with
  | Some x => (seg_start x, seg_end x)
  | None => ((0, 0), (0, 0))
  end.

(** The edge [e] and after it the edges [rest] follow one another, each
    starting where the one before ends, and the last ends in [target]. *)
Fixpoint chained (e : Edge) (rest : list Edge) (target : Vertex) : Prop :=
  match rest with
  | [] => snd e = target
  | e' :: rest' => snd e = fst e' /\ chained e' rest' target
  end.

(** [ring] is cyclically closed: there is a chain of lattice segments asked
    for by [calls] that returns to its start; the first vertex of the ring is
    the start of the first segment and the other vertices are starts of
    segments further along the chain, in the order of the chain. *)
Definition cyclically_closed (cf : FindContour) (calls : list Call)
           (ring : Polygon) : Prop :=
  exists (e : Edge) (rest : list Edge) (corners : list Vertex),
    chained e rest (fst e)
    /\ (forall e', In e' (e :: rest) ->
                   exists c, In c calls /\ call_start c = fst e'
                             /\ call_end c = snd e')
    /\ Subsequence corners (map fst rest)
    /\ ring = map (to_pixel cf) (fst e :: corners).

(** ** Where segments start and end on the lattice *)

(** A segment of the cell [(i, j)] may start in [P]: [P] is the middle of an
    edge of the cell whose two pixels differ, seen in the sense in which the
    tables leave such an edge, or the centre of the cell. *)
Definition crossing_start (raster : Raster) (P : Vertex) (i j : Z) : Prop :=
  (P = (i * 2 + 1, j * 2 + 0)
   /\ get raster i j = true /\ get raster (i + 1) j = false)
  \/ (P = (i * 2 + 0, j * 2 + 1)
      /\ get raster i j = false /\ get raster i (j + 1) = true)
  \/ (P = (i * 2 + 2, j * 2 + 1)
      /\ get raster (i + 1) j = true /\ get raster (i + 1) (j + 1) = false)
  \/ (P = (i * 2 + 1, j * 2 + 2)
      /\ get raster i (j + 1) = false
      /\ get raster (i + 1) (j + 1) = true)
  \/ P = (i * 2 + 1, j * 2 + 1).

(** The same for the end of a segment: the edges are met in the opposite
    sense. *)
Definition crossing_end (raster : Raster) (P : Vertex) (i j : Z) : Prop :=
  (P = (i * 2 + 1, j * 2 + 0)
   /\ get raster i j = false /\ get raster (i + 1) j = true)
  \/ (P = (i * 2 + 0, j * 2 + 1)
      /\ get raster i j = true /\ get raster i (j + 1) = false)
  \/ (P = (i * 2 + 2, j * 2 + 1)
      /\ get raster (i + 1) j = false /\ get raster (i + 1) (j + 1) = true)
  \/ (P = (i * 2 + 1, j * 2 + 2)
      /\ get raster i (j + 1) = true
      /\ get raster (i + 1) (j + 1) = false)
  \/ P = (i * 2 + 1, j * 2 + 1).

(** The run-on call of a border cell with code [b0010]. *)
Definition runs_on (raster : Raster) (c : Call) : Prop :=
  call_start c = (call_i c * 2 + 0, call_j c * 2 + 1)
  /\ call_end c = (call_i c * 2 + 2, call_j c * 2 + 1)
  /\ get raster (call_i c) (call_j c) = false
  /\ get raster (call_i c) (call_j c + 1) = false
  /\ get raster (call_i c + 1) (call_j c) = false
  /\ get raster (call_i c + 1) (call_j c + 1) = true.

(** What the tables guarantee for a call [c] of a visited cell. *)
Definition placed (raster : Raster) (c : Call) : Prop :=
  crossing_end raster (call_end c) (call_i c) (call_j c)
  /\ ((is_fallthrough c = false
       /\ crossing_start raster (call_start c) (call_i c) (call_j c))
      \/ (is_fallthrough c = true /\ runs_on raster c)).

(** Two neighbouring corners of the cell lie outside the raster. *)
Definition on_border (raster : Raster) (i j : Z) : Prop :=
  i = -1 \/ j = -1 \/ i = width raster - 1 \/ j = height raster - 1.

(** The order in which the sweep visits the cells: row by row. *)
Definition cell_lt (a b : Z * Z) : Prop :=
  snd a < snd b \/ (snd a = snd b /\ fst a < fst b).

Definition visited_properly (raster : Raster) (v : Visit) : Prop :=
  match v with
  | ADD _ _ => True
  | ADD_BORDER x y => on_border raster x y
  end.

Definition visit_before (v v' : Visit) : Prop :=
  cell_lt (visit_cell v) (visit_cell v').

(** One inner row of the sweep. *)
Definition sweep_row (w : Z) (j : Z) : list Visit :=
  [ADD_BORDER (-1) j]
  ++ map (fun i => ADD i j) (counter 0 (w - 1 - 1))
  ++ [ADD_BORDER (w - 1) j].

(** The parameters used for the concrete runs: pixel centres at integer
    points, straight segments joined, ambiguous cells kept. *)
Definition default_cf : FindContour := mkFindContour center true keep_type.

(** ** Comparing two runs *)

(** Two results that fail in the same way or return related values. *)
Definition rel_result {A B : Type} (R : A -> B -> Prop)
           (r1 : Result A) (r2 : Result B) : Prop :=
  match r1, r2 with
  | Ok a, Ok b => R a b
  | Fail f, Fail g => f = g
  | _, _ => False
  end.

(** Two builders with the same store and the same border mask, and with
    rings related one by one. *)
Definition rel_builder (R : Polygon -> Polygon -> Prop) (b1 b2 : Builder)
  : Prop :=
  segments b1 = segments b2
  /\ border (contour b1) = border (contour b2)
  /\ Forall2 R (rings (contour b1)) (rings (contour b2)).

Definition rel_contour (R : Polygon -> Polygon -> Prop) (c1 c2 : Contour)
  : Prop :=
  border c1 = border c2 /\ Forall2 R (rings c1) (rings c2).

(** The translation by half a pixel in both directions. *)
Definition half_pixel_shift (p : Point2d) : Point2d :=
  (Qred (fst p + (1 # 2)), Qred (snd p + (1 # 2))).


(** ** Notions for the simplifier *)

(** All vertices of all rings of all contours, in the order
    [findLockedPoints] reads them. *)
Definition all_points {P : Type} (contours : list (ContourOf P)) : list P :=
  flat_map (fun contour => concat (rings contour)) contours.

(** How often a point occurs in a list of points (up to [same]). *)
Definition occurrences {P : Type} (same : P -> P -> bool) (p : P)
           (pts : list P) : Z :=
  Z.of_nat (length (filter (same p) pts)).

(** The cost [simplifyRing] gives at first to the vertex of index [i] of a
    ring: the area spanned with the two neighbours in the closed ring. *)
Definition vertex_cost (double : Type) (dsub dmul : double -> double -> double)
           (dabs : double -> double) (ring : list (P2 double)) (d : P2 double)
           (i : nat) : double :=
  let size := length ring in
  area double dsub dmul dabs
       (nth (if Nat.eqb i 0 then size - 1 else i - 1)%nat ring d)
       (nth i ring d)
       (nth (if Nat.eqb i (size - 1) then 0 else i + 1)%nat ring d).

(** The list [points] holds a node with identity [i] at the point [p]. *)
Definition holds (double : Type) (points : LinkedPoints double) (i : nat)
           (p : P2 double) : Prop :=
  exists n, In n points /\ node_id double n = i /\ node_xy double n = p.

(** The hexagon simplified with (0,6) locked. *)
Definition hexagon_locked_simplified : list (Exact.double * Exact.double) :=
  [Exact.pt 3 0; Exact.pt 0 6; Exact.pt 3 9; Exact.pt 30 9; Exact.pt 30 0].

(** The count the map [cardinality] holds for the key of [q] (0 when the
    key is missing). *)
Definition count_of (double : Type) (point_lt : P2 double -> P2 double -> bool)
           (m : list (P2 double * Z)) (q : P2 double) : Z :=
  match find (fun e => same_key double point_lt (fst e) q) m with
  | Some e => snd e
  | None => 0
  end.

(** No two keys of the map are the same key. *)
Definition distinct_keys (double : Type)
           (point_lt : P2 double -> P2 double -> bool)
           (m : list (P2 double * Z)) : Prop :=
  ForallOrdPairs
    (fun e1 e2 => same_key double point_lt (fst e1) (fst e2) = false) m.

(** ** Ring leaders *)

Definition prev_of (m : SegmentMap) (a : nat) : SegPtr :=
  match nth_error m a with
  | Some A => seg_prev A
  | None => None
  end.

(** The segment reached from [a] by following [next] [t] times. *)
Fixpoint steps (m : SegmentMap) (a : nat) (t : nat) : SegPtr :=
  match t with
  | O => Some a
  | S t' =>
      match next_of m a with
      | Some b => steps m b t'
      | None => None
      end
  end.

Definition reach (m : SegmentMap) (a b : nat) : Prop :=
  exists t, steps m a t = Some b.

(** Two linked segments have the same ring leader, which is not null; and
    a segment is joined with its ring leader by a chain of [next] links, one
    way or the other. *)
Record leaders_ok (m : SegmentMap) : Prop := mk_leaders_ok {
  lead_link :
    forall a b, next_of m a = Some b ->
      ringLeader_of m a = ringLeader_of m b /\ ringLeader_of m a <> None;
  lead_member :
    forall a l, ringLeader_of m a = Some l -> reach m l a \/ reach m a l
}.

(** The segments a loop [for (s = cur; s; s = f(s))] goes through. *)
Fixpoint walk_list (f : nat -> SegPtr) (cur : SegPtr) (W : list nat)
  : Prop :=
  match W with
  | [] => cur = None
  | k :: W' => cur = Some k /\ walk_list f (f k) W'
  end.

Definition ptr_of (step : Segment -> SegPtr) (m : SegmentMap) (k : nat)
  : SegPtr :=
  match nth_error m k with
  | Some sk => step sk
  | None => None
  end.

(** [m'] is [m] with the ring leader [l] written to the segments [X]. *)
Definition releads (m m' : SegmentMap) (X : list nat) (l : SegPtr) : Prop :=
  forall k,
    nth_error m' k
    = option_map (fun y => if existsb (Nat.eqb k) X
                           then set_ringLeader y l else y)
                 (nth_error m k).

(** The segment a pointer designates, if any. *)
Definition ptr_list (p : SegPtr) : list nat :=
  match p with
  | Some k => [k]
  | None => []
  end.

(** ** Chains that are complete *)

(** Every call of [cs] other than the run-on call has its segment in the
    store. *)
Definition stored (cs : list Call) (m : SegmentMap) : Prop :=
  forall c, In c cs -> is_fallthrough c = false ->
    exists k S, nth_error m k = Some S
                /\ seg_start S = call_start c /\ seg_end S = call_end c.

(** Two stored segments of which one ends where the other starts are
    linked. *)
Definition links_complete (m : SegmentMap) : Prop :=
  forall (a b : nat) (A B : Segment),
    nth_error m a = Some A -> nth_error m b = Some B ->
    seg_end A = seg_start B -> seg_next A = Some b.

(** ** A raster whose ring loses a corner *)

(** One set pixel, [(1, 0)], in a raster of 2 x 2. *)
Definition raster_one_of_four : Raster :=
  raster_of_rows 2 2 [[false; true]; [false; false]].

(** The store a sweep leaves ([[]] if the sweep fails). *)
Definition store_of (cf : FindContour) (raster : Raster) : SegmentMap :=
  match run_calls cf (Builder_init (width raster) (height raster))
                  (sweep_calls cf raster) with
  | Ok cb => segments cb
  | Fail _ => []
  end.

(** What [simplify] makes of [clover]. *)
Definition clover_simplified : list (ContourOf (Exact.double * Exact.double)) :=
  [mkContour [[Exact.pt 0 0; Exact.pt 0 0; Exact.pt 0 0]] (mkMask 0 0 [])].
(** * Properties *)

(** ** Basic facts *)

Lemma Direction_eqb_eq (a b : Direction.t) :
  Direction.eqb a b = true <-> a = b.
Proof. destruct a, b; simpl; split; congruence. Qed.

Lemma Vertex_eqb_eq (a b : Vertex) : Vertex_eqb a b = true <-> a = b.
Proof.
  destruct a as [ax ay], b as [bx by_]; unfold Vertex_eqb; simpl.
  rewrite andb_true_iff, !Z.eqb_eq. split.
  - intros [-> ->]; reflexivity.
  - intros H; inversion H; auto.
Qed.

Lemma Vertex_eqb_refl (a : Vertex) : Vertex_eqb a a = true.
Proof. apply Vertex_eqb_eq; reflexivity. Qed.

Lemma Vertex_eqb_neq (a b : Vertex) : Vertex_eqb a b = false <-> a <> b.
Proof.
  split.
  - intros H E. apply Vertex_eqb_eq in E. congruence.
  - intros H. destruct (Vertex_eqb a b) eqn:E; [|reflexivity].
    apply Vertex_eqb_eq in E. contradiction.
Qed.

Lemma bind_Ok {A B : Type} (m : Result A) (k : A -> Result B) (b : B) :
  bind m k = Ok b -> exists a, m = Ok a /\ k a = Ok b.
Proof. destruct m as [a|f]; simpl; [eauto | discriminate]. Qed.

(** ** The border mask *)

Lemma mask_get_In (m : RasterMask) (x y : Z) :
  mask_get m x y = true <-> In (x, y) (mask_set m).
Proof.
  unfold mask_get. rewrite existsb_exists. split.
  - intros [v [Hin Hv]]. apply Vertex_eqb_eq in Hv. subst v. exact Hin.
  - intros Hin. exists (x, y). split; [exact Hin | apply Vertex_eqb_refl].
Qed.

Lemma mask_put_dims (m : RasterMask) (x y : Z) :
  mask_width (mask_put m x y) = mask_width m
  /\ mask_height (mask_put m x y) = mask_height m.
Proof.
  unfold mask_put.
  destruct (in_bounds _ _ x y); [destruct (mask_get m x y)|]; simpl; auto.
Qed.

Lemma mask_put_get (m : RasterMask) (x y x' y' : Z) :
  mask_get (mask_put m x y) x' y' = true <->
  mask_get m x' y' = true
  \/ (in_bounds (mask_width m) (mask_height m) x' y' = true
      /\ (x', y') = (x, y)).
Proof.
  unfold mask_put.
  destruct (in_bounds (mask_width m) (mask_height m) x y) eqn:Hb.
  - destruct (mask_get m x y) eqn:Hg.
    + split; [auto|]. intros [H|[_ H]]; [exact H|].
      inversion H; subst; exact Hg.
    + rewrite !mask_get_In; simpl. rewrite in_app_iff; simpl. split.
      * intros [H|[H|[]]]; [auto|]. inversion H; subst. right; auto.
      * intros [H|[_ H]]; [auto|]. right; left; congruence.
  - split; [auto|]. intros [H|[H1 H2]]; [exact H|].
    inversion H2; subst. congruence.
Qed.

Lemma marks_get (i j : Z) (marks : list (Z * Z)) :
  forall (m : RasterMask) (x y : Z),
    mask_get (fold_left (SET_BORDER i j) marks m) x y = true <->
    mask_get m x y = true
    \/ (in_bounds (mask_width m) (mask_height m) x y = true
        /\ In (x - i, y - j) marks).
Proof.
  induction marks as [|[X Y] marks IH]; intros m x y; simpl.
  - tauto.
  - rewrite IH. unfold SET_BORDER at 1 2 3; simpl.
    destruct (mask_put_dims m (i + X) (j + Y)) as [-> ->].
    rewrite mask_put_get. split.
    + intros [[H|[Hb H]]|[Hb H]]; auto.
      inversion H; subst. right; split; [exact Hb|]. left. f_equal; lia.
    + intros [H|[Hb [H|H]]]; auto.
      inversion H; subst. left; right; split; [exact Hb|]. f_equal; lia.
Qed.

Lemma marks_dims (i j : Z) (marks : list (Z * Z)) :
  forall m : RasterMask,
    mask_width (fold_left (SET_BORDER i j) marks m) = mask_width m
    /\ mask_height (fold_left (SET_BORDER i j) marks m) = mask_height m.
Proof.
  induction marks as [|XY marks IH]; intros m; simpl; [auto|].
  destruct (IH (SET_BORDER i j m XY)) as [-> ->].
  apply mask_put_dims.
Qed.

Lemma small_type (type : CellType) :
  0 <= type <= 15 ->
  type = 0 \/ type = 1 \/ type = 2 \/ type = 3 \/ type = 4 \/ type = 5
  \/ type = 6 \/ type = 7 \/ type = 8 \/ type = 9 \/ type = 10
  \/ type = 11 \/ type = 12 \/ type = 13 \/ type = 14 \/ type = 15.
Proof. lia. Qed.

Ltac each_type H :=
  apply small_type in H;
  repeat (destruct H as [H|H]; [subst|]); [..|subst].

Lemma setBorder_marks_table (type : CellType) (v : Z * Z) :
  0 <= type <= 15 ->
  In v (setBorder_marks type) <-> In v (table_marks type).
Proof.
  intros H. each_type H; vm_compute; tauto.
Qed.

(** ** C1: the 1x1 raster *)

(** C1. For the 1x1 raster [[1]] with pixel origin [center] and straight
    segments joined, [find_contour] returns one ring, with the vertices
    (-0.5,-0.5), (0.5,-0.5), (0.5,0.5), (-0.5,0.5) in this order, and a border
    mask in which exactly the pixel (0,0) is set; this holds whatever the
    policy for ambiguous cells is. *)
Theorem C1_single_pixel (amb : Vertex -> CellType -> CellType) :
  exists c : Contour,
    find_contour (mkFindContour center true amb) raster_1x1 = Ok c
    /\ rings c = [pixel_center_square]
    /\ forall x y, mask_get (border c) x y = true <-> (x, y) = (0, 0).
Proof.
  eexists. split; [vm_compute; reflexivity|]. split; [reflexivity|].
  intros x y. rewrite mask_get_In. simpl. split.
  - intros [H|[]]. congruence.
  - intros H. left. congruence.
Qed.

(** ** C2: the border table for code 0010 *)

(** C2. In the sweep over the 1x1 raster [[1]] the border cell (-1,-1) has
    code 0b0010, and [addBorder] calls [addSegment] three times for it: the
    two segments u (1,2)->(1,1) and r (1,1)->(2,1), and after them the
    segment r (0,1)->(2,1) of the case 0b0011 (lattice offsets from
    (-2,-2)). *)
Theorem C2_b0010_runs_into_b0011 (cf : FindContour) :
  getFlags raster_1x1 (-1) (-1) = b0010
  /\ map (fun c => (call_direction c, call_start c, call_end c))
         (visit_calls cf raster_1x1 (ADD_BORDER (-1) (-1)))
     = [(Direction.u, (-2 + 1, -2 + 2), (-2 + 1, -2 + 1));
        (Direction.r, (-2 + 1, -2 + 1), (-2 + 2, -2 + 1));
        (Direction.r, (-2 + 0, -2 + 1), (-2 + 2, -2 + 1))].
Proof. split; reflexivity. Qed.

(** ** C3: what [setBorder] marks *)

(** C3 as stated fails: for the code 0b0111 of the cell (0,0) [setBorder]
    marks the pixel (0,0), the corner of the bit that is not set. *)
Lemma C3_counterexample :
  ~ (forall (m : RasterMask) (type : CellType) (i j x y : Z),
        0 <= type <= 15 ->
        mask_get (setBorder m type i j) x y = true <->
        mask_get m x y = true
        \/ (in_bounds (mask_width m) (mask_height m) x y = true
            /\ In (x - i, y - j) (stated_marks type))).
Proof.
  intros H.
  specialize (H (mkMask 2 2 []) b0111 0 0 0 0 ltac:(lia)).
  destruct H as [H _]. specialize (H eq_refl).
  destruct H as [H|[_ H]]; [discriminate|].
  vm_compute in H. intuition discriminate.
Qed.

(** C3, amended. [setBorder] called for a cell (i,j) with a code c in 0..15
    sets exactly the pixels of the mask that lie at the corners of the cell
    whose bit is set in c, except that all four corners are set for the two
    saddle codes and for the four codes with three bits set, and none for
    0b0000 and 0b1111; pixels set before stay set and corners outside the
    mask are skipped. *)
Theorem C3_setBorder_marks (m : RasterMask) (type : CellType)
        (i j x y : Z) :
  0 <= type <= 15 ->
  mask_get (setBorder m type i j) x y = true <->
  mask_get m x y = true
  \/ (in_bounds (mask_width m) (mask_height m) x y = true
      /\ In (x - i, y - j) (table_marks type)).
Proof.
  intros H. unfold setBorder. rewrite marks_get.
  rewrite (setBorder_marks_table type (x - i, y - j) H). tauto.
Qed.

Lemma C3_setBorder_marks_witness :
  mask_get (setBorder (mkMask 2 2 []) b0111 0 0) 0 0 = true <->
  mask_get (mkMask 2 2 []) 0 0 = true
  \/ (in_bounds 2 2 0 0 = true /\ In (0 - 0, 0 - 0) (table_marks b0111)).
Proof. apply (C3_setBorder_marks (mkMask 2 2 []) b0111 0 0 0 0); lia. Defined.

(** ** C9: the empty raster *)

Lemma get_empty (dat : Z -> Z -> bool) (x y : Z) :
  get (mkRaster 0 0 dat) x y = false.
Proof.
  unfold get, in_bounds; simpl.
  destruct (0 <=? x) eqn:H1, (x <? 0) eqn:H2; simpl; try reflexivity.
  apply Z.leb_le in H1. apply Z.ltb_lt in H2. lia.
Qed.

(** C9. For a raster of dimensions 0x0 [find_contour] returns normally, with
    no ring and with a border mask in which no pixel is set. *)
Theorem C9_empty_raster (cf : FindContour) (dat : Z -> Z -> bool) :
  find_contour cf (mkRaster 0 0 dat) = Ok (mkContour [] (mkMask 0 0 [])).
Proof.
  assert (Hflags : forall x y, getFlags (mkRaster 0 0 dat) x y = b0000).
  { intros x y. unfold getFlags. rewrite !get_empty. reflexivity. }
  unfold find_contour. cbn [width height].
  change (sweep 0 0) with [ADD_BORDER (-1) (-1); ADD_BORDER (-1) (-1)].
  cbn [run_sweep visit]. rewrite Hflags. reflexivity.
Qed.

(** ** Subsequences *)

Lemma Subsequence_refl {A : Type} (l : list A) : Subsequence l l.
Proof. induction l; constructor; assumption. Qed.

Lemma Subsequence_trans {A : Type} (l1 l2 l3 : list A) :
  Subsequence l1 l2 -> Subsequence l2 l3 -> Subsequence l1 l3.
Proof.
  intros H12 H23. revert l1 H12.
  induction H23 as [|x l2 l3 H IH|x l2 l3 H IH]; intros l1 H12.
  - exact H12.
  - constructor. apply IH. exact H12.
  - inversion H12; subst.
    + constructor. apply IH. assumption.
    + apply Subsequence_keep. apply IH. assumption.
Qed.

Lemma Subsequence_In {A : Type} (l1 l2 : list A) (x : A) :
  Subsequence l1 l2 -> In x l1 -> In x l2.
Proof.
  induction 1 as [|y l1 l2 H IH|y l1 l2 H IH]; simpl; intuition.
Qed.

Lemma map_nth_seq {A : Type} (l : list A) (d : A) :
  map (fun i => nth i l d) (seq 0 (length l)) = l.
Proof.
  induction l as [|a l IH]; simpl; [reflexivity|].
  f_equal. rewrite <- seq_shift, map_map. exact IH.
Qed.

Lemma seq_ends (n : nat) :
  (2 <= n)%nat -> seq 0 n = [0%nat] ++ seq 1 (n - 2) ++ [(n - 1)%nat].
Proof.
  intros H. replace n with (1 + (n - 2) + 1)%nat at 1 by lia.
  rewrite !seq_app. simpl. do 3 f_equal. lia.
Qed.

(** ** C10: the simplifier only removes vertices *)

Section SimplifyRemoves.

Variable double : Type.
Variable dlt : double -> double -> bool.
Variable dsub dmul : double -> double -> double.
Variable dabs : double -> double.
Variable dlit : Z -> double.
Variable infinity : double.
Variable isfinite : double -> bool.
Variable point_lt : P2 double -> P2 double -> bool.
Variable make_heap : (nat -> nat -> bool) -> list nat -> list nat.

Local Abbreviation xys := (map (node_xy double)).
Local Abbreviation remove_point' :=
  (remove_point double dsub dmul dabs isfinite).
Local Abbreviation simplify_loop' :=
  (simplify_loop double dlt dsub dmul dabs isfinite make_heap).
Local Abbreviation simplifyRing' :=
  (simplifyRing double dlt dsub dmul dabs dlit infinity isfinite point_lt
                make_heap).
Local Abbreviation simplify_rings' :=
  (simplify_rings double dlt dsub dmul dabs dlit infinity isfinite point_lt
                  make_heap).
Local Abbreviation simplify_contours' :=
  (simplify_contours double dlt dsub dmul dabs dlit infinity isfinite
                     point_lt make_heap).
Local Abbreviation simplify' :=
  (simplify double dlt dsub dmul dabs dlit infinity isfinite point_lt
            make_heap).

Lemma erase_xys (points : LinkedPoints double) (k : nat) :
  Subsequence (xys (erase double points k)) (xys points).
Proof.
  revert k. induction points as [|n points IH]; intros k; simpl.
  - constructor.
  - destruct k; simpl.
    + constructor. apply Subsequence_refl.
    + apply Subsequence_keep. apply IH.
Qed.

Lemma update_cost_xys (points : LinkedPoints double) (k : nat) (c : double) :
  xys (update_cost double points k c) = xys points.
Proof.
  revert k. induction points as [|n points IH]; intros k; simpl.
  - reflexivity.
  - destruct k; simpl; [reflexivity|]. f_equal. apply IH.
Qed.

Lemma xys_if (b : bool) (points : LinkedPoints double) (k : nat)
      (c : double) :
  xys (if b then update_cost double points k c else points) = xys points.
Proof. destruct b; [apply update_cost_xys | reflexivity]. Qed.

Lemma remove_point_xys (points points' : LinkedPoints double) (k : nat) :
  remove_point' points k = Ok points' ->
  Subsequence (xys points') (xys points).
Proof.
  unfold remove_point. intros H.
  pose proof (erase_xys points k) as He.
  destruct (erase double points k) as [|n0 rest] eqn:E; [discriminate|].
  match type of H with
  | Ok ?t = Ok _ =>
      assert (Hx : xys t = xys (n0 :: rest))
        by (cbv zeta; rewrite !xys_if; reflexivity);
      assert (Ht : points' = t) by congruence
  end.
  rewrite Ht, Hx. exact He.
Qed.

Lemma simplify_loop_xys (fuel : nat) (stop : double) :
  forall (heap : list nat) (points points' : LinkedPoints double),
    simplify_loop' fuel stop heap points = Ok points' ->
    Subsequence (xys points') (xys points).
Proof.
  induction fuel as [|fuel IH]; intros heap points points' H; simpl in H.
  - injection H as <-. apply Subsequence_refl.
  - destruct heap as [|h heap]; [injection H as <-; apply Subsequence_refl|].
    destruct (make_heap _ (h :: heap)) as [|point heap'];
      [injection H as <-; apply Subsequence_refl|].
    destruct (position double points point) as [k|]; [|discriminate].
    destruct (lookup double points point) as [n|]; [|discriminate].
    destruct (dlt stop (node_cost double n)).
    + injection H as <-. apply Subsequence_refl.
    + apply bind_Ok in H. destruct H as [points1 [H1 H2]].
      apply Subsequence_trans with (xys points1).
      * eapply IH; exact H2.
      * eapply remove_point_xys; exact H1.
Qed.

Lemma add_point_xy (lockedPoints : LockedPoints double) (i : nat)
      (prev p next : P2 double) :
  node_xy double
    (fst (add_point double dsub dmul dabs infinity point_lt
                    lockedPoints i prev p next)) = p.
Proof. unfold add_point. destruct (negb _); reflexivity. Qed.

Lemma work_area_xys (lockedPoints : LockedPoints double)
      (ring : list (P2 double)) (d : P2 double) :
  (2 <= length ring)%nat ->
  xys (map fst (work_area double dsub dmul dabs infinity point_lt
                          lockedPoints ring d)) = ring.
Proof.
  intros H. unfold work_area.
  rewrite !map_app, !map_map. simpl. rewrite !add_point_xy.
  rewrite (map_ext _ (fun i => nth i ring d))
    by (intros i; apply add_point_xy).
  etransitivity; [|apply (map_nth_seq ring d)].
  rewrite (seq_ends (length ring) H), !map_app. reflexivity.
Qed.

Lemma simplifyRing_subsequence (ring out : list (P2 double))
      (lockedPoints : LockedPoints double) (stop : double) :
  simplifyRing' ring lockedPoints stop = Ok out -> Subsequence out ring.
Proof.
  unfold simplifyRing. intros H.
  destruct (length ring <=? 4)%nat eqn:Hn.
  - injection H as <-. apply Subsequence_refl.
  - apply Nat.leb_gt in Hn.
    apply bind_Ok in H. destruct H as [points [H1 H2]].
    injection H2 as <-.
    apply simplify_loop_xys in H1.
    rewrite work_area_xys in H1 by lia. exact H1.
Qed.

Lemma simplify_rings_subsequence (lockedPoints : LockedPoints double) :
  forall rs out : list (list (P2 double)),
    simplify_rings' lockedPoints rs = Ok out ->
    Forall2 Subsequence out rs.
Proof.
  induction rs as [|ring rs IH]; intros out H; simpl in H.
  - injection H as <-. constructor.
  - apply bind_Ok in H. destruct H as [ring' [H1 H]].
    apply bind_Ok in H. destruct H as [rs' [H2 H]].
    injection H as <-. constructor.
    + eapply simplifyRing_subsequence; exact H1.
    + apply IH; exact H2.
Qed.

Lemma simplify_contours_subsequence (lockedPoints : LockedPoints double) :
  forall contours out : list (ContourOf (P2 double)),
    simplify_contours' lockedPoints contours = Ok out ->
    Forall2 (fun c' c => Forall2 Subsequence (rings c') (rings c)
                         /\ border c' = border c) out contours.
Proof.
  induction contours as [|c contours IH]; intros out H; simpl in H.
  - injection H as <-. constructor.
  - apply bind_Ok in H. destruct H as [c' [H1 H]].
    apply bind_Ok in H. destruct H as [cs' [H2 H]].
    injection H as <-. constructor; [|apply IH; exact H2].
    destruct (negb (nonempty double c)).
    + injection H1 as <-. split; [|reflexivity].
      clear. induction (rings c); constructor;
        [apply Subsequence_refl | assumption].
    + apply bind_Ok in H1. destruct H1 as [rs [H1 H3]].
      injection H3 as <-. simpl. split; [|reflexivity].
      eapply simplify_rings_subsequence; exact H1.
Qed.

(** C10. Whatever the input ring, the locked points and the stop threshold,
    a ring returned by [simplifyRing'] is a subsequence of the input ring:
    its vertices are vertices of the input with their coordinates, in the
    order of the input, and none is added.  Hence every ring of a contour
    returned by [simplify'] is a subsequence of the ring it was computed from,
    and the border masks are returned as they were. *)
Theorem C10_simplify_only_removes :
  (forall (ring out : list (P2 double)) (lockedPoints : LockedPoints double)
          (stop : double),
      simplifyRing' ring lockedPoints stop = Ok out -> Subsequence out ring)
  /\ (forall contours out : list (ContourOf (P2 double)),
         simplify' contours = Ok out ->
         Forall2 (fun c' c => Forall2 Subsequence (rings c') (rings c)
                              /\ border c' = border c) out contours).
Proof.
  split.
  - intros ring out lockedPoints stop. apply simplifyRing_subsequence.
  - intros contours out. apply simplify_contours_subsequence.
Qed.

End SimplifyRemoves.

Lemma C10_simplify_only_removes_witness :
  Exact.simplifyRing hexagon [] (Exact.dlit 10) = Ok hexagon_simplified
  /\ Subsequence hexagon_simplified hexagon.
Proof.
  split; [vm_compute; reflexivity|].
  apply (proj1 (C10_simplify_only_removes
                  Exact.double Exact.dlt Exact.dsub Exact.dmul Exact.dabs
                  Exact.dlit Exact.infinity Exact.isfinite Exact.point_lt
                  Exact.make_heap)
               hexagon hexagon_simplified [] (Exact.dlit 10)).
  vm_compute; reflexivity.
Defined.

(** ** C5: which points are locked *)

(** C5. The ring of [clover] passes three times through the point (0,0) and
    no other ring exists: the point occurs in one ring, and
    [findLockedPoints] counts three and locks it. *)
Theorem C5_locked_by_occurrences :
  rings_containing (same_key Exact.double Exact.point_lt) clover
                   (Exact.pt 0 0) = 1%nat
  /\ cardinality Exact.double Exact.point_lt clover
     = [(Exact.pt 0 0, 3); (Exact.pt 1 0, 1); (Exact.pt 0 1, 1)]
  /\ Exact.findLockedPoints clover = [Exact.pt 0 0].
Proof. repeat split; vm_compute; reflexivity. Qed.

(** ** The order of the heap *)

Section HeapOrder.

Variable double : Type.
Variable dlt : double -> double -> bool.

(** [a < b] excludes [b < a]. *)
Hypothesis dlt_asym : forall a b, dlt a b = true -> dlt b a = false.

(** The node at the root of a max-heap is not less than any other node of
    the heap.  For [compare] this means: no node has a smaller cost; of the
    nodes with the same cost none has a smaller x; and of the nodes with the
    same cost and the same x none has a larger y. *)
Lemma compare_nodes_root (top n : Node double) :
  compare_nodes double dlt top n = false ->
  dlt (node_cost double n) (node_cost double top) = false
  /\ (dlt (node_cost double top) (node_cost double n) = false ->
      dlt (fst (node_xy double n)) (fst (node_xy double top)) = false
      /\ (dlt (fst (node_xy double top)) (fst (node_xy double n)) = false ->
          dlt (snd (node_xy double top)) (snd (node_xy double n)) = false)).
Proof.
  unfold compare_nodes. intros H.
  destruct (dlt (node_cost double top) (node_cost double n)) eqn:E1.
  - split; [apply dlt_asym; exact E1 | discriminate].
  - destruct (dlt (node_cost double n) (node_cost double top)) eqn:E2;
      [discriminate|].
    split; [reflexivity|]. intros _.
    destruct (dlt (fst (node_xy double top)) (fst (node_xy double n)))
      eqn:E3.
    + split; [apply dlt_asym; exact E3 | discriminate].
    + destruct (dlt (fst (node_xy double n)) (fst (node_xy double top)))
        eqn:E4; [discriminate|].
      split; [reflexivity|]. intros _. exact H.
Qed.

End HeapOrder.

(** ** C6: the order of removal *)

(** C6. In the hexagon the vertices (0,3) and (0,6) have the least cost, 9,
    and the same x.  Every other node of the work area is less than the node
    of (0,6) under [compare], so (0,6), the one with the larger y, is at the
    root of the heap (see [compare_nodes_root]) and is removed first; the
    cost of (0,3) then is 27, above the threshold 20, and (0,3) stays in the
    result. *)
Theorem C6_larger_y_first :
  Forall (fun n =>
            n = mkNode Exact.double 2 (Exact.pt 0 6) (Exact.dlit 9)
            \/ compare_nodes Exact.double Exact.dlt n
                 (mkNode Exact.double 2 (Exact.pt 0 6) (Exact.dlit 9)) = true)
         hexagon_points
  /\ In (mkNode Exact.double 1 (Exact.pt 0 3) (Exact.dlit 9)) hexagon_points
  /\ Exact.simplifyRing hexagon [] (Exact.dlit 10) = Ok hexagon_simplified.
Proof.
  split; [|split].
  - unfold hexagon_points.
    repeat (constructor; [first [left; reflexivity | right; reflexivity]|]).
    constructor.
  - vm_compute. tauto.
  - vm_compute. reflexivity.
Qed.

(** ** Running lists of calls *)

Lemma run_calls_app (cf : FindContour) (cs1 cs2 : list Call) :
  forall b : Builder,
    run_calls cf b (cs1 ++ cs2)
    = (b' <- run_calls cf b cs1 ;; run_calls cf b' cs2).
Proof.
  induction cs1 as [|c cs1 IH]; intros b; simpl; [reflexivity|].
  destruct (run_call cf b c) as [b1|f]; simpl; [apply IH | reflexivity].
Qed.

Lemma run_sweep_calls (cf : FindContour) (raster : Raster)
      (vs : list Visit) :
  forall cb : Builder,
    run_sweep cf raster cb vs
    = run_calls cf cb (flat_map (visit_calls cf raster) vs).
Proof.
  induction vs as [|v vs IH]; intros cb; simpl; [reflexivity|].
  rewrite run_calls_app.
  replace (visit cf raster cb v)
    with (run_calls cf cb (visit_calls cf raster v))
    by (destruct v; reflexivity).
  destruct (run_calls cf cb (visit_calls cf raster v)) as [cb1|f]; simpl;
    [apply IH | reflexivity].
Qed.

Lemma find_contour_calls (cf : FindContour) (raster : Raster) (c : Contour) :
  find_contour cf raster = Ok c <->
  exists cb,
    run_calls cf (Builder_init (width raster) (height raster))
              (sweep_calls cf raster) = Ok cb
    /\ contour cb = c.
Proof.
  unfold find_contour, sweep_calls. rewrite run_sweep_calls. split.
  - intros H. apply bind_Ok in H. destruct H as [cb [H1 H2]].
    exists cb. split; [exact H1 | congruence].
  - intros [cb [H1 H2]]. rewrite H1. simpl. congruence.
Qed.

(** ** The border mask after a run *)

Lemma addSegment_border (cf : FindContour) (b b' : Builder)
      (type : CellType) (dir : Direction.t) (i j : Z) (st en : Vertex) :
  addSegment cf b type dir i j st en = Ok b' ->
  border (contour b') = setBorder (border (contour b)) type i j.
Proof.
  unfold addSegment, extract, with_segments.
  destruct (insert _ _) as [m s]. cbn [segments contour rings border].
  destruct (link m s _ _) as [[m2 pl] nl].
  intros H.
  repeat match type of H with
         | Ok _ = Ok _ => injection H as <-; reflexivity
         | Fail _ = Ok _ => discriminate
         | bind ?x _ = Ok _ =>
             let E := fresh "E" in
             destruct x eqn:E; cbn [bind] in H
         | context [match ?x with _ => _ end] =>
             let E := fresh "E" in destruct x eqn:E
         end.
Qed.

Lemma run_calls_border (cf : FindContour) (cs : list Call) :
  forall (b b' : Builder) (x y : Z),
    run_calls cf b cs = Ok b' ->
    (mask_width (border (contour b')) = mask_width (border (contour b))
     /\ mask_height (border (contour b')) = mask_height (border (contour b)))
    /\ (mask_get (border (contour b')) x y = true <->
        mask_get (border (contour b)) x y = true
        \/ (in_bounds (mask_width (border (contour b)))
                      (mask_height (border (contour b))) x y = true
            /\ exists c, In c cs
                         /\ In (x - call_i c, y - call_j c)
                               (setBorder_marks (call_type c)))).
Proof.
  induction cs as [|c cs IH]; intros b b' x y H; simpl in H.
  - injection H as <-. split; [auto|]. split; [auto|].
    intros [H|[_ [c [[] _]]]]. exact H.
  - apply bind_Ok in H. destruct H as [b1 [H1 H2]].
    apply addSegment_border in H1.
    destruct (IH b1 b' x y H2) as [[Hw Hh] Hg].
    unfold setBorder in H1.
    destruct (marks_dims (call_i c) (call_j c)
                (setBorder_marks (call_type c)) (border (contour b)))
      as [Hw1 Hh1].
    rewrite <- H1 in Hw1, Hh1.
    split; [split; congruence|].
    rewrite Hg, Hw1, Hh1, H1, marks_get. split.
    + intros [[H|[Hb H]]|[Hb [c' [Hin H]]]]; auto.
      * right. split; [exact Hb|]. exists c. simpl; auto.
      * right. split; [exact Hb|]. exists c'. simpl; auto.
    + intros [H|[Hb [c' [[->|Hin] H]]]]; auto.
      right. split; [exact Hb|]. exists c'. auto.
Qed.

(** ** Cell codes *)

Lemma getFlags_code (raster : Raster) (x y : Z) :
  getFlags raster x y
  = code_of (get raster x (y + 1)) (get raster (x + 1) (y + 1))
            (get raster (x + 1) y) (get raster x y).
Proof.
  unfold getFlags.
  destruct (get raster x (y + 1)), (get raster (x + 1) (y + 1)),
    (get raster (x + 1) y), (get raster x y); reflexivity.
Qed.

Lemma is_saddle_cases (t : CellType) :
  is_saddle t = true -> t = b0101 \/ t = b1010.
Proof.
  unfold is_saddle. rewrite orb_true_iff, !Z.eqb_eq. tauto.
Qed.

(** The switch over the two saddle types as a chain of tests. *)
Lemma switch_saddle {A : Type} (t : CellType) (a b c : A) :
  match t with
  | b0101 => a
  | b1010 => b
  | _ => c
  end = if t =? b0101 then a else if t =? b1010 then b else c.
Proof.
  destruct t as [|p|p]; try reflexivity.
  do 4 (try destruct p as [p|p|]; try reflexivity).
Qed.

Lemma addAmbiguous_calls_eq (cf : FindContour) (otype : CellType) (i j : Z) :
  addAmbiguous_calls cf otype i j =
  let type := ambiguousType cf (i * 2, j * 2) otype in
  if type =? otype then
    if type =? b0101 then [ADD_SEGMENT type i j Direction.lu 0 1 1 0;
                           ADD_SEGMENT type i j Direction.rd 2 1 1 2]
    else if type =? b1010 then [ADD_SEGMENT type i j Direction.ld 1 0 2 1;
                                ADD_SEGMENT type i j Direction.ru 1 2 0 1]
    else []
  else
    if type =? b0101 then [ADD_SEGMENT type i j Direction.ld 1 0 0 1;
                           ADD_SEGMENT type i j Direction.ru 1 2 2 1]
    else if type =? b1010 then [ADD_SEGMENT type i j Direction.lu 2 1 1 0;
                                ADD_SEGMENT type i j Direction.rd 0 1 1 2]
    else [].
Proof.
  unfold addAmbiguous_calls. cbv zeta.
  rewrite <- !switch_saddle. reflexivity.
Qed.

(** Every call made for a cell carries the cell, and the type it carries is
    the cell code, or the answer of the policy when that answer is a saddle
    code. *)
Lemma visit_calls_tag (cf : FindContour) (raster : Raster) (v : Visit)
      (c : Call) :
  In c (visit_calls cf raster v) ->
  let code := getFlags raster (fst (visit_cell v)) (snd (visit_cell v)) in
  call_i c = fst (visit_cell v) /\ call_j c = snd (visit_cell v)
  /\ code <> b0000 /\ code <> b1111
  /\ (call_type c = code
      \/ (is_saddle code = true /\ is_saddle (call_type c) = true)).
Proof.
  cbv zeta. destruct v as [x y|x y]; cbn [visit_calls visit_cell fst snd];
    rewrite getFlags_code;
    destruct (get raster x (y + 1)), (get raster (x + 1) (y + 1)),
      (get raster (x + 1) y), (get raster x y);
    cbn [code_of Z.b2z Z.add Z.mul Pos.add Pos.mul Pos.succ
         add_calls addBorder_calls];
    try rewrite addAmbiguous_calls_eq; cbv zeta;
    repeat match goal with
           | |- context [if ?b then _ else _] =>
               let E := fresh "E" in destruct b eqn:E
           end;
    try apply Z.eqb_eq in E0; try apply Z.eqb_eq in E;
    cbn [In ADD_SEGMENT call_i call_j call_type];
    intros H;
    repeat (destruct H as [H|H]; [subst c|]); try contradiction;
    cbn [call_i call_j call_type];
    (repeat split; try discriminate; try reflexivity;
     try (left; reflexivity);
     try (right; split; [reflexivity|]; try rewrite E0; try rewrite E;
          reflexivity)).
Qed.

Lemma visit_calls_exist (cf : FindContour) (raster : Raster) (v : Visit) :
  answers_saddles cf ->
  getFlags raster (fst (visit_cell v)) (snd (visit_cell v)) <> b0000 ->
  getFlags raster (fst (visit_cell v)) (snd (visit_cell v)) <> b1111 ->
  exists c, In c (visit_calls cf raster v).
Proof.
  intros Hs.
  destruct v as [x y|x y]; cbn [visit_calls visit_cell fst snd];
    rewrite getFlags_code;
    destruct (get raster x (y + 1)), (get raster (x + 1) (y + 1)),
      (get raster (x + 1) y), (get raster x y);
    cbn [code_of Z.b2z Z.add Z.mul Pos.add Pos.mul Pos.succ
         add_calls addBorder_calls];
    intros H0 H15; try congruence;
    try (eexists; left; reflexivity).
  - rewrite addAmbiguous_calls_eq; cbv zeta.
    destruct (is_saddle_cases _ (Hs (x * 2, y * 2) b0101 eq_refl)) as [E|E];
      rewrite E; cbn [Z.eqb Pos.eqb]; eexists; left; reflexivity.
  - rewrite addAmbiguous_calls_eq; cbv zeta.
    destruct (is_saddle_cases _ (Hs (x * 2, y * 2) b1010 eq_refl)) as [E|E];
      rewrite E; cbn [Z.eqb Pos.eqb]; eexists; left; reflexivity.
Qed.

Lemma code_of_range (b0 b1 b2 b3 : bool) : 0 <= code_of b0 b1 b2 b3 <= 15.
Proof. destruct b0, b1, b2, b3; vm_compute; split; discriminate. Qed.

Lemma marks_of_call_type (code type : CellType) (off : Z * Z) :
  0 <= code <= 15 ->
  type = code \/ (is_saddle code = true /\ is_saddle type = true) ->
  In off (setBorder_marks type) <-> In off (table_marks code).
Proof.
  intros Hr [->|[Hc Ht]].
  - apply setBorder_marks_table. exact Hr.
  - apply is_saddle_cases in Hc. apply is_saddle_cases in Ht.
    destruct Hc as [-> | ->], Ht as [-> | ->]; vm_compute; tauto.
Qed.

(** ** C4: the pixels of the border mask *)

(** C4 as stated fails: in the 2x1 raster [[1,0]] the pixel (1,0) is a corner
    of the visited cell (0,-1), whose code is 0b0001, and it is not marked. *)
Lemma C4_counterexample :
  ~ (forall (cf : FindContour) (raster : Raster) (c : Contour),
        find_contour cf raster = Ok c ->
        forall x y,
          mask_get (border c) x y = true <->
          at_corner_of_visited (fun _ => all_corners) raster x y).
Proof.
  intros H.
  assert (E : find_contour (mkFindContour center true keep_type) raster_2x1
              = Ok (mkContour [pixel_center_square] (mkMask 2 1 [(0, 0)])))
    by (vm_compute; reflexivity).
  specialize (H _ _ _ E 1 0). destruct H as [_ H].
  assert (F : mask_get (mkMask 2 1 [(0, 0)]) 1 0 = false) by reflexivity.
  cbn [border] in H. rewrite H in F; [discriminate|].
  split; [reflexivity|].
  exists (ADD_BORDER 0 (-1)). split; [vm_compute; tauto|].
  split; [vm_compute; discriminate|].
  split; [vm_compute; discriminate|].
  vm_compute. tauto.
Qed.

(** C4, amended. For every raster, and every policy that answers a saddle
    code with a saddle code, the pixels marked in the border mask of the
    contour [find_contour] returns are exactly the pixels of the raster that
    lie, for at least one visited cell whose code is neither 0b0000 nor
    0b1111, at a corner of that cell which [setBorder] marks for the code: the
    corners whose bit is set, and all four corners for the saddle codes and
    the codes with three bits set. *)
Theorem C4_border_mask (cf : FindContour) (raster : Raster) (c : Contour) :
  answers_saddles cf ->
  find_contour cf raster = Ok c ->
  forall x y,
    mask_get (border c) x y = true <->
    at_corner_of_visited table_marks raster x y.
Proof.
  intros Hs H x y.
  apply find_contour_calls in H. destruct H as [cb [H <-]].
  destruct (run_calls_border cf _ _ _ x y H) as [_ Hg].
  rewrite Hg. cbn [Builder_init contour border mask_width mask_height].
  unfold at_corner_of_visited, sweep_calls. split.
  - intros [Hf|[Hb [k [Hin Hm]]]]; [discriminate|].
    split; [exact Hb|].
    apply in_flat_map in Hin. destruct Hin as [v [Hv Hk]].
    exists v. split; [exact Hv|].
    destruct (visit_calls_tag cf raster v k Hk) as [Hi [Hj [H0 [H15 Ht]]]].
    split; [exact H0|]. split; [exact H15|].
    rewrite Hi, Hj in Hm.
    refine (proj1 (marks_of_call_type _ _ _ _ Ht) Hm).
    rewrite getFlags_code. apply code_of_range.
  - intros [Hb [v [Hv [H0 [H15 Hm]]]]]. right. split; [exact Hb|].
    destruct (visit_calls_exist cf raster v Hs H0 H15) as [k Hk].
    exists k. split; [apply in_flat_map; exists v; auto|].
    destruct (visit_calls_tag cf raster v k Hk) as [Hi [Hj [_ [_ Ht]]]].
    rewrite Hi, Hj.
    refine (proj2 (marks_of_call_type _ _ _ _ Ht) Hm).
    rewrite getFlags_code. apply code_of_range.
Qed.

Lemma keep_type_answers_saddles (origin : PixelOrigin) (join : bool) :
  answers_saddles (mkFindContour origin join keep_type).
Proof. intros v t H. exact H. Qed.

Lemma C4_border_mask_witness :
  mask_get (mkMask 2 2 [(0, 0); (1, 0); (0, 1); (1, 1)]) 1 0 = true <->
  at_corner_of_visited table_marks raster_saddle 1 0.
Proof.
  apply (C4_border_mask (mkFindContour center true keep_type) raster_saddle
           (mkContour
              [[(-1 # 2, -1 # 2); (1 # 2, -1 # 2); (1 # 2, 0); (1, 1 # 2);
                (3 # 2, 1 # 2); (3 # 2, 3 # 2); (1 # 2, 3 # 2); (1 # 2, 1);
                (0, 1 # 2); (-1 # 2, 1 # 2)]%Q]
              (mkMask 2 2 [(0, 0); (1, 0); (0, 1); (1, 1)]))).
  - apply keep_type_answers_saddles.
  - vm_compute. reflexivity.
Defined.

(** ** The segment store: look-ups and updates *)

Lemma SegPtr_eqb_eq (a b : SegPtr) : SegPtr_eqb a b = true <-> a = b.
Proof.
  destruct a as [x|], b as [y|]; simpl; try (split; congruence).
  rewrite Nat.eqb_eq. split; congruence.
Qed.

Lemma SegPtr_eqb_neq (a b : SegPtr) : SegPtr_eqb a b = false <-> a <> b.
Proof.
  rewrite <- SegPtr_eqb_eq. destruct (SegPtr_eqb a b); split; congruence.
Qed.

Lemma update_length (m : SegmentMap) (k : nat) (f : Segment -> Segment) :
  length (update m k f) = length m.
Proof.
  revert k. induction m as [|x m IH]; intros [|k]; simpl; auto.
Qed.

Lemma update_nth (m : SegmentMap) (k k' : nat) (f : Segment -> Segment) :
  nth_error (update m k f) k'
  = if Nat.eqb k k' then option_map f (nth_error m k') else nth_error m k'.
Proof.
  revert k k'. induction m as [|x m IH]; intros [|k] [|k']; simpl; auto;
    destruct (Nat.eqb _ _); reflexivity.
Qed.

Lemma find_from_Some (p : Segment -> bool) (m : SegmentMap) :
  forall k0 k, find_from p m k0 = Some k ->
    (k0 <= k)%nat
    /\ exists x, nth_error m (k - k0) = Some x /\ p x = true.
Proof.
  induction m as [|x m IH]; intros k0 k H; simpl in H; [discriminate|].
  destruct (p x) eqn:E.
  - injection H as <-. split; [lia|]. rewrite Nat.sub_diag.
    exists x. split; [reflexivity | exact E].
  - apply IH in H. destruct H as [Hk [y [Hy Hp]]].
    split; [lia|]. exists y. split; [|exact Hp].
    replace (k - k0)%nat with (S (k - S k0)) by lia. exact Hy.
Qed.

Lemma find_from_None (p : Segment -> bool) (m : SegmentMap) :
  forall k0, find_from p m k0 = None ->
    forall k x, nth_error m k = Some x -> p x = false.
Proof.
  induction m as [|y m IH]; intros k0 H k x Hx; simpl in H.
  - destruct k; discriminate.
  - destruct (p y) eqn:E; [discriminate|].
    destruct k as [|k]; simpl in Hx.
    + congruence.
    + eapply IH; eauto.
Qed.

Lemma findByStart_Some (m : SegmentMap) (v : Vertex) (k : nat) :
  findByStart m v = Some k ->
  exists x, nth_error m k = Some x /\ seg_start x = v.
Proof.
  intros H. apply find_from_Some in H. destruct H as [_ [x [Hx Hp]]].
  rewrite Nat.sub_0_r in Hx. apply Vertex_eqb_eq in Hp. eauto.
Qed.

Lemma findByStart_None (m : SegmentMap) (v : Vertex) :
  findByStart m v = None ->
  forall k x, nth_error m k = Some x -> seg_start x <> v.
Proof.
  intros H k x Hx. apply Vertex_eqb_neq.
  exact (find_from_None _ m 0%nat H k x Hx).
Qed.

Lemma findByEnd_Some (m : SegmentMap) (v : Vertex) (k : nat) :
  findByEnd m v = Some k ->
  exists x, nth_error m k = Some x /\ seg_end x = v.
Proof.
  intros H. apply find_from_Some in H. destruct H as [_ [x [Hx Hp]]].
  rewrite Nat.sub_0_r in Hx. apply Vertex_eqb_eq in Hp. eauto.
Qed.

Lemma findByEnd_None (m : SegmentMap) (v : Vertex) :
  findByEnd m v = None ->
  forall k x, nth_error m k = Some x -> seg_end x <> v.
Proof.
  intros H k x Hx. apply Vertex_eqb_neq.
  exact (find_from_None _ m 0%nat H k x Hx).
Qed.

Lemma nth_error_snoc (m : SegmentMap) (x : Segment) (k : nat) :
  nth_error (m ++ [x]) k
  = if (k <? length m)%nat then nth_error m k
    else if Nat.eqb k (length m) then Some x else None.
Proof.
  destruct (k <? length m)%nat eqn:E.
  - apply Nat.ltb_lt in E. apply nth_error_app1. exact E.
  - apply Nat.ltb_ge in E. rewrite nth_error_app2 by exact E.
    destruct (Nat.eqb k (length m)) eqn:E2.
    + apply Nat.eqb_eq in E2. subst. rewrite Nat.sub_diag. reflexivity.
    + apply Nat.eqb_neq in E2.
      destruct (k - length m)%nat as [|d] eqn:E3; [lia|].
      simpl. destruct d; reflexivity.
Qed.

Lemma link_nth (m : SegmentMap) (s : nat) (prev next : SegPtr) (k : nat) :
  nth_error (fst (fst (link m s prev next))) k
  = option_map (relink prev next s k) (nth_error m k).
Proof.
  unfold link, relink.
  destruct prev as [p|], next as [n|]; cbn [fst SegPtr_eqb];
    rewrite ?update_nth;
    repeat match goal with
           | |- context [Nat.eqb ?a ?b] => destruct (Nat.eqb a b)
           end;
    destruct (nth_error m k); reflexivity.
Qed.

Lemma link_length (m : SegmentMap) (s : nat) (prev next : SegPtr) :
  length (fst (fst (link m s prev next))) = length m.
Proof.
  unfold link. destruct prev, next; cbn [fst]; rewrite ?update_length;
    reflexivity.
Qed.

(** ** The linking invariant is kept by an insertion at two new ends *)

Lemma relink_fields (prev next : SegPtr) (s k : nat) (x : Segment) :
  seg_start (relink prev next s k x) = seg_start x
  /\ seg_end (relink prev next s k x) = seg_end x
  /\ seg_next (relink prev next s k x)
     = (if SegPtr_eqb prev (Some k) then Some s else seg_next x)
  /\ seg_prev (relink prev next s k x)
     = (if SegPtr_eqb next (Some k) then Some s else seg_prev x).
Proof.
  unfold relink.
  destruct (SegPtr_eqb prev (Some k)), (SegPtr_eqb next (Some k));
    simpl; auto.
Qed.

Section FreshInsertion.

Variable m : SegmentMap.
Variable x : Segment.
Variable m2 : SegmentMap.

Hypothesis m_ok : store_ok m.

Hypothesis prev_found :
  forall pk, seg_prev x = Some pk ->
    exists P, nth_error m pk = Some P /\ seg_end P = seg_start x.
Hypothesis next_found :
  forall nk, seg_next x = Some nk ->
    exists N, nth_error m nk = Some N /\ seg_start N = seg_end x.
Hypothesis new_start :
  forall k S, nth_error m k = Some S -> seg_start S <> seg_start x.
Hypothesis new_end :
  forall k S, nth_error m k = Some S -> seg_end S <> seg_end x.

Hypothesis m2_nth :
  forall k,
    nth_error m2 k
    = if (k <? length m)%nat
      then option_map (relink (seg_prev x) (seg_next x) (length m) k)
                      (nth_error m k)
      else if Nat.eqb k (length m) then Some x else None.

Lemma m2_cases (k : nat) (S2 : Segment) :
  nth_error m2 k = Some S2 ->
  (k = length m /\ S2 = x)
  \/ ((k < length m)%nat
      /\ exists S, nth_error m k = Some S
                   /\ S2 = relink (seg_prev x) (seg_next x) (length m) k S).
Proof.
  rewrite m2_nth. destruct (k <? length m)%nat eqn:E.
  - apply Nat.ltb_lt in E. destruct (nth_error m k) as [S|]; simpl;
      [|discriminate].
    intros H. injection H as <-. right. eauto.
  - destruct (Nat.eqb k (length m)) eqn:E2; [|discriminate].
    apply Nat.eqb_eq in E2. intros H. injection H as <-. auto.
Qed.

Lemma m2_old (k : nat) (S : Segment) :
  nth_error m k = Some S ->
  nth_error m2 k
  = Some (relink (seg_prev x) (seg_next x) (length m) k S).
Proof.
  intros H. rewrite m2_nth.
  assert (Hk : (k < length m)%nat)
    by (apply nth_error_Some; congruence).
  apply Nat.ltb_lt in Hk. rewrite Hk, H. reflexivity.
Qed.

Lemma m2_new : nth_error m2 (length m) = Some x.
Proof.
  rewrite m2_nth, Nat.ltb_irrefl, Nat.eqb_refl. reflexivity.
Qed.

Lemma old_index (k : nat) (S : Segment) :
  nth_error m k = Some S -> (k < length m)%nat.
Proof. intros H. apply nth_error_Some. congruence. Qed.

Lemma fresh_unique_starts : unique_starts m2.
Proof.
  intros a b A B HA HB E.
  apply m2_cases in HA. apply m2_cases in HB.
  destruct HA as [[-> ->]|[Ha [A0 [HA ->]]]],
           HB as [[-> ->]|[Hb [B0 [HB ->]]]]; [reflexivity|..].
  - destruct (relink_fields (seg_prev x) (seg_next x) (length m) b B0)
      as [Es _].
    rewrite Es in E. symmetry in E. elim (new_start _ _ HB E).
  - destruct (relink_fields (seg_prev x) (seg_next x) (length m) a A0)
      as [Es _].
    rewrite Es in E. elim (new_start _ _ HA E).
  - destruct (relink_fields (seg_prev x) (seg_next x) (length m) a A0)
      as [Ea _].
    destruct (relink_fields (seg_prev x) (seg_next x) (length m) b B0)
      as [Eb _].
    rewrite Ea, Eb in E. exact (ok_starts m m_ok a b A0 B0 HA HB E).
Qed.

Lemma fresh_unique_ends : unique_ends m2.
Proof.
  intros a b A B HA HB E.
  apply m2_cases in HA. apply m2_cases in HB.
  destruct HA as [[-> ->]|[Ha [A0 [HA ->]]]],
           HB as [[-> ->]|[Hb [B0 [HB ->]]]]; [reflexivity|..].
  - destruct (relink_fields (seg_prev x) (seg_next x) (length m) b B0)
      as [_ [Ee _]].
    rewrite Ee in E. symmetry in E. elim (new_end _ _ HB E).
  - destruct (relink_fields (seg_prev x) (seg_next x) (length m) a A0)
      as [_ [Ee _]].
    rewrite Ee in E. elim (new_end _ _ HA E).
  - destruct (relink_fields (seg_prev x) (seg_next x) (length m) a A0)
      as [_ [Ea _]].
    destruct (relink_fields (seg_prev x) (seg_next x) (length m) b B0)
      as [_ [Eb _]].
    rewrite Ea, Eb in E. exact (ok_ends m m_ok a b A0 B0 HA HB E).
Qed.

Lemma fresh_links : links_consistent m2.
Proof.
  intros a b A HA Hnext.
  apply m2_cases in HA.
  destruct HA as [[-> ->]|[Ha [A0 [HA ->]]]].
  - (* the new segment and its next *)
    destruct (next_found b Hnext) as [N [HN EN]].
    exists (relink (seg_prev x) (seg_next x) (length m) b N).
    split; [apply m2_old; exact HN|].
    destruct (relink_fields (seg_prev x) (seg_next x) (length m) b N)
      as [Es [_ [_ Ep]]].
    rewrite Ep, Es, Hnext. cbn [SegPtr_eqb]. rewrite Nat.eqb_refl. auto.
  - destruct (relink_fields (seg_prev x) (seg_next x) (length m) a A0)
      as [_ [Ee [En _]]].
    rewrite En in Hnext. rewrite Ee.
    destruct (SegPtr_eqb (seg_prev x) (Some a)) eqn:Ep.
    + (* the segment before the new one *)
      apply SegPtr_eqb_eq in Ep. injection Hnext as <-.
      exists x. split; [apply m2_new|]. split; [exact Ep|].
      destruct (prev_found a Ep) as [P [HP EP]]. congruence.
    + (* an old link *)
      destruct (ok_next m m_ok a b A0 HA Hnext) as [B [HB [Hprev Eab]]].
      exists (relink (seg_prev x) (seg_next x) (length m) b B).
      split; [apply m2_old; exact HB|].
      destruct (relink_fields (seg_prev x) (seg_next x) (length m) b B)
        as [Es [_ [_ Epv]]].
      rewrite Epv, Es. split; [|exact Eab].
      destruct (SegPtr_eqb (seg_next x) (Some b)) eqn:Enx; [|exact Hprev].
      apply SegPtr_eqb_eq in Enx.
      destruct (next_found b Enx) as [N [HN EN]].
      assert (N = B) by congruence. subst N.
      elim (new_end a A0 HA). congruence.
Qed.

Lemma fresh_back_links : back_links_consistent m2.
Proof.
  intros a b B HB Hprev.
  apply m2_cases in HB.
  destruct HB as [[-> ->]|[Hb [B0 [HB ->]]]].
  - (* the new segment and its prev *)
    destruct (prev_found a Hprev) as [P [HP EP]].
    exists (relink (seg_prev x) (seg_next x) (length m) a P).
    split; [apply m2_old; exact HP|].
    destruct (relink_fields (seg_prev x) (seg_next x) (length m) a P)
      as [_ [Ee [En _]]].
    rewrite En, Ee, Hprev. cbn [SegPtr_eqb]. rewrite Nat.eqb_refl. auto.
  - destruct (relink_fields (seg_prev x) (seg_next x) (length m) b B0)
      as [Es [_ [_ Epv]]].
    rewrite Epv in Hprev. rewrite Es.
    destruct (SegPtr_eqb (seg_next x) (Some b)) eqn:En.
    + (* the segment after the new one *)
      apply SegPtr_eqb_eq in En. injection Hprev as <-.
      exists x. split; [apply m2_new|]. split; [exact En|].
      destruct (next_found b En) as [N [HN EN]]. congruence.
    + (* an old link *)
      destruct (ok_prev m m_ok a b B0 HB Hprev) as [A [HA [Hnext Eab]]].
      exists (relink (seg_prev x) (seg_next x) (length m) a A).
      split; [apply m2_old; exact HA|].
      destruct (relink_fields (seg_prev x) (seg_next x) (length m) a A)
        as [_ [Ee [Enx _]]].
      rewrite Enx, Ee. split; [|exact Eab].
      destruct (SegPtr_eqb (seg_prev x) (Some a)) eqn:Epx; [|exact Hnext].
      apply SegPtr_eqb_eq in Epx.
      destruct (prev_found a Epx) as [P [HP EP]].
      assert (P = A) by congruence. subst P.
      elim (new_start b B0 HB). congruence.
Qed.

Lemma fresh_store_ok : store_ok m2.
Proof.
  constructor;
    [apply fresh_unique_starts | apply fresh_unique_ends
     | apply fresh_links | apply fresh_back_links].
Qed.

End FreshInsertion.

(** ** The shape of the store *)

Lemma shape_nth (m : SegmentMap) (k : nat) :
  nth_error (shape m) k
  = option_map (fun s => set_ringLeader s None) (nth_error m k).
Proof. unfold shape. apply nth_error_map. Qed.

Lemma shape_fields (m m' : SegmentMap) (k : nat) (x' : Segment) :
  shape m' = shape m ->
  nth_error m' k = Some x' ->
  exists x, nth_error m k = Some x
            /\ seg_start x = seg_start x' /\ seg_end x = seg_end x'
            /\ seg_prev x = seg_prev x' /\ seg_next x = seg_next x'
            /\ seg_type x = seg_type x'
            /\ seg_direction x = seg_direction x'.
Proof.
  intros Hs Hx.
  assert (H : nth_error (shape m') k = nth_error (shape m) k)
    by (rewrite Hs; reflexivity).
  rewrite !shape_nth, Hx in H. simpl in H.
  destruct (nth_error m k) as [x|]; [|discriminate].
  exists x. split; [reflexivity|].
  destruct x, x'; unfold set_ringLeader in H; simpl in *.
  inversion H; subst. auto 10.
Qed.

Lemma shape_length (m m' : SegmentMap) :
  shape m' = shape m -> length m' = length m.
Proof.
  intros H. apply (f_equal (@length _)) in H.
  unfold shape in H. rewrite !length_map in H. exact H.
Qed.

Lemma store_ok_shape (m m' : SegmentMap) :
  shape m' = shape m -> store_ok m -> store_ok m'.
Proof.
  intros Hs [Hst Hen Hnx Hpv].
  assert (Hs' : shape m = shape m') by (symmetry; exact Hs).
  constructor.
  - intros a b A B HA HB E.
    destruct (shape_fields m m' a A Hs HA) as [A0 [HA0 [Ea _]]].
    destruct (shape_fields m m' b B Hs HB) as [B0 [HB0 [Eb _]]].
    apply (Hst a b A0 B0 HA0 HB0). congruence.
  - intros a b A B HA HB E.
    destruct (shape_fields m m' a A Hs HA) as [A0 [HA0 [_ [Ea _]]]].
    destruct (shape_fields m m' b B Hs HB) as [B0 [HB0 [_ [Eb _]]]].
    apply (Hen a b A0 B0 HA0 HB0). congruence.
  - intros a b A HA Hn.
    destruct (shape_fields m m' a A Hs HA)
      as [A0 [HA0 [_ [Ea [_ [En _]]]]]].
    destruct (Hnx a b A0 HA0 ltac:(congruence)) as [B0 [HB0 [Hp E]]].
    destruct (shape_fields m' m b B0 Hs' HB0)
      as [B [HB [Eb [_ [Ep _]]]]].
    exists B. split; [exact HB|]. split; congruence.
  - intros a b B HB Hp.
    destruct (shape_fields m m' b B Hs HB)
      as [B0 [HB0 [Eb [_ [Ep _]]]]].
    destruct (Hpv a b B0 HB0 ltac:(congruence)) as [A0 [HA0 [Hn E]]].
    destruct (shape_fields m' m a A0 Hs' HA0)
      as [A [HA [_ [Ea [_ [En _]]]]]].
    exists A. split; [exact HA|]. split; congruence.
Qed.

Lemma shape_update_ringLeader (m : SegmentMap) (k : nat) (rl : SegPtr) :
  shape (update m k (fun x => set_ringLeader x rl)) = shape m.
Proof.
  revert k. induction m as [|x m IH]; intros [|k]; simpl; try reflexivity.
  - f_equal. apply IH.
Qed.

Lemma distribute_shape (step : Segment -> SegPtr) (fuel : nat) :
  forall (m m' : SegmentMap) (orig : nat) (cur : SegPtr),
    distribute step fuel m orig cur = Ok m' -> shape m' = shape m.
Proof.
  induction fuel as [|fuel IH]; intros m m' orig cur H;
    destruct cur as [k|]; simpl in H; try discriminate;
    try (injection H as <-; reflexivity).
  destruct (nth_error m k) as [sk|]; [|discriminate].
  apply IH in H. rewrite H. apply shape_update_ringLeader.
Qed.

Lemma distributeRingLeader_shape (step : Segment -> SegPtr)
      (m m' : SegmentMap) (s : SegPtr) :
  distributeRingLeader step m s = Ok m' -> shape m' = shape m.
Proof.
  unfold distributeRingLeader. destruct s as [k|]; [|discriminate].
  destruct (nth_error m k); [|discriminate]. apply distribute_shape.
Qed.

(** ** What a call of [addSegment] does to the store and to the rings *)

Lemma addSegment_inv (cf : FindContour) (b b' : Builder)
      (type : CellType) (dir : Direction.t) (i j : Z) (st en : Vertex) :
  addSegment cf b type dir i j st en = Ok b' ->
  shape (segments b') = shape (linked_store (segments b) type dir st en)
  /\ (rings (contour b') = rings (contour b)
      \/ exists (m' : SegmentMap) (head : SegPtr) (ring : Polygon),
          shape m' = shape (linked_store (segments b) type dir st en)
          /\ findByEnd (segments b) st <> None
          /\ findByStart (segments b) en <> None
          /\ extract_ring cf m' head = Ok ring
          /\ rings (contour b') = rings (contour b) ++ [ring]).
Proof.
  unfold addSegment, linked_store, extract, with_segments,
    distributeRingLeaderPrev, distributeRingLeaderNext.
  cbn [segments contour rings border].
  destruct (insert _ _) as [m s].
  destruct (findByEnd (segments b) st) as [p|] eqn:Ep;
    destruct (findByStart (segments b) en) as [n|] eqn:En;
    try (intros H; injection H as <-; cbn [segments contour rings];
         split; [reflexivity | left; reflexivity]);
    destruct (link m s _ _) as [[m2 pl] nl] eqn:El; cbn [fst];
    destruct pl as [pl|], nl as [nl|];
    try (exfalso; unfold link in El; congruence);
    try (destruct (negb (Nat.eqb pl nl)));
    intros H;
    try (apply bind_Ok in H; destruct H as [m3 [H1 H2]];
         apply distributeRingLeader_shape in H1;
         injection H2 as <-; cbn [segments contour rings];
         split; [exact H1 | left; reflexivity]);
    try (injection H as <-; cbn [segments contour rings];
         rewrite ?shape_update_ringLeader;
         split; [reflexivity | left; reflexivity]).
  apply bind_Ok in H. destruct H as [ring [H1 H2]].
  injection H2 as <-. cbn [segments contour rings].
  rewrite shape_update_ringLeader. split; [reflexivity|].
  right. eexists _, _, ring. split; [|split; [|split; [|split]]];
    [| | |exact H1|reflexivity]; try discriminate.
  apply shape_update_ringLeader.
Qed.

(** ** The linking invariant is kept by every admissible call *)

Lemma findByStart_is_None (m : SegmentMap) (v : Vertex) :
  (forall k x, nth_error m k = Some x -> seg_start x <> v) ->
  findByStart m v = None.
Proof.
  intros H. destruct (findByStart m v) as [k|] eqn:E; [|reflexivity].
  apply findByStart_Some in E. destruct E as [x [Hx Hv]].
  elim (H k x Hx Hv).
Qed.

Lemma findByEnd_is_None (m : SegmentMap) (v : Vertex) :
  (forall k x, nth_error m k = Some x -> seg_end x <> v) ->
  findByEnd m v = None.
Proof.
  intros H. destruct (findByEnd m v) as [k|] eqn:E; [|reflexivity].
  apply findByEnd_Some in E. destruct E as [x [Hx Hv]].
  elim (H k x Hx Hv).
Qed.

Lemma relink_none (s k : nat) (x : Segment) : relink None None s k x = x.
Proof. reflexivity. Qed.

Lemma linked_store_fresh_nth (m : SegmentMap) (type : CellType)
      (dir : Direction.t) (st en : Vertex) (k : nat) :
  findByStart m st = None -> findByEnd m en = None ->
  let x := mkSegment type dir st en (findByEnd m st) (findByStart m en)
                     None in
  nth_error (linked_store m type dir st en) k
  = if (k <? length m)%nat
    then option_map (relink (seg_prev x) (seg_next x) (length m) k)
                    (nth_error m k)
    else if Nat.eqb k (length m) then Some x else None.
Proof.
  intros Hs He x. unfold linked_store, insert. cbn [seg_start seg_end].
  rewrite Hs, He. fold x.
  assert (Hx : forall q, seg_prev x = Some q \/ seg_next x = Some q ->
                         (q < length m)%nat).
  { intros q [H|H]; cbn in H.
    - apply findByEnd_Some in H. destruct H as [y [Hy _]].
      apply nth_error_Some. congruence.
    - apply findByStart_Some in H. destruct H as [y [Hy _]].
      apply nth_error_Some. congruence. }
  assert (E : nth_error (fst (fst (link (m ++ [x]) (length m)
                                        (seg_prev x) (seg_next x)))) k
              = if (k <? length m)%nat
                then option_map (relink (seg_prev x) (seg_next x)
                                        (length m) k) (nth_error m k)
                else if Nat.eqb k (length m) then Some x else None).
  { rewrite link_nth, nth_error_snoc.
    destruct (k <? length m)%nat eqn:Ek; [reflexivity|].
    destruct (Nat.eqb k (length m)) eqn:Ek2; [|reflexivity].
    apply Nat.eqb_eq in Ek2. subst k. cbn [option_map]. f_equal.
    unfold relink.
    destruct (SegPtr_eqb (seg_prev x) (Some (length m))) eqn:E1.
    { apply SegPtr_eqb_eq in E1.
      pose proof (Hx _ (or_introl E1)). lia. }
    destruct (SegPtr_eqb (seg_next x) (Some (length m))) eqn:E2.
    { apply SegPtr_eqb_eq in E2.
      pose proof (Hx _ (or_intror E2)). lia. }
    reflexivity. }
  cbn [seg_prev seg_next x] in E |- *.
  destruct (findByEnd m st) as [p|] eqn:Ep;
    destruct (findByStart m en) as [n|] eqn:En; exact E.
Qed.

Lemma linked_store_ok (m : SegmentMap) (type : CellType)
      (dir : Direction.t) (st en : Vertex) :
  store_ok m -> admissible m st en ->
  store_ok (linked_store m type dir st en).
Proof.
  intros Hok Hadm.
  assert (Hfresh : findByStart m st = None -> findByEnd m en = None ->
                   store_ok (linked_store m type dir st en)).
  { intros Hs He.
    apply (fresh_store_ok m
             (mkSegment type dir st en (findByEnd m st) (findByStart m en)
                        None)); cbn [seg_prev seg_next seg_start seg_end].
    - exact Hok.
    - intros pk H. apply findByEnd_Some. exact H.
    - intros nk H. apply findByStart_Some. exact H.
    - apply findByStart_None. exact Hs.
    - apply findByEnd_None. exact He.
    - intros k. apply linked_store_fresh_nth; assumption. }
  destruct Hadm as [[Hs He]|[Hp Hn]]; [auto|].
  destruct (findByStart m st) as [k1|] eqn:Hs;
    [|destruct (findByEnd m en) as [k2|] eqn:He; [|auto]];
    unfold linked_store, insert; cbn [seg_start seg_end];
    rewrite ?Hs, ?He, Hp, Hn; exact Hok.
Qed.

Lemma linked_store_covered (cs : list Call) (m : SegmentMap) (c : Call) :
  covered cs m ->
  covered (cs ++ [c])
          (linked_store m (call_type c) (call_direction c)
                        (call_start c) (call_end c)).
Proof.
  intros Hc k S HS.
  assert (H : (exists S0, nth_error m k = Some S0
                          /\ seg_start S0 = seg_start S
                          /\ seg_end S0 = seg_end S)
              \/ (seg_start S = call_start c /\ seg_end S = call_end c)).
  { revert HS. unfold linked_store, insert. cbn [seg_start seg_end].
    set (x := mkSegment _ _ _ _ _ _ _).
    assert (Hx : forall m1 s,
               (m1 = m \/ m1 = m ++ [x]) ->
               (nth_error m1 k = Some S \/
                exists S1, nth_error m1 k = Some S1
                  /\ S = relink (findByEnd m (call_start c))
                                (findByStart m (call_end c)) s k S1) ->
               (exists S0, nth_error m k = Some S0
                           /\ seg_start S0 = seg_start S
                           /\ seg_end S0 = seg_end S)
               \/ (seg_start S = call_start c /\ seg_end S = call_end c)).
    { intros m1 s Hm1 HS.
      assert (HS' : exists S1, nth_error m1 k = Some S1
                               /\ seg_start S1 = seg_start S
                               /\ seg_end S1 = seg_end S).
      { destruct HS as [HS|[S1 [HS ->]]]; [eauto|].
        exists S1. split; [exact HS|].
        destruct (relink_fields (findByEnd m (call_start c))
                    (findByStart m (call_end c)) s k S1) as [-> [-> _]].
        auto. }
      destruct HS' as [S1 [HS1 [Es Ee]]].
      destruct Hm1 as [->| ->]; [left; eauto|].
      rewrite nth_error_snoc in HS1.
      destruct (k <? length m)%nat; [left; eauto|].
      destruct (Nat.eqb k (length m)); [|discriminate].
      injection HS1 as <-. right. split; [rewrite <- Es|rewrite <- Ee];
        reflexivity. }
    destruct (findByStart m (call_start c)) as [k1|];
      [|destruct (findByEnd m (call_end c)) as [k2|]];
      destruct (findByEnd m (call_start c)) as [p|] eqn:Ep;
      destruct (findByStart m (call_end c)) as [n|] eqn:En;
      intros HS;
      try (rewrite link_nth in HS;
           match type of HS with
           | option_map _ (nth_error ?m1 _) = _ =>
               destruct (nth_error m1 k) as [S1|] eqn:E1; [|discriminate]
           end;
           injection HS as HS;
           eapply Hx; [|right; exists S1; split; [exact E1|]; symmetry;
                        exact HS]; auto);
      try (eapply (Hx _ 0%nat); [|left; exact HS]; auto). }
  destruct H as [[S0 [H0 [Es Ee]]]|[Es Ee]].
  - destruct (Hc k S0 H0) as [q [Hq [Hqs Hqe]]].
    exists q. split; [apply in_or_app; auto|]. split; congruence.
  - exists c. split; [apply in_or_app; simpl; auto|]. auto.
Qed.

(** ** The walk of [extract] *)

Lemma Subsequence_app {A : Type} (l1 l2 l1' l2' : list A) :
  Subsequence l1 l1' -> Subsequence l2 l2' ->
  Subsequence (l1 ++ l2) (l1' ++ l2').
Proof.
  induction 1 as [|x l1 l1' H IH|x l1 l1' H IH]; intros H2; simpl.
  - exact H2.
  - apply Subsequence_skip. apply IH. exact H2.
  - apply Subsequence_keep. apply IH. exact H2.
Qed.

Lemma Subsequence_nil_l {A : Type} (l : list A) : Subsequence [] l.
Proof. induction l; constructor; assumption. Qed.

Lemma extract_loop_path (cf : FindContour) (m : SegmentMap)
      (head end_ : nat) (fuel : nat) :
  forall (pk : nat) (p : Segment) (ring ring' : Polygon),
    nth_error m pk = Some p ->
    extract_loop cf m head end_ fuel p (seg_next p) ring = Ok ring' ->
    exists (ks : list nat) (corners : list Vertex),
      next_path m pk ks end_
      /\ Subsequence corners (map (fun k => fst (ends_of m k)) ks)
      /\ ring' = ring ++ map (to_pixel cf) corners.
Proof.
  induction fuel as [|fuel IH]; intros pk p ring ring' Hp H; simpl in H.
  - destruct (SegPtr_eqb (seg_next p) (Some end_)) eqn:E; [|discriminate].
    apply SegPtr_eqb_eq in E. injection H as <-.
    exists [], []. simpl. unfold next_of. rewrite Hp, app_nil_r.
    split; [exact E|]. split; [constructor | reflexivity].
  - destruct (SegPtr_eqb (seg_next p) (Some end_)) eqn:E.
    + apply SegPtr_eqb_eq in E. injection H as <-.
      exists [], []. simpl. unfold next_of. rewrite Hp, app_nil_r.
      split; [exact E|]. split; [constructor | reflexivity].
    + destruct (seg_next p) as [k|] eqn:Enext; [|discriminate].
      destruct (nth_error m k) as [sk|] eqn:Ek; [|discriminate].
      destruct (negb (SegPtr_eqb (seg_ringLeader sk) (Some head)));
        [discriminate|].
      destruct (seg_next sk) as [k'|] eqn:Ek'; [|discriminate].
      rewrite <- Ek' in H.
      apply (IH k sk _ ring' Ek) in H.
      destruct H as [ks [corners [Hpath [Hsub Hring]]]].
      assert (Hk : next_of m pk = Some k)
        by (unfold next_of; rewrite Hp; exact Enext).
      assert (Hst : fst (ends_of m k) = seg_start sk)
        by (unfold ends_of; rewrite Ek; reflexivity).
      destruct (negb (joinStraightSegments cf)
                || negb (Direction.eqb (seg_direction sk) (seg_direction p))).
      * exists (k :: ks), (seg_start sk :: corners). simpl.
        split; [auto|]. split.
        -- rewrite Hst. apply Subsequence_keep. exact Hsub.
        -- rewrite Hring. unfold addVertex. rewrite <- app_assoc.
           reflexivity.
      * exists (k :: ks), corners. simpl.
        split; [auto|]. split; [|exact Hring].
        apply Subsequence_skip. exact Hsub.
Qed.

Lemma next_path_snoc (m : SegmentMap) (ks : list nat) :
  forall a b c,
    next_path m a ks b -> next_of m b = Some c ->
    next_path m a (ks ++ [b]) c.
Proof.
  induction ks as [|k ks IH]; intros a b c H Hb; simpl in *.
  - auto.
  - destruct H as [H1 H2]. split; [exact H1|]. eapply IH; eauto.
Qed.

Lemma next_path_chained (m : SegmentMap) (ks : list nat) :
  links_consistent m ->
  forall (a b : nat) (A : Segment),
    nth_error m a = Some A ->
    next_path m a ks b ->
    chained (seg_start A, seg_end A) (map (ends_of m) ks)
            (fst (ends_of m b))
    /\ Forall (fun k => nth_error m k <> None) (ks ++ [b]).
Proof.
  intros Hl. induction ks as [|k ks IH]; intros a b A HA H; simpl in *.
  - unfold next_of in H. rewrite HA in H.
    destruct (Hl a b A HA H) as [B [HB [_ E]]].
    unfold ends_of. rewrite HB. simpl. split; [exact E|].
    constructor; [congruence | constructor].
  - destruct H as [H1 H2]. unfold next_of in H1. rewrite HA in H1.
    destruct (Hl a k A HA H1) as [K [HK [_ E]]].
    destruct (IH k b K HK H2) as [Hc Hf].
    unfold ends_of at 1 2. rewrite HK. simpl.
    split; [split; [exact E | exact Hc]|].
    constructor; [congruence | exact Hf].
Qed.

(** The ring [extract] produces from a store with consistent links follows
    a closed chain of stored segments. *)
Lemma extract_ring_closed (cf : FindContour) (m : SegmentMap)
      (head : SegPtr) (ring : Polygon) (calls : list Call) :
  store_ok m -> covered calls m ->
  extract_ring cf m head = Ok ring ->
  cyclically_closed cf calls ring.
Proof.
  intros [_ _ Hl Hb] Hcov H.
  unfold extract_ring in H.
  destruct head as [hk|]; [|discriminate].
  destruct (nth_error m hk) as [h|] eqn:Hh; [|discriminate].
  apply bind_Ok in H. destruct H as [end_ [Hend H]].
  apply (extract_loop_path cf m hk end_ _ hk h _ ring Hh) in H.
  destruct H as [ks [corners [Hpath [Hsub Hring]]]].
  (* the walk is completed to a cycle through the head *)
  assert (Hcycle : exists ks', next_path m hk ks' hk
                               /\ Subsequence corners
                                    (map (fun k => fst (ends_of m k)) ks')).
  { unfold extract_end in Hend. rewrite Hh in Hend.
    destruct (seg_prev h) as [pk|] eqn:Hprev; [|discriminate].
    destruct (nth_error m pk) as [hp|] eqn:Hpk; [|discriminate].
    injection Hend as Hend.
    destruct (negb (seg_type h =? seg_type hp)).
    - subst end_. exists ks. auto.
    - subst end_. exists (ks ++ [pk]). split.
      + apply next_path_snoc; [exact Hpath|].
        destruct (Hb pk hk h Hh Hprev) as [P [HP [Hn _]]].
        unfold next_of. rewrite HP. exact Hn.
      + rewrite map_app. rewrite <- (app_nil_r corners).
        apply Subsequence_app; [exact Hsub | apply Subsequence_nil_l]. }
  destruct Hcycle as [ks' [Hcyc Hsub']].
  destruct (next_path_chained m ks' Hl hk hk h Hh Hcyc) as [Hch Hall].
  exists (seg_start h, seg_end h), (map (ends_of m) ks'), corners.
  split; [|split; [|split]].
  - simpl. replace (seg_start h) with (fst (ends_of m hk)) at 2
      by (unfold ends_of; rewrite Hh; reflexivity).
    exact Hch.
  - intros e' [<-|Hin].
    + destruct (Hcov hk h Hh) as [c Hc]. exists c. exact Hc.
    + apply in_map_iff in Hin. destruct Hin as [k [<- Hk]].
      rewrite Forall_forall in Hall.
      specialize (Hall k (in_or_app _ _ _ (or_introl Hk))).
      destruct (nth_error m k) as [K|] eqn:HK; [|congruence].
      destruct (Hcov k K HK) as [c Hc]. exists c.
      unfold ends_of. rewrite HK. exact Hc.
  - rewrite map_map. exact Hsub'.
  - rewrite Hring. reflexivity.
Qed.

(** ** The invariant along a run of compatible calls *)

Lemma covered_shape (cs : list Call) (m m' : SegmentMap) :
  shape m' = shape m -> covered cs m -> covered cs m'.
Proof.
  intros Hs Hc k x' Hx'.
  destruct (shape_fields m m' k x' Hs Hx') as [x [Hx [Es [Ee _]]]].
  destruct (Hc k x Hx) as [c [Hin [H1 H2]]].
  exists c. split; [exact Hin|]. split; congruence.
Qed.

Lemma covered_incl (cs cs' : list Call) (m : SegmentMap) :
  incl cs cs' -> covered cs m -> covered cs' m.
Proof.
  intros Hi Hc k x Hx. destruct (Hc k x Hx) as [c [Hin H]].
  exists c. split; [apply Hi; exact Hin | exact H].
Qed.

Lemma admissible_of_compatible (pre : list Call) (m : SegmentMap)
      (c : Call) :
  covered pre m ->
  Forall (fun q => compatible q c) pre ->
  admissible m (call_start c) (call_end c).
Proof.
  intros Hcov Hall. rewrite Forall_forall in Hall.
  unfold compatible in Hall. unfold admissible.
  destruct (is_fallthrough c).
  - right. split.
    + apply findByEnd_is_None. intros k x Hx E.
      destruct (Hcov k x Hx) as [q [Hq [_ He]]].
      destruct (Hall q Hq) as [H _]. congruence.
    + apply findByStart_is_None. intros k x Hx E.
      destruct (Hcov k x Hx) as [q [Hq [Hs _]]].
      destruct (Hall q Hq) as [_ H]. congruence.
  - left. split.
    + apply findByStart_is_None. intros k x Hx E.
      destruct (Hcov k x Hx) as [q [Hq [Hs _]]].
      destruct (Hall q Hq) as [H _]. congruence.
    + apply findByEnd_is_None. intros k x Hx E.
      destruct (Hcov k x Hx) as [q [Hq [_ He]]].
      destruct (Hall q Hq) as [_ H]. congruence.
Qed.

Lemma ForallOrdPairs_before {A : Type} (R : A -> A -> Prop)
      (pre : list A) (c : A) (post : list A) :
  ForallOrdPairs R (pre ++ c :: post) -> Forall (fun q => R q c) pre.
Proof.
  induction pre as [|q pre IH]; simpl; intros H; [constructor|].
  inversion H as [|? ? Hq Hrest]; subst.
  constructor.
  - rewrite Forall_forall in Hq. apply Hq. apply in_or_app. simpl; auto.
  - apply IH. exact Hrest.
Qed.

Lemma run_calls_invariant (cf : FindContour) (all : list Call)
      (cs : list Call) :
  forall (pre : list Call) (b b' : Builder),
    ForallOrdPairs compatible (pre ++ cs) ->
    incl (pre ++ cs) all ->
    store_ok (segments b) ->
    covered pre (segments b) ->
    Forall (cyclically_closed cf all) (rings (contour b)) ->
    run_calls cf b cs = Ok b' ->
    store_ok (segments b')
    /\ covered (pre ++ cs) (segments b')
    /\ Forall (cyclically_closed cf all) (rings (contour b')).
Proof.
  induction cs as [|c cs IH]; intros pre b b' Hfop Hincl Hok Hcov Hrings H;
    simpl in H.
  - injection H as <-. rewrite app_nil_r. auto.
  - apply bind_Ok in H. destruct H as [b1 [H1 H2]].
    unfold run_call in H1. apply addSegment_inv in H1.
    destruct H1 as [Hshape Hr].
    pose proof (ForallOrdPairs_before _ _ _ _ Hfop) as Hbefore.
    pose proof (admissible_of_compatible pre _ c Hcov Hbefore) as Hadm.
    pose proof (linked_store_ok _ (call_type c) (call_direction c) _ _
                                Hok Hadm) as Hok1.
    pose proof (linked_store_covered pre _ c Hcov) as Hcov1.
    assert (Hpre : (pre ++ [c]) ++ cs = pre ++ c :: cs)
      by (rewrite <- app_assoc; reflexivity).
    assert (Hincl1 : incl (pre ++ [c]) all).
    { intros q Hq. apply Hincl. apply in_app_or in Hq.
      apply in_or_app. destruct Hq as [Hq|[<-|[]]]; simpl; auto. }
    rewrite <- Hpre in Hfop, Hincl |- *.
    apply (IH (pre ++ [c]) b1 b' Hfop Hincl); try exact H2.
    + apply (store_ok_shape _ _ Hshape Hok1).
    + apply (covered_shape _ _ _ Hshape Hcov1).
    + destruct Hr as [->|[m' [head [ring [Hs' [_ [_ [Hex ->]]]]]]]];
        [exact Hrings|].
      apply Forall_app. split; [exact Hrings|].
      constructor; [|constructor].
      apply (extract_ring_closed cf m' head ring all).
      * apply (store_ok_shape _ _ Hs' Hok1).
      * apply (covered_incl (pre ++ [c])); [exact Hincl1|].
        apply (covered_shape _ _ _ Hs' Hcov1).
      * exact Hex.
Qed.

Lemma store_ok_nil : store_ok [].
Proof.
  constructor.
  - intros a b A B HA. destruct a; discriminate.
  - intros a b A B HA. destruct a; discriminate.
  - intros a b A HA. destruct a; discriminate.
  - intros a b B HB. destruct b; discriminate.
Qed.

(** ** Where the calls of a cell start and end *)

Lemma get_outside (raster : Raster) (x y : Z) :
  x < 0 \/ y < 0 \/ width raster <= x \/ height raster <= y ->
  get raster x y = false.
Proof.
  intros H. unfold get, in_bounds.
  destruct (0 <=? x) eqn:E1, (x <? width raster) eqn:E2,
    (0 <=? y) eqn:E3, (y <? height raster) eqn:E4; simpl; try reflexivity.
  apply Z.leb_le in E1, E3. apply Z.ltb_lt in E2, E4. lia.
Qed.

Lemma on_border_zero (raster : Raster) (i j : Z) :
  on_border raster i j ->
  (get raster i j = false /\ get raster i (j + 1) = false)
  \/ (get raster i j = false /\ get raster (i + 1) j = false)
  \/ (get raster (i + 1) j = false /\ get raster (i + 1) (j + 1) = false)
  \/ (get raster i (j + 1) = false /\ get raster (i + 1) (j + 1) = false).
Proof.
  intros [H|[H|[H|H]]];
    [left | right; left | right; right; left | right; right; right];
    split; apply get_outside; lia.
Qed.

Lemma is_fallthrough_true (c : Call) :
  is_fallthrough c = true <->
  call_type c = b0010
  /\ call_start c = (call_i c * 2 + 0, call_j c * 2 + 1).
Proof.
  unfold is_fallthrough.
  rewrite andb_true_iff, Z.eqb_eq, Vertex_eqb_eq. tauto.
Qed.

Lemma is_fallthrough_false (c : Call) :
  call_type c <> b0010
  \/ call_start c <> (call_i c * 2 + 0, call_j c * 2 + 1) ->
  is_fallthrough c = false.
Proof.
  intros H. destruct (is_fallthrough c) eqn:E; [|reflexivity].
  apply is_fallthrough_true in E. tauto.
Qed.

Ltac lattice_neq :=
  let H := fresh in intros H; injection H; intros; lia.

Ltac not_fallthrough :=
  apply is_fallthrough_false; cbn [call_type call_start call_i call_j];
  first [left; discriminate
        | left; congruence
        | right; lattice_neq ].

Ltac pick_crossing :=
  first
    [ left; repeat split; solve [reflexivity | assumption]
    | right; left; repeat split; solve [reflexivity | assumption]
    | right; right; left; repeat split; solve [reflexivity | assumption]
    | right; right; right; left; repeat split;
      solve [reflexivity | assumption]
    | right; right; right; right; reflexivity ].

Ltac place_call :=
  unfold placed, crossing_end, crossing_start, runs_on;
  cbn [call_type call_start call_end call_i call_j];
  split;
  [ pick_crossing
  | first
      [ left; split; [not_fallthrough | pick_crossing]
      | right; split;
        [ apply is_fallthrough_true; split; reflexivity
        | repeat split; solve [reflexivity | assumption] ] ] ].

Lemma visit_calls_placed (cf : FindContour) (raster : Raster) (v : Visit)
      (c : Call) :
  visited_properly raster v ->
  In c (visit_calls cf raster v) -> placed raster c.
Proof.
  destruct v as [x y|x y]; cbn [visited_properly visit_calls].
  - intros _. rewrite getFlags_code.
    destruct (get raster x (y + 1)) eqn:G0,
      (get raster (x + 1) (y + 1)) eqn:G1,
      (get raster (x + 1) y) eqn:G2, (get raster x y) eqn:G3;
      cbn [code_of Z.b2z Z.add Z.mul Pos.add Pos.mul Pos.succ add_calls];
      try rewrite addAmbiguous_calls_eq; cbv zeta;
      repeat match goal with
             | |- context [if ?b then _ else _] =>
                 let E := fresh "E" in destruct b eqn:E
             end;
      try apply Z.eqb_eq in E0; try apply Z.eqb_eq in E;
      unfold ADD_SEGMENT; cbv zeta; cbn [In];
      intros H;
      repeat (destruct H as [H|H]; [subst c|]); try contradiction;
      first [ exfalso; congruence | place_call ].
  - intros Hb. apply on_border_zero in Hb. rewrite getFlags_code.
    destruct (get raster x (y + 1)) eqn:G0,
      (get raster (x + 1) (y + 1)) eqn:G1,
      (get raster (x + 1) y) eqn:G2, (get raster x y) eqn:G3;
      cbn [code_of Z.b2z Z.add Z.mul Pos.add Pos.mul Pos.succ
           addBorder_calls];
      unfold ADD_SEGMENT; cbv zeta; cbn [In];
      intros H;
      repeat (destruct H as [H|H]; [subst c|]); try contradiction;
      first [ place_call
            | exfalso;
              destruct Hb as [[? ?]|[[? ?]|[[? ?]|[? ?]]]]; congruence ].
Qed.

(** ** A lattice point is the start of one segment and the end of one *)

Ltac split_crossing H :=
  destruct H as [[?E [?A ?B]]|[[?E [?A ?B]]|[[?E [?A ?B]]|[[?E [?A ?B]]|?E]]]].

Ltac same_pixels i j i' j' :=
  first [ assert (i = i') by lia
        | assert (i = i' + 1) by lia
        | assert (i' = i + 1) by lia ];
  first [ assert (j = j') by lia
        | assert (j = j' + 1) by lia
        | assert (j' = j + 1) by lia ];
  subst; congruence.

Lemma crossing_start_unique (raster : Raster) (P : Vertex) (i j i' j' : Z) :
  crossing_start raster P i j -> crossing_start raster P i' j' ->
  i = i' /\ j = j'.
Proof.
  intros H H'. split_crossing H; split_crossing H';
    rewrite E in E0; injection E0 as E1 E2;
    try (exfalso; lia); try (split; lia);
    exfalso; same_pixels i j i' j'.
Qed.

Lemma crossing_end_unique (raster : Raster) (P : Vertex) (i j i' j' : Z) :
  crossing_end raster P i j -> crossing_end raster P i' j' ->
  i = i' /\ j = j'.
Proof.
  intros H H'. split_crossing H; split_crossing H';
    rewrite E in E0; injection E0 as E1 E2;
    try (exfalso; lia); try (split; lia);
    exfalso; same_pixels i j i' j'.
Qed.

(** Nothing else starts or ends where the run-on call starts. *)
Lemma no_start_at_dead_edge (raster : Raster) (i j i' j' : Z) :
  get raster i j = false -> get raster i (j + 1) = false ->
  crossing_start raster (i * 2 + 0, j * 2 + 1) i' j' -> False.
Proof.
  intros G3 G0 H. split_crossing H; injection E as E1 E2;
    try lia; same_pixels i j i' j'.
Qed.

Lemma no_end_at_dead_edge (raster : Raster) (i j i' j' : Z) :
  get raster i j = false -> get raster i (j + 1) = false ->
  crossing_end raster (i * 2 + 0, j * 2 + 1) i' j' -> False.
Proof.
  intros G3 G0 H. split_crossing H; injection E as E1 E2;
    try lia; same_pixels i j i' j'.
Qed.

(** What starts where the run-on call ends belongs to the next cell of the
    row. *)
Lemma start_at_right_edge (raster : Raster) (i j i' j' : Z) :
  get raster (i + 1) j = false -> get raster (i + 1) (j + 1) = true ->
  crossing_start raster (i * 2 + 2, j * 2 + 1) i' j' ->
  i' = i + 1 /\ j' = j.
Proof.
  intros G2 G1 H. split_crossing H; injection E as E1 E2;
    try (exfalso; lia); try (split; lia);
    exfalso; same_pixels i j i' j'.
Qed.

Lemma cell_lt_irrefl (a : Z * Z) : ~ cell_lt a a.
Proof. unfold cell_lt. lia. Qed.

(** Calls of two cells, the first visited before the second. *)
Lemma placed_compatible (raster : Raster) (q c : Call) :
  placed raster q -> placed raster c ->
  cell_lt (call_i q, call_j q) (call_i c, call_j c) ->
  compatible q c.
Proof.
  intros [Hqe Hqs] [Hce Hcs] Hlt. unfold compatible, cell_lt in *.
  cbn [fst snd] in Hlt.
  destruct Hcs as [[Hf Hcs]|[Hf Hcr]]; rewrite Hf.
  - split; intros E.
    + destruct Hqs as [[_ Hqs]|[_ Hqr]].
      * rewrite E in Hqs.
        destruct (crossing_start_unique _ _ _ _ _ _ Hqs Hcs). lia.
      * destruct Hqr as [Hq1 [_ [G3 [G0 _]]]].
        rewrite <- E, Hq1 in Hcs.
        exact (no_start_at_dead_edge _ _ _ _ _ G3 G0 Hcs).
    + rewrite E in Hqe.
      destruct (crossing_end_unique _ _ _ _ _ _ Hqe Hce). lia.
  - destruct Hcr as [Hc1 [Hc2 [G3 [G0 [G2 G1]]]]].
    split; intros E.
    + rewrite E, Hc1 in Hqe.
      exact (no_end_at_dead_edge _ _ _ _ _ G3 G0 Hqe).
    + destruct Hqs as [[_ Hqs]|[_ Hqr]].
      * rewrite E, Hc2 in Hqs.
        destruct (start_at_right_edge _ _ _ _ _ G2 G1 Hqs). lia.
      * destruct Hqr as [Hq1 _]. rewrite Hq1, Hc2 in E.
        injection E as E1 E2. lia.
Qed.

(** ** The calls of one cell *)

Ltac compatible_pair :=
  unfold compatible;
  match goal with
  | |- context [is_fallthrough ?c] =>
      first
        [ replace (is_fallthrough c) with false
            by (symmetry; not_fallthrough)
        | replace (is_fallthrough c) with true
            by (symmetry; apply is_fallthrough_true; split; reflexivity) ]
  end;
  cbn [call_start call_end]; split; lattice_neq.

Ltac compatible_list :=
  repeat (apply FOP_cons;
          [ repeat (apply Forall_cons; [compatible_pair|]);
            apply Forall_nil
          | ]);
  apply FOP_nil.

Lemma visit_calls_compatible (cf : FindContour) (raster : Raster)
      (v : Visit) :
  ForallOrdPairs compatible (visit_calls cf raster v).
Proof.
  destruct v as [x y|x y]; cbn [visit_calls]; rewrite getFlags_code;
    destruct (get raster x (y + 1)), (get raster (x + 1) (y + 1)),
      (get raster (x + 1) y), (get raster x y);
    cbn [code_of Z.b2z Z.add Z.mul Pos.add Pos.mul Pos.succ
         add_calls addBorder_calls];
    try rewrite addAmbiguous_calls_eq; cbv zeta;
    repeat match goal with
           | |- context [if ?b then _ else _] =>
               let E := fresh "E" in destruct b eqn:E
           end;
    try apply Z.eqb_eq in E0; try apply Z.eqb_eq in E;
    unfold ADD_SEGMENT; cbv zeta;
    compatible_list.
Qed.

(** ** Lists in which every element is related to the later ones *)

Lemma FOP_app {A : Type} (R : A -> A -> Prop) (l1 l2 : list A) :
  ForallOrdPairs R l1 -> ForallOrdPairs R l2 ->
  (forall a b, In a l1 -> In b l2 -> R a b) ->
  ForallOrdPairs R (l1 ++ l2).
Proof.
  intros H1 H2 H12. induction H1 as [|a l1 Ha H1 IH]; simpl; [exact H2|].
  constructor.
  - apply Forall_app. split; [exact Ha|].
    apply Forall_forall. intros b Hb. apply H12; simpl; auto.
  - apply IH. intros a' b Ha' Hb. apply H12; simpl; auto.
Qed.

Lemma FOP_app_l {A : Type} (R : A -> A -> Prop) (l1 l2 : list A) :
  ForallOrdPairs R (l1 ++ l2) -> ForallOrdPairs R l1.
Proof.
  induction l1 as [|a l1 IH]; simpl; intros H; [constructor|].
  inversion H as [|? ? Ha Hl]; subst. constructor.
  - apply Forall_app in Ha. tauto.
  - apply IH. exact Hl.
Qed.

Lemma FOP_map {A B : Type} (f : A -> B) (R : B -> B -> Prop) (l : list A) :
  ForallOrdPairs (fun a b => R (f a) (f b)) l ->
  ForallOrdPairs R (map f l).
Proof.
  induction 1 as [|a l Ha Hl IH]; simpl; constructor; [|exact IH].
  apply Forall_map. exact Ha.
Qed.

Lemma FOP_flat_map {A B : Type} (f : A -> list B) (R : B -> B -> Prop)
      (l : list A) :
  (forall a, In a l -> ForallOrdPairs R (f a)) ->
  ForallOrdPairs
    (fun a a' => forall b b', In b (f a) -> In b' (f a') -> R b b') l ->
  ForallOrdPairs R (flat_map f l).
Proof.
  intros Hin H. induction H as [|a l Ha Hl IH]; simpl; [constructor|].
  apply FOP_app.
  - apply Hin. simpl; auto.
  - apply IH. intros a' Ha'. apply Hin. simpl; auto.
  - intros b b' Hb Hb'. apply in_flat_map in Hb'.
    destruct Hb' as [a' [Ha' Hb']].
    rewrite Forall_forall in Ha. exact (Ha a' Ha' b b' Hb Hb').
Qed.

Lemma FOP_impl_In {A : Type} (R R' : A -> A -> Prop) (l : list A) :
  (forall a b, In a l -> In b l -> R a b -> R' a b) ->
  ForallOrdPairs R l -> ForallOrdPairs R' l.
Proof.
  intros Himp H. induction H as [|a l Ha Hl IH]; constructor.
  - rewrite Forall_forall in *. intros b Hb.
    apply Himp; simpl; auto.
  - apply IH. intros a' b Ha' Hb. apply Himp; simpl; auto.
Qed.

Lemma FOP_seq (a n : nat) : ForallOrdPairs lt (seq a n).
Proof.
  revert a. induction n as [|n IH]; intros a; simpl; constructor.
  - apply Forall_forall. intros b Hb. apply in_seq in Hb. lia.
  - apply IH.
Qed.

(** ** The order of the sweep *)

Lemma counter_In (lo hi k : Z) : In k (counter lo hi) <-> lo <= k <= hi.
Proof.
  unfold counter. rewrite in_map_iff. split.
  - intros [n [<- Hn]]. apply in_seq in Hn. lia.
  - intros H. exists (Z.to_nat (k - lo)). split; [lia|].
    apply in_seq. lia.
Qed.

Lemma counter_sorted (lo hi : Z) : ForallOrdPairs Z.lt (counter lo hi).
Proof.
  unfold counter. apply FOP_map.
  apply (FOP_impl_In lt); [|apply FOP_seq]. intros a b _ _ H. lia.
Qed.

Lemma sweep_rows (w h : Z) :
  sweep w h
  = map (fun i => ADD_BORDER i (-1)) (counter (-1) (w - 1))
    ++ flat_map (sweep_row w) (counter 0 (h - 1 - 1))
    ++ map (fun i => ADD_BORDER i (h - 1)) (counter (-1) (w - 1)).
Proof. reflexivity. Qed.

Lemma sweep_row_In (w j : Z) (v : Visit) :
  In v (sweep_row w j) ->
  snd (visit_cell v) = j
  /\ (v = ADD_BORDER (-1) j
      \/ (exists i, 0 <= i <= w - 2 /\ v = ADD i j)
      \/ v = ADD_BORDER (w - 1) j).
Proof.
  unfold sweep_row. rewrite !in_app_iff, in_map_iff. simpl.
  intros [[<-|[]]|[[i [<- Hi]]|[<-|[]]]]; simpl; split; auto.
  right; left. exists i. apply counter_In in Hi. split; [lia | reflexivity].
Qed.

Lemma sweep_In (w h : Z) (v : Visit) :
  In v (sweep w h) ->
  (exists i, -1 <= i <= w - 1 /\ v = ADD_BORDER i (-1))
  \/ (exists j, 0 <= j <= h - 2 /\ In v (sweep_row w j))
  \/ (exists i, -1 <= i <= w - 1 /\ v = ADD_BORDER i (h - 1)).
Proof.
  rewrite sweep_rows, !in_app_iff, !in_map_iff, in_flat_map.
  intros [[i [<- Hi]]|[[j [Hj Hv]]|[i [<- Hi]]]].
  - left. exists i. apply counter_In in Hi. auto.
  - right; left. exists j. apply counter_In in Hj. split; [lia | exact Hv].
  - right; right. exists i. apply counter_In in Hi. auto.
Qed.

Lemma sweep_visited_properly (raster : Raster) (v : Visit) :
  In v (sweep (width raster) (height raster)) ->
  visited_properly raster v.
Proof.
  intros H. apply sweep_In in H.
  destruct H as [[i [_ ->]]|[[j [_ H]]|[i [_ ->]]]];
    cbn [visited_properly]; unfold on_border; auto 6.
  apply sweep_row_In in H.
  destruct H as [_ [->|[[i [_ ->]]| ->]]]; cbn [visited_properly];
    unfold on_border; auto 6.
Qed.

Lemma sweep_row_sorted (w j : Z) :
  1 <= w -> ForallOrdPairs visit_before (sweep_row w j).
Proof.
  intros Hw. unfold sweep_row.
  apply FOP_app; [repeat constructor| |].
  - apply FOP_app; [|repeat constructor|].
    + apply FOP_map. apply (FOP_impl_In Z.lt); [|apply counter_sorted].
      intros a b _ _ H. right. simpl. auto.
    + intros a b Ha [<-|[]]. apply in_map_iff in Ha.
      destruct Ha as [i [<- Hi]]. apply counter_In in Hi.
      right. simpl. lia.
  - intros a b [<-|[]] Hb. apply in_app_iff in Hb.
    destruct Hb as [Hb|[<-|[]]].
    + apply in_map_iff in Hb. destruct Hb as [i [<- Hi]].
      apply counter_In in Hi. right. simpl. lia.
    + right. simpl. lia.
Qed.

Lemma sweep_sorted (w h : Z) :
  1 <= w -> 1 <= h -> ForallOrdPairs visit_before (sweep w h).
Proof.
  intros Hw Hh. rewrite sweep_rows.
  assert (Hfirst : forall a,
             In a (map (fun i => ADD_BORDER i (-1)) (counter (-1) (w - 1)))
             -> snd (visit_cell a) = -1).
  { intros a Ha. apply in_map_iff in Ha. destruct Ha as [i [<- _]].
    reflexivity. }
  assert (Hlast : forall a,
             In a (map (fun i => ADD_BORDER i (h - 1))
                       (counter (-1) (w - 1)))
             -> snd (visit_cell a) = h - 1).
  { intros a Ha. apply in_map_iff in Ha. destruct Ha as [i [<- _]].
    reflexivity. }
  assert (Hmid : forall a,
             In a (flat_map (sweep_row w) (counter 0 (h - 1 - 1)))
             -> 0 <= snd (visit_cell a) <= h - 2).
  { intros a Ha. apply in_flat_map in Ha. destruct Ha as [j [Hj Ha]].
    apply counter_In in Hj. apply sweep_row_In in Ha.
    destruct Ha as [-> _]. lia. }
  assert (Hline : forall y,
             ForallOrdPairs visit_before
               (map (fun i => ADD_BORDER i y) (counter (-1) (w - 1)))).
  { intros y. apply FOP_map.
    apply (FOP_impl_In Z.lt); [|apply counter_sorted].
    intros a b _ _ H. right. simpl. auto. }
  apply FOP_app; [apply Hline| |].
  - apply FOP_app; [|apply Hline|].
    + apply FOP_flat_map.
      * intros j _. apply sweep_row_sorted. exact Hw.
      * apply (FOP_impl_In Z.lt); [|apply counter_sorted].
        intros j j' _ _ Hjj b b' Hb Hb'.
        apply sweep_row_In in Hb, Hb'.
        destruct Hb as [Hb _], Hb' as [Hb' _]. left. lia.
    + intros a b Ha Hb. apply Hmid in Ha. apply Hlast in Hb.
      left. lia.
  - intros a b Ha Hb. apply Hfirst in Ha. apply in_app_iff in Hb.
    destruct Hb as [Hb|Hb]; [apply Hmid in Hb | apply Hlast in Hb];
      left; lia.
Qed.

(** A raster without pixels gives rise to no call. *)
Lemma no_pixels_no_calls (cf : FindContour) (raster : Raster) :
  width raster <= 0 \/ height raster <= 0 ->
  sweep_calls cf raster = [].
Proof.
  intros H.
  assert (Hget : forall x y, get raster x y = false).
  { intros x y. unfold get, in_bounds.
    destruct (0 <=? x) eqn:E1, (x <? width raster) eqn:E2,
      (0 <=? y) eqn:E3, (y <? height raster) eqn:E4; simpl;
      try reflexivity.
    apply Z.leb_le in E1, E3. apply Z.ltb_lt in E2, E4. lia. }
  unfold sweep_calls.
  induction (sweep (width raster) (height raster)) as [|v vs IH];
    simpl; [reflexivity|].
  rewrite IH, app_nil_r.
  destruct v as [x y|x y]; cbn [visit_calls]; rewrite getFlags_code,
    !Hget; reflexivity.
Qed.

(** ** Every call of a sweep is compatible with the calls before it *)

Lemma sweep_calls_placed (cf : FindContour) (raster : Raster) (c : Call) :
  In c (sweep_calls cf raster) ->
  placed raster c
  /\ exists v, In v (sweep (width raster) (height raster))
               /\ visit_cell v = (call_i c, call_j c).
Proof.
  unfold sweep_calls. intros H. apply in_flat_map in H.
  destruct H as [v [Hv Hc]]. split.
  - apply (visit_calls_placed cf raster v c); [|exact Hc].
    apply sweep_visited_properly. exact Hv.
  - exists v. split; [exact Hv|].
    destruct (visit_calls_tag cf raster v c Hc) as [Hi [Hj _]].
    destruct (visit_cell v). simpl in *. congruence.
Qed.

Lemma sweep_calls_compatible (cf : FindContour) (raster : Raster) :
  ForallOrdPairs compatible (sweep_calls cf raster).
Proof.
  destruct (Z_lt_le_dec (width raster) 1) as [Hw|Hw];
    [rewrite no_pixels_no_calls by lia; constructor|].
  destruct (Z_lt_le_dec (height raster) 1) as [Hh|Hh];
    [rewrite no_pixels_no_calls by lia; constructor|].
  unfold sweep_calls. apply FOP_flat_map.
  - intros v _. apply visit_calls_compatible.
  - apply (FOP_impl_In visit_before); [|apply sweep_sorted; assumption].
    intros v v' Hv Hv' Hlt q c Hq Hc.
    apply (placed_compatible raster).
    + apply (visit_calls_placed cf raster v q); [|exact Hq].
      apply sweep_visited_properly. exact Hv.
    + apply (visit_calls_placed cf raster v' c); [|exact Hc].
      apply sweep_visited_properly. exact Hv'.
    + destruct (visit_calls_tag cf raster v q Hq) as [Hi [Hj _]].
      destruct (visit_calls_tag cf raster v' c Hc) as [Hi' [Hj' _]].
      unfold visit_before, cell_lt in Hlt. unfold cell_lt. cbn [fst snd].
      rewrite Hi, Hj, Hi', Hj'. exact Hlt.
Qed.

Lemma sweep_prefix_ok (cf : FindContour) (raster : Raster)
      (pre post : list Call) (cb : Builder) :
  sweep_calls cf raster = pre ++ post ->
  run_calls cf (Builder_init (width raster) (height raster)) pre = Ok cb ->
  store_ok (segments cb)
  /\ covered pre (segments cb)
  /\ Forall (cyclically_closed cf (sweep_calls cf raster))
            (rings (contour cb)).
Proof.
  intros Hsplit Hrun.
  pose proof (sweep_calls_compatible cf raster) as Hfop.
  rewrite Hsplit in Hfop. apply FOP_app_l in Hfop.
  apply (run_calls_invariant cf (sweep_calls cf raster) pre []
           (Builder_init (width raster) (height raster)) cb);
    simpl; auto.
  - rewrite Hsplit. intros q Hq. apply in_or_app. auto.
  - apply store_ok_nil.
  - intros k x Hx. destruct k; discriminate.
Qed.

(** ** C8: the links of the segment store *)

(** C8. At every point of a sweep of [find_contour] between two calls of
    [addSegment], any two stored segments A and B with A.next = B satisfy
    B.prev = A and A.end = B.start; and the next call of [addSegment], when
    it returns, leaves a store for which this holds again. *)
Theorem C8_links_consistent (cf : FindContour) (raster : Raster)
        (pre post : list Call) (cb : Builder) :
  sweep_calls cf raster = pre ++ post ->
  run_calls cf (Builder_init (width raster) (height raster)) pre = Ok cb ->
  links_consistent (segments cb)
  /\ forall (c : Call) (post' : list Call) (cb' : Builder),
      post = c :: post' ->
      run_call cf cb c = Ok cb' ->
      links_consistent (segments cb').
Proof.
  intros Hsplit Hrun. split.
  - destruct (sweep_prefix_ok cf raster pre post cb Hsplit Hrun)
      as [Hok _].
    apply ok_next. exact Hok.
  - intros c post' cb' -> Hc.
    assert (Hsplit' : sweep_calls cf raster = (pre ++ [c]) ++ post')
      by (rewrite <- app_assoc; exact Hsplit).
    assert (Hrun' : run_calls cf (Builder_init (width raster)
                                               (height raster))
                              (pre ++ [c]) = Ok cb').
    { rewrite run_calls_app, Hrun. simpl. rewrite Hc. reflexivity. }
    destruct (sweep_prefix_ok cf raster _ _ cb' Hsplit' Hrun') as [Hok _].
    apply ok_next. exact Hok.
Qed.

Lemma C8_links_consistent_witness :
  exists cb : Builder,
    run_calls default_cf (Builder_init 2 2)
              (sweep_calls default_cf raster_saddle) = Ok cb
    /\ links_consistent (segments cb).
Proof.
  eexists. split; [vm_compute; reflexivity|].
  eapply proj1.
  apply (C8_links_consistent default_cf raster_saddle
           (sweep_calls default_cf raster_saddle) []).
  - symmetry. apply app_nil_r.
  - vm_compute. reflexivity.
Defined.

(** ** C7: every ring is closed *)

(** C7. For every raster, policy for ambiguous cells and parameter setting,
    every ring of the contour [find_contour] returns is cyclically closed:
    there is a chain of lattice segments of the sweep, each starting where
    the one before ends and the last ending where the first starts, such
    that the first vertex of the ring is the start of the first segment and
    the following vertices are starts of later segments of the chain, in the
    order of the chain (all mapped to pixel space). *)
Theorem C7_rings_closed (cf : FindContour) (raster : Raster) (c : Contour)
        (ring : Polygon) :
  find_contour cf raster = Ok c ->
  In ring (rings c) ->
  cyclically_closed cf (sweep_calls cf raster) ring.
Proof.
  intros H Hin. apply find_contour_calls in H. destruct H as [cb [H <-]].
  destruct (sweep_prefix_ok cf raster (sweep_calls cf raster) [] cb)
    as [_ [_ Hrings]].
  - symmetry. apply app_nil_r.
  - exact H.
  - rewrite Forall_forall in Hrings. apply Hrings. exact Hin.
Qed.

Lemma C7_rings_closed_witness :
  cyclically_closed default_cf (sweep_calls default_cf raster_1x1)
                    pixel_center_square.
Proof.
  apply (C7_rings_closed default_cf raster_1x1
           (mkContour [pixel_center_square] (mkMask 1 1 [(0, 0)]))).
  - vm_compute. reflexivity.
  - left. reflexivity.
Defined.

(** * Further properties of the code *)

(** ** The cells of a sweep *)

Lemma FOP_NoDup {A : Type} (R : A -> A -> Prop) (l : list A) :
  (forall a, ~ R a a) -> ForallOrdPairs R l -> NoDup l.
Proof.
  intros Hirr H. induction H as [|a l Ha Hl IH]; constructor; [|exact IH].
  intros Hin. rewrite Forall_forall in Ha. exact (Hirr a (Ha a Hin)).
Qed.

Lemma sweep_row_In_iff (w j : Z) (v : Visit) :
  1 <= w ->
  In v (sweep_row w j) <->
  v = ADD_BORDER (-1) j
  \/ (exists i, 0 <= i <= w - 2 /\ v = ADD i j)
  \/ v = ADD_BORDER (w - 1) j.
Proof.
  intros Hw. split; [intros H; apply sweep_row_In in H; tauto|].
  unfold sweep_row. rewrite !in_app_iff, in_map_iff. simpl.
  intros [->|[[i [Hi ->]]| ->]]; auto.
  right; left. exists i. split; [reflexivity|]. apply counter_In. lia.
Qed.

Lemma sweep_In_kinds (w h : Z) :
  1 <= w -> 1 <= h ->
  forall i j,
    (In (ADD i j) (sweep w h) <-> 0 <= i <= w - 2 /\ 0 <= j <= h - 2)
    /\ (In (ADD_BORDER i j) (sweep w h) <->
        -1 <= i <= w - 1 /\ -1 <= j <= h - 1
        /\ (i = -1 \/ j = -1 \/ i = w - 1 \/ j = h - 1)).
Proof.
  intros Hw Hh i j.
  assert (Hin : forall v, In v (sweep w h) <->
            (exists i, -1 <= i <= w - 1 /\ v = ADD_BORDER i (-1))
            \/ (exists j, 0 <= j <= h - 2 /\ In v (sweep_row w j))
            \/ (exists i, -1 <= i <= w - 1 /\ v = ADD_BORDER i (h - 1))).
  { intros v. split; [apply sweep_In|].
    rewrite sweep_rows, !in_app_iff, !in_map_iff, in_flat_map.
    intros [[k [Hk ->]]|[[k [Hk Hv]]|[k [Hk ->]]]].
    - left. exists k. split; [reflexivity|]. apply counter_In. lia.
    - right; left. exists k. split; [apply counter_In; lia | exact Hv].
    - right; right. exists k. split; [reflexivity|].
      apply counter_In. lia. }
  split; rewrite Hin; split.
  - intros [[k [_ E]]|[[k [Hk Hv]]|[k [_ E]]]]; try discriminate.
    apply (sweep_row_In_iff w k _ Hw) in Hv.
    destruct Hv as [E|[[k' [Hk' E]]|E]]; try discriminate.
    injection E as -> ->. lia.
  - intros [Hi Hj]. right; left. exists j. split; [lia|].
    apply (sweep_row_In_iff w j _ Hw). right; left. exists i. auto.
  - intros [[k [Hk E]]|[[k [Hk Hv]]|[k [Hk E]]]].
    + injection E as -> ->. lia.
    + apply (sweep_row_In_iff w k _ Hw) in Hv.
      destruct Hv as [E|[[k' [Hk' E]]|E]]; try discriminate;
        injection E as -> ->; lia.
    + injection E as -> ->. lia.
  - intros [Hi [Hj Hrim]].
    destruct (Z.eq_dec j (-1)) as [->|Hj1];
      [left; exists i; auto|].
    destruct (Z.eq_dec j (h - 1)) as [->|Hj2];
      [right; right; exists i; auto|].
    right; left. exists j. split; [lia|].
    apply (sweep_row_In_iff w j _ Hw).
    destruct Hrim as [->|[?|[->|?]]]; auto; lia.
Qed.

(** The two loops of [operator()] visit every cell [(i, j)] with
    [-1 <= i <= W-1] and [-1 <= j <= H-1] once: the cells on the rim by
    [ADD_BORDER], the others by [ADD]. *)
Theorem sweep_visits_each_cell_once (w h : Z) :
  1 <= w -> 1 <= h ->
  NoDup (map visit_cell (sweep w h))
  /\ forall i j,
      (In (ADD i j) (sweep w h) <-> 0 <= i <= w - 2 /\ 0 <= j <= h - 2)
      /\ (In (ADD_BORDER i j) (sweep w h) <->
          -1 <= i <= w - 1 /\ -1 <= j <= h - 1
          /\ (i = -1 \/ j = -1 \/ i = w - 1 \/ j = h - 1)).
Proof.
  intros Hw Hh. split.
  - apply (FOP_NoDup cell_lt); [apply cell_lt_irrefl|].
    apply FOP_map. exact (sweep_sorted w h Hw Hh).
  - apply sweep_In_kinds; assumption.
Qed.

Lemma sweep_visits_each_cell_once_witness :
  NoDup (map visit_cell (sweep 2 2)).
Proof.
  apply (proj1 (sweep_visits_each_cell_once 2 2 ltac:(lia) ltac:(lia))).
Defined.

(** ** The store during a sweep *)

(** At every point of a sweep between two calls of [addSegment] no two
    stored segments start in the same lattice vertex, no two end in the same
    one, and the [prev] links match the [next] links: if [B.prev = A] then
    [A.next = B] and [A.end = B.start]. *)
Theorem sweep_store_unique_and_back_linked (cf : FindContour)
        (raster : Raster) (pre post : list Call) (cb : Builder) :
  sweep_calls cf raster = pre ++ post ->
  run_calls cf (Builder_init (width raster) (height raster)) pre = Ok cb ->
  unique_starts (segments cb) /\ unique_ends (segments cb)
  /\ back_links_consistent (segments cb).
Proof.
  intros Hsplit Hrun.
  destruct (sweep_prefix_ok cf raster pre post cb Hsplit Hrun)
    as [[Hs He _ Hb] _].
  auto.
Qed.

Lemma sweep_store_unique_and_back_linked_witness :
  exists cb : Builder,
    run_calls default_cf (Builder_init 2 2)
              (sweep_calls default_cf raster_saddle) = Ok cb
    /\ unique_starts (segments cb) /\ unique_ends (segments cb)
    /\ back_links_consistent (segments cb).
Proof.
  eexists. split; [vm_compute; reflexivity|].
  apply (sweep_store_unique_and_back_linked default_cf raster_saddle
           (sweep_calls default_cf raster_saddle) []).
  - symmetry. apply app_nil_r.
  - vm_compute. reflexivity.
Defined.

(** ** The call that runs on from the case [b0010] *)

Lemma fresh_of_compatible (pre : list Call) (m : SegmentMap) (c : Call) :
  is_fallthrough c = false ->
  covered pre m ->
  Forall (fun q => compatible q c) pre ->
  findByStart m (call_start c) = None /\ findByEnd m (call_end c) = None.
Proof.
  intros Hf Hcov Hall. rewrite Forall_forall in Hall.
  unfold compatible in Hall. rewrite Hf in Hall. split.
  - apply findByStart_is_None. intros k x Hx E.
    destruct (Hcov k x Hx) as [q [Hq [Hs _]]].
    destruct (Hall q Hq) as [H _]. congruence.
  - apply findByEnd_is_None. intros k x Hx E.
    destruct (Hcov k x Hx) as [q [Hq [_ He]]].
    destruct (Hall q Hq) as [_ H]. congruence.
Qed.

Lemma stranded_of_compatible (pre : list Call) (m : SegmentMap) (c : Call) :
  is_fallthrough c = true ->
  covered pre m ->
  Forall (fun q => compatible q c) pre ->
  findByEnd m (call_start c) = None /\ findByStart m (call_end c) = None.
Proof.
  intros Hf Hcov Hall. rewrite Forall_forall in Hall.
  unfold compatible in Hall. rewrite Hf in Hall. split.
  - apply findByEnd_is_None. intros k x Hx E.
    destruct (Hcov k x Hx) as [q [Hq [_ He]]].
    destruct (Hall q Hq) as [H _]. congruence.
  - apply findByStart_is_None. intros k x Hx E.
    destruct (Hcov k x Hx) as [q [Hq [Hs _]]].
    destruct (Hall q Hq) as [_ H]. congruence.
Qed.

Lemma marks_noop (i j : Z) (marks : list (Z * Z)) (m : RasterMask) :
  (forall XY, In XY marks ->
     in_bounds (mask_width m) (mask_height m) (i + fst XY) (j + snd XY)
     = false
     \/ mask_get m (i + fst XY) (j + snd XY) = true) ->
  fold_left (SET_BORDER i j) marks m = m.
Proof.
  induction marks as [|XY marks IH]; intros H; simpl; [reflexivity|].
  assert (E : SET_BORDER i j m XY = m).
  { unfold SET_BORDER, mask_put.
    destruct (H XY (or_introl eq_refl)) as [-> | Hg]; [reflexivity|].
    rewrite Hg. destruct (in_bounds _ _ _ _); reflexivity. }
  rewrite E. apply IH. intros XY' Hin. apply H. simpl; auto.
Qed.

Lemma setBorder_idempotent (m : RasterMask) (type : CellType) (i j : Z) :
  setBorder (setBorder m type i j) type i j = setBorder m type i j.
Proof.
  unfold setBorder at 1. apply marks_noop. intros [X Y] Hin.
  cbn [fst snd]. unfold setBorder.
  destruct (marks_dims i j (setBorder_marks type) m) as [-> ->].
  destruct (in_bounds (mask_width m) (mask_height m) (i + X) (j + Y))
    eqn:Hb; [right | left; reflexivity].
  apply marks_get. right. split; [exact Hb|].
  replace (i + X - i) with X by lia. replace (j + Y - j) with Y by lia.
  exact Hin.
Qed.

(** A call that is new at both ends leaves its segment in the store. *)
Lemma addSegment_stores (cf : FindContour) (b b' : Builder) (c : Call) :
  findByStart (segments b) (call_start c) = None ->
  findByEnd (segments b) (call_end c) = None ->
  run_call cf b c = Ok b' ->
  exists k x, nth_error (segments b') k = Some x
              /\ seg_start x = call_start c /\ seg_end x = call_end c.
Proof.
  intros Hs He H. unfold run_call in H. apply addSegment_inv in H.
  destruct H as [Hshape _].
  pose proof (linked_store_fresh_nth (segments b) (call_type c)
                (call_direction c) _ _ (length (segments b)) Hs He) as Hn.
  cbv zeta in Hn. rewrite Nat.ltb_irrefl, Nat.eqb_refl in Hn.
  assert (Hs' : shape (linked_store (segments b) (call_type c)
                         (call_direction c) (call_start c) (call_end c))
                = shape (segments b')) by (symmetry; exact Hshape).
  destruct (shape_fields _ _ _ _ Hs' Hn) as [x [Hx [E1 [E2 _]]]].
  exists (length (segments b)), x. simpl in E1, E2. auto.
Qed.

(** In a sweep, the third call of [addBorder] for a cell with code 0b0010,
    the one that comes from the case 0b0011, changes nothing: the store
    refuses its segment, the segment has no neighbour, and the border pixel
    is set already.  [addBorder] behaves as if the case ended after its two
    segments. *)
Theorem run_on_call_changes_nothing (cf : FindContour) (raster : Raster)
        (vs1 vs2 : list Visit) (i j : Z) (cb0 : Builder) :
  sweep (width raster) (height raster) = vs1 ++ ADD_BORDER i j :: vs2 ->
  getFlags raster i j = b0010 ->
  run_sweep cf raster (Builder_init (width raster) (height raster)) vs1
  = Ok cb0 ->
  addBorder cf cb0 i j b0010
  = run_calls cf cb0 [ADD_SEGMENT b0010 i j Direction.u 1 2 1 1;
                      ADD_SEGMENT b0010 i j Direction.r 1 1 2 1].
Proof.
  intros Hsweep Hcode Hrun0.
  set (c1 := ADD_SEGMENT b0010 i j Direction.u 1 2 1 1).
  set (c2 := ADD_SEGMENT b0010 i j Direction.r 1 1 2 1).
  set (c3 := ADD_SEGMENT b0010 i j Direction.r 0 1 2 1).
  set (pre0 := flat_map (visit_calls cf raster) vs1).
  set (rest := flat_map (visit_calls cf raster) vs2).
  assert (Hcalls : sweep_calls cf raster = pre0 ++ [c1; c2; c3] ++ rest).
  { unfold sweep_calls. rewrite Hsweep, flat_map_app. simpl.
    rewrite Hcode. reflexivity. }
  rewrite run_sweep_calls in Hrun0. fold pre0 in Hrun0.
  change (addBorder cf cb0 i j b0010)
    with (run_calls cf cb0 ([c1; c2] ++ [c3])).
  rewrite run_calls_app.
  destruct (run_calls cf cb0 [c1; c2]) as [cb2|f] eqn:E2;
    [|reflexivity].
  cbn [bind run_calls].
  assert (H3 : run_call cf cb2 c3 = Ok cb2); [|rewrite H3; reflexivity].
  (* the builder before the second call *)
  simpl in E2. apply bind_Ok in E2. destruct E2 as [cb1 [E1 E2]].
  apply bind_Ok in E2. destruct E2 as [cb2' [E2 E2']].
  injection E2' as ->.
  pose proof (sweep_calls_compatible cf raster) as Hfop.
  assert (Hrun1 : run_calls cf (Builder_init (width raster)
                                             (height raster))
                            (pre0 ++ [c1]) = Ok cb1).
  { rewrite run_calls_app, Hrun0. simpl. rewrite E1. reflexivity. }
  assert (Hrun2 : run_calls cf (Builder_init (width raster)
                                             (height raster))
                            ((pre0 ++ [c1]) ++ [c2]) = Ok cb2).
  { rewrite run_calls_app, Hrun1. simpl. rewrite E2. reflexivity. }
  assert (Hsplit1 : sweep_calls cf raster
                    = (pre0 ++ [c1]) ++ c2 :: c3 :: rest)
    by (rewrite Hcalls, <- app_assoc; reflexivity).
  assert (Hsplit2 : sweep_calls cf raster
                    = ((pre0 ++ [c1]) ++ [c2]) ++ c3 :: rest)
    by (rewrite Hcalls, <- !app_assoc; reflexivity).
  destruct (sweep_prefix_ok cf raster _ _ cb1 Hsplit1 Hrun1)
    as [_ [Hcov1 _]].
  destruct (sweep_prefix_ok cf raster _ _ cb2 Hsplit2 Hrun2)
    as [_ [Hcov2 _]].
  (* the second call is new at both ends and is stored *)
  assert (Hf2 : is_fallthrough c2 = false) by (unfold c2; not_fallthrough).
  destruct (fresh_of_compatible _ _ c2 Hf2 Hcov1) as [Hs2 He2].
  { rewrite Hsplit1 in Hfop. exact (ForallOrdPairs_before _ _ _ _ Hfop). }
  destruct (addSegment_stores cf cb1 cb2 c2 Hs2 He2 E2)
    as [k2 [x2 [Hx2 [_ Hend2]]]].
  (* the third call has no neighbour *)
  assert (Hf3 : is_fallthrough c3 = true)
    by (apply is_fallthrough_true; split; reflexivity).
  destruct (stranded_of_compatible _ _ c3 Hf3 Hcov2) as [Hp3 Hn3].
  { rewrite Hsplit2 in Hfop. exact (ForallOrdPairs_before _ _ _ _ Hfop). }
  (* and its border pixel is set *)
  assert (Hborder : setBorder (border (contour cb2)) b0010 i j
                    = border (contour cb2)).
  { unfold run_call in E2. apply addSegment_border in E2.
    cbn [c2 ADD_SEGMENT call_type call_i call_j] in E2.
    rewrite E2. apply setBorder_idempotent. }
  unfold run_call, addSegment.
  cbn [c3 ADD_SEGMENT call_type call_i call_j call_start call_end
       call_direction segments contour rings border].
  cbn [c3 ADD_SEGMENT call_start call_end] in Hp3, Hn3.
  rewrite Hp3, Hn3, Hborder.
  assert (Hins : forall x,
             seg_end x = (i * 2 + 2, j * 2 + 1) ->
             fst (insert (segments cb2) x) = segments cb2).
  { intros x Hx. unfold insert.
    destruct (findByStart (segments cb2) (seg_start x)); [reflexivity|].
    destruct (findByEnd (segments cb2) (seg_end x)) eqn:Ee; [reflexivity|].
    exfalso. rewrite Hx in Ee.
    exact (findByEnd_None _ _ Ee k2 x2 Hx2 Hend2). }
  match goal with
  | |- context [insert (segments cb2) ?x] =>
      specialize (Hins x eq_refl);
      destruct (insert (segments cb2) x) as [m s]
  end.
  simpl in Hins. subst m.
  destruct cb2 as [m2 [rs bd]]. reflexivity.
Qed.

Lemma run_on_call_changes_nothing_witness :
  addBorder default_cf (Builder_init 1 1) (-1) (-1) b0010
  = run_calls default_cf (Builder_init 1 1)
              [ADD_SEGMENT b0010 (-1) (-1) Direction.u 1 2 1 1;
               ADD_SEGMENT b0010 (-1) (-1) Direction.r 1 1 2 1].
Proof.
  apply (run_on_call_changes_nothing default_cf raster_1x1 []
           [ADD_BORDER 0 (-1); ADD_BORDER (-1) 0; ADD_BORDER 0 0]);
    reflexivity.
Defined.

(** ** Which set pixels are in the border mask *)

Lemma cell_visited (w h i j : Z) :
  1 <= w -> 1 <= h -> -1 <= i <= w - 1 -> -1 <= j <= h - 1 ->
  exists v, In v (sweep w h) /\ visit_cell v = (i, j).
Proof.
  intros Hw Hh Hi Hj.
  pose proof (sweep_In_kinds w h Hw Hh) as H.
  destruct (H i j) as [Hadd Hborder].
  destruct (Z.eq_dec i (-1)); [exists (ADD_BORDER i j); split;
    [apply Hborder; lia | reflexivity]|].
  destruct (Z.eq_dec j (-1)); [exists (ADD_BORDER i j); split;
    [apply Hborder; lia | reflexivity]|].
  destruct (Z.eq_dec i (w - 1)); [exists (ADD_BORDER i j); split;
    [apply Hborder; lia | reflexivity]|].
  destruct (Z.eq_dec j (h - 1)); [exists (ADD_BORDER i j); split;
    [apply Hborder; lia | reflexivity]|].
  exists (ADD i j). split; [apply Hadd; lia | reflexivity].
Qed.

Lemma unit_cases (a : Z) : 0 <= a <= 1 -> a = 0 \/ a = 1.
Proof. lia. Qed.

Lemma cell_marks_set_corner (raster : Raster) (i j a b a' b' : Z) :
  0 <= a <= 1 -> 0 <= b <= 1 -> 0 <= a' <= 1 -> 0 <= b' <= 1 ->
  get raster (i + a) (j + b) = true ->
  get raster (i + a') (j + b') = false ->
  getFlags raster i j <> b0000 /\ getFlags raster i j <> b1111
  /\ In (a, b) (table_marks (getFlags raster i j)).
Proof.
  intros Ha Hb Ha' Hb' Hset Hunset.
  apply unit_cases in Ha, Hb, Ha', Hb'.
  rewrite getFlags_code.
  destruct Ha as [-> | ->], Hb as [-> | ->], Ha' as [-> | ->],
    Hb' as [-> | ->];
    repeat rewrite Z.add_0_r in Hset;
    repeat rewrite Z.add_0_r in Hunset;
    try congruence;
    rewrite ?Hset, ?Hunset;
    repeat match goal with
           | |- context [get raster ?x ?y] => destruct (get raster x y)
           end;
    vm_compute; repeat split; try discriminate; auto 6.
Qed.

Lemma table_marks_corners (type : CellType) (off : Z * Z) :
  In off (table_marks type) -> In off all_corners.
Proof.
  unfold table_marks.
  destruct ((type =? b0000) || (type =? b1111)); [intros []|].
  destruct (is_saddle type || three_bits type); [auto|].
  unfold set_corners. intros H. apply in_map_iff in H.
  destruct H as [k [<- _]]. unfold corner_of_bit, all_corners.
  destruct k as [|p|p]; simpl; auto 6.
  destruct p as [p|p|]; simpl; auto 6.
  destruct p; simpl; auto 6.
Qed.

Lemma marked_corner_has_unset (raster : Raster) (i j a b : Z) :
  getFlags raster i j <> b1111 ->
  In (a, b) (table_marks (getFlags raster i j)) ->
  0 <= a <= 1 /\ 0 <= b <= 1
  /\ exists a' b', 0 <= a' <= 1 /\ 0 <= b' <= 1
                   /\ get raster (i + a') (j + b') = false.
Proof.
  rewrite getFlags_code. intros H15 Hin.
  assert (Hab : 0 <= a <= 1 /\ 0 <= b <= 1).
  { apply table_marks_corners in Hin. unfold all_corners in Hin.
    simpl in Hin.
    destruct Hin as [H|[H|[H|[H|[]]]]]; injection H as <- <-; lia. }
  split; [tauto|]. split; [tauto|].
  destruct (get raster i (j + 1)) eqn:G0;
    [|exists 0, 1; rewrite Z.add_0_r; repeat split; try lia; exact G0].
  destruct (get raster (i + 1) (j + 1)) eqn:G1;
    [|exists 1, 1; repeat split; try lia; exact G1].
  destruct (get raster (i + 1) j) eqn:G2;
    [|exists 1, 0; rewrite Z.add_0_r; repeat split; try lia; exact G2].
  destruct (get raster i j) eqn:G3;
    [|exists 0, 0; rewrite !Z.add_0_r; repeat split; try lia; exact G3].
  elim H15. reflexivity.
Qed.

Lemma get_true_in_bounds (raster : Raster) (x y : Z) :
  get raster x y = true ->
  in_bounds (width raster) (height raster) x y = true.
Proof.
  unfold get. destruct (in_bounds _ _ x y); [reflexivity | discriminate].
Qed.

Lemma in_bounds_range (w h x y : Z) :
  in_bounds w h x y = true -> 0 <= x < w /\ 0 <= y < h.
Proof.
  unfold in_bounds. rewrite !andb_true_iff, !Z.leb_le, !Z.ltb_lt. lia.
Qed.

Lemma border_mask_marks (cf : FindContour) (raster : Raster) (c : Contour) :
  answers_saddles cf ->
  find_contour cf raster = Ok c ->
  forall x y,
    mask_get (border c) x y = true <->
    at_corner_of_visited table_marks raster x y.
Proof.
  intros Hs H x y.
  apply find_contour_calls in H. destruct H as [cb [H <-]].
  destruct (run_calls_border cf _ _ _ x y H) as [_ Hg].
  rewrite Hg. cbn [Builder_init contour border mask_width mask_height].
  unfold at_corner_of_visited, sweep_calls. split.
  - intros [Hf|[Hb [k [Hin Hm]]]]; [discriminate|].
    split; [exact Hb|].
    apply in_flat_map in Hin. destruct Hin as [v [Hv Hk]].
    exists v. split; [exact Hv|].
    destruct (visit_calls_tag cf raster v k Hk) as [Hi [Hj [H0 [H15 Ht]]]].
    split; [exact H0|]. split; [exact H15|].
    rewrite Hi, Hj in Hm.
    refine (proj1 (marks_of_call_type _ _ _ _ Ht) Hm).
    rewrite getFlags_code. apply code_of_range.
  - intros [Hb [v [Hv [H0 [H15 Hm]]]]]. right. split; [exact Hb|].
    destruct (visit_calls_exist cf raster v Hs H0 H15) as [k Hk].
    exists k. split; [apply in_flat_map; exists v; auto|].
    destruct (visit_calls_tag cf raster v k Hk) as [Hi [Hj [_ [_ Ht]]]].
    rewrite Hi, Hj.
    refine (proj2 (marks_of_call_type _ _ _ _ Ht) Hm).
    rewrite getFlags_code. apply code_of_range.
Qed.

(** A pixel that is set in the raster is marked in the border mask exactly
    when one of its eight neighbours, inside the raster or outside of it, is
    not set (for a policy that answers saddle codes with saddle codes). *)
Theorem set_pixel_marked_iff_neighbour_unset (cf : FindContour)
        (raster : Raster) (c : Contour) (x y : Z) :
  answers_saddles cf ->
  find_contour cf raster = Ok c ->
  get raster x y = true ->
  mask_get (border c) x y = true <->
  exists dx dy, -1 <= dx <= 1 /\ -1 <= dy <= 1
                /\ get raster (x + dx) (y + dy) = false.
Proof.
  intros Hs Hc Hset.
  rewrite (border_mask_marks cf raster c Hs Hc x y).
  pose proof (get_true_in_bounds raster x y Hset) as Hb.
  pose proof (in_bounds_range _ _ _ _ Hb) as [Hx Hy].
  unfold at_corner_of_visited. split.
  - intros [_ [v [_ [_ [H15 Hin]]]]].
    destruct (visit_cell v) as [i j]. cbn [fst snd] in *.
    destruct (marked_corner_has_unset raster i j _ _ H15 Hin)
      as [Ha [Hb' [a' [b' [Ha' [Hb'' Hunset]]]]]].
    exists (i + a' - x), (j + b' - y). split; [lia|]. split; [lia|].
    replace (x + (i + a' - x)) with (i + a') by lia.
    replace (y + (j + b' - y)) with (j + b') by lia.
    exact Hunset.
  - intros [dx [dy [Hdx [Hdy Hunset]]]]. split; [exact Hb|].
    set (i := x + Z.min dx 0). set (j := y + Z.min dy 0).
    destruct (cell_visited (width raster) (height raster) i j)
      as [v [Hv Hcell]]; try (unfold i, j; lia).
    exists v. split; [exact Hv|]. rewrite Hcell. cbn [fst snd].
    destruct (cell_marks_set_corner raster i j (x - i) (y - j)
                (x + dx - i) (y + dy - j)) as [H0 [H15 Hin]];
      try (unfold i, j; lia).
    + replace (i + (x - i)) with x by lia.
      replace (j + (y - j)) with y by lia. exact Hset.
    + replace (i + (x + dx - i)) with (x + dx) by lia.
      replace (j + (y + dy - j)) with (y + dy) by lia. exact Hunset.
    + auto.
Qed.

Lemma set_pixel_marked_iff_neighbour_unset_witness :
  mask_get (mkMask 2 2 [(0, 0); (1, 0); (0, 1); (1, 1)]) 0 0 = true <->
  exists dx dy, -1 <= dx <= 1 /\ -1 <= dy <= 1
                /\ get raster_saddle (0 + dx) (0 + dy) = false.
Proof.
  apply (set_pixel_marked_iff_neighbour_unset default_cf raster_saddle
           (mkContour
              [[(-1 # 2, -1 # 2); (1 # 2, -1 # 2); (1 # 2, 0); (1, 1 # 2);
                (3 # 2, 1 # 2); (3 # 2, 3 # 2); (1 # 2, 3 # 2); (1 # 2, 1);
                (0, 1 # 2); (-1 # 2, 1 # 2)]%Q]
              (mkMask 2 2 [(0, 0); (1, 0); (0, 1); (1, 1)]))).
  - apply keep_type_answers_saddles.
  - vm_compute. reflexivity.
  - reflexivity.
Defined.

(** ** Runs that differ in the parameters only *)

Section TwoRuns.

Variable cf1 cf2 : FindContour.
Variable R : Polygon -> Polygon -> Prop.

Hypothesis extract_related :
  forall (m : SegmentMap) (head : SegPtr),
    rel_result R (extract_ring cf1 m head) (extract_ring cf2 m head).

Lemma addSegment_related (b1 b2 : Builder) (type : CellType)
      (dir : Direction.t) (i j : Z) (st en : Vertex) :
  rel_builder R b1 b2 ->
  rel_result (rel_builder R)
             (addSegment cf1 b1 type dir i j st en)
             (addSegment cf2 b2 type dir i j st en).
Proof.
  destruct b1 as [m1 [rs1 bd1]], b2 as [m2 [rs2 bd2]].
  intros [Hm [Hb Hr]]. simpl in Hm, Hb, Hr. subst m2 bd2.
  unfold addSegment, extract, with_segments, distributeRingLeaderPrev,
    distributeRingLeaderNext.
  cbn [segments contour rings border].
  destruct (insert _ _) as [m s].
  destruct (findByEnd m1 st) as [p|];
    destruct (findByStart m1 en) as [n|];
    try (simpl; repeat split; assumption);
    destruct (link m s _ _) as [[m2 pl] nl];
    destruct pl as [pl|], nl as [nl|];
    try (destruct (negb (Nat.eqb pl nl)));
    try (simpl; repeat split; assumption);
    try (match goal with
         | |- context [distributeRingLeader ?f ?m ?k] =>
             destruct (distributeRingLeader f m k)
         end; simpl; repeat split; auto; assumption);
    match goal with
    | |- context [extract_ring cf1 ?m ?h] =>
        pose proof (extract_related m h) as He;
        destruct (extract_ring cf1 m h), (extract_ring cf2 m h)
    end; simpl in He |- *; try contradiction; try exact He;
    (split; [reflexivity|]; split; [reflexivity|];
     apply Forall2_app; [exact Hr|];
     apply Forall2_cons; [exact He | apply Forall2_nil]).
Qed.

Lemma run_calls_related (cs : list Call) :
  forall b1 b2,
    rel_builder R b1 b2 ->
    rel_result (rel_builder R) (run_calls cf1 b1 cs) (run_calls cf2 b2 cs).
Proof.
  induction cs as [|c cs IH]; intros b1 b2 Hb; simpl; [exact Hb|].
  unfold run_call.
  pose proof (addSegment_related b1 b2 (call_type c) (call_direction c)
                (call_i c) (call_j c) (call_start c) (call_end c) Hb) as H.
  destruct (addSegment cf1 b1 _ _ _ _ _ _) as [b1'|f1],
    (addSegment cf2 b2 _ _ _ _ _ _) as [b2'|f2]; simpl in H |- *;
    try contradiction; [apply IH; exact H | exact H].
Qed.

Lemma find_contour_related (raster : Raster) :
  sweep_calls cf1 raster = sweep_calls cf2 raster ->
  rel_result (rel_contour R) (find_contour cf1 raster)
             (find_contour cf2 raster).
Proof.
  intros Hcalls. unfold find_contour. rewrite !run_sweep_calls.
  fold (sweep_calls cf1 raster). fold (sweep_calls cf2 raster).
  rewrite <- Hcalls.
  pose proof (run_calls_related (sweep_calls cf1 raster)
                (Builder_init (width raster) (height raster))
                (Builder_init (width raster) (height raster))) as H.
  destruct (run_calls cf1 _ _) as [b1|f1], (run_calls cf2 _ _) as [b2|f2];
    simpl in H |- *.
  - destruct H as [_ [Hb Hr]]; [|split; assumption].
    repeat split; constructor.
  - apply H. repeat split; constructor.
  - apply H. repeat split; constructor.
  - apply H. repeat split; constructor.
Qed.

End TwoRuns.

Lemma sweep_calls_same_policy (cf1 cf2 : FindContour) (raster : Raster) :
  (forall v t, ambiguousType cf1 v t = ambiguousType cf2 v t) ->
  sweep_calls cf1 raster = sweep_calls cf2 raster.
Proof.
  intros same_policy.
  unfold sweep_calls. apply flat_map_ext. intros [x y|x y]; [|reflexivity].
  cbn [visit_calls]. unfold add_calls, addAmbiguous_calls.
  rewrite !same_policy. reflexivity.
Qed.

Lemma Forall2_map_eq {A : Type} (f : A -> A) (l1 l2 : list A) :
  Forall2 (fun a b => b = f a) l1 l2 -> l2 = map f l1.
Proof.
  induction 1 as [|a b l1 l2 H _ IH]; simpl; [reflexivity|].
  rewrite H, IH. reflexivity.
Qed.

(** ** The pixel origin only translates the rings *)

Lemma to_pixel_corner (join : bool) (amb : Vertex -> CellType -> CellType)
      (v : Vertex) :
  to_pixel (mkFindContour corner join amb) v
  = half_pixel_shift (to_pixel (mkFindContour center join amb) v).
Proof.
  unfold to_pixel, half_pixel_shift, offset. cbn [pixelOrigin fst snd].
  f_equal; apply Qred_complete; rewrite Qred_correct; ring.
Qed.

Lemma extract_loop_origin (join : bool)
      (amb : Vertex -> CellType -> CellType) (m : SegmentMap)
      (head end_ : nat) (fuel : nat) :
  forall (p : Segment) (s : SegPtr) (ring : Polygon),
    rel_result (fun r1 r2 => r2 = map half_pixel_shift r1)
      (extract_loop (mkFindContour center join amb) m head end_ fuel p s
                    ring)
      (extract_loop (mkFindContour corner join amb) m head end_ fuel p s
                    (map half_pixel_shift ring)).
Proof.
  induction fuel as [|fuel IH]; intros p s ring; simpl;
    destruct (SegPtr_eqb s (Some end_)); simpl; try reflexivity.
  destruct s as [k|]; simpl; [|reflexivity].
  destruct (nth_error m k) as [sk|]; simpl; [|reflexivity].
  destruct (negb (SegPtr_eqb (seg_ringLeader sk) (Some head))); simpl;
    [reflexivity|].
  destruct (seg_next sk) as [k'|]; simpl; [|reflexivity].
  destruct (negb join
            || negb (Direction.eqb (seg_direction sk) (seg_direction p))).
  - replace (addVertex (mkFindContour corner join amb)
                       (map half_pixel_shift ring) (seg_start sk))
      with (map half_pixel_shift
                (addVertex (mkFindContour center join amb) ring
                           (seg_start sk))); [apply IH|].
    unfold addVertex. rewrite map_app. simpl.
    rewrite to_pixel_corner. reflexivity.
  - apply IH.
Qed.

Lemma extract_ring_origin (join : bool)
      (amb : Vertex -> CellType -> CellType) (m : SegmentMap)
      (head : SegPtr) :
  rel_result (fun r1 r2 => r2 = map half_pixel_shift r1)
    (extract_ring (mkFindContour center join amb) m head)
    (extract_ring (mkFindContour corner join amb) m head).
Proof.
  unfold extract_ring. destruct head as [hk|]; [|reflexivity].
  destruct (nth_error m hk) as [h|]; [|reflexivity].
  destruct (extract_end m hk) as [e|f]; cbn [bind]; [|reflexivity].
  replace (addVertex (mkFindContour corner join amb) [] (seg_start h))
    with (map half_pixel_shift
              (addVertex (mkFindContour center join amb) []
                         (seg_start h))).
  - apply extract_loop_origin.
  - unfold addVertex. cbn [map app]. rewrite to_pixel_corner. reflexivity.
Qed.

(** With the pixel origin at the corner [find_contour] fails or returns as
    it does with the origin at the centre, and what it returns is the same
    border mask and the same rings moved by half a pixel in x and in y. *)
Theorem corner_origin_shifts_rings (join : bool)
        (amb : Vertex -> CellType -> CellType) (raster : Raster) :
  find_contour (mkFindContour corner join amb) raster
  = (c <- find_contour (mkFindContour center join amb) raster ;;
     Ok (mkContour (map (map half_pixel_shift) (rings c)) (border c))).
Proof.
  pose proof (find_contour_related
                (mkFindContour center join amb)
                (mkFindContour corner join amb)
                (fun r1 r2 => r2 = map half_pixel_shift r1)
                (extract_ring_origin join amb) raster
                (sweep_calls_same_policy _ _ raster
                                         (fun v t => eq_refl))) as H.
  destruct (find_contour (mkFindContour center join amb) raster) as [c1|f1],
    (find_contour (mkFindContour corner join amb) raster) as [c2|f2];
    simpl in H |- *; try contradiction; [|rewrite H; reflexivity].
  destruct H as [Hb Hr]. apply Forall2_map_eq in Hr.
  destruct c2 as [rs2 bd2]. cbn [rings border] in Hb, Hr.
  rewrite Hr, <- Hb. reflexivity.
Qed.

(** ** Joining straight segments only leaves vertices out *)

Lemma Subsequence_snoc {A : Type} (l1 l2 : list A) (x : A) :
  Subsequence l1 l2 ->
  Subsequence l1 (l2 ++ [x]) /\ Subsequence (l1 ++ [x]) (l2 ++ [x]).
Proof.
  intros H. split.
  - rewrite <- (app_nil_r l1). apply Subsequence_app; [exact H|].
    apply Subsequence_nil_l.
  - apply Subsequence_app; [exact H | apply Subsequence_refl].
Qed.

Lemma extract_loop_join (origin : PixelOrigin)
      (amb : Vertex -> CellType -> CellType) (m : SegmentMap)
      (head end_ : nat) (fuel : nat) :
  forall (p : Segment) (s : SegPtr) (ring1 ring2 : Polygon),
    Subsequence ring2 ring1 ->
    rel_result (fun r1 r2 => Subsequence r2 r1)
      (extract_loop (mkFindContour origin false amb) m head end_ fuel p s
                    ring1)
      (extract_loop (mkFindContour origin true amb) m head end_ fuel p s
                    ring2).
Proof.
  induction fuel as [|fuel IH]; intros p s ring1 ring2 Hsub; simpl;
    destruct (SegPtr_eqb s (Some end_)); simpl; try reflexivity;
    try exact Hsub.
  destruct s as [k|]; simpl; [|reflexivity].
  destruct (nth_error m k) as [sk|]; simpl; [|reflexivity].
  destruct (negb (SegPtr_eqb (seg_ringLeader sk) (Some head))); simpl;
    [reflexivity|].
  destruct (seg_next sk) as [k'|]; simpl; [|reflexivity].
  unfold addVertex.
  destruct (negb (Direction.eqb (seg_direction sk) (seg_direction p)));
    apply IH; apply Subsequence_snoc; exact Hsub.
Qed.

Lemma extract_ring_join (origin : PixelOrigin)
      (amb : Vertex -> CellType -> CellType) (m : SegmentMap)
      (head : SegPtr) :
  rel_result (fun r1 r2 => Subsequence r2 r1)
    (extract_ring (mkFindContour origin false amb) m head)
    (extract_ring (mkFindContour origin true amb) m head).
Proof.
  unfold extract_ring. destruct head as [hk|]; [|reflexivity].
  destruct (nth_error m hk) as [h|]; [|reflexivity].
  destruct (extract_end m hk) as [e|f]; cbn [bind]; [|reflexivity].
  apply extract_loop_join. apply Subsequence_refl.
Qed.

(** With [joinStraightSegments] set [find_contour] fails or returns as it
    does without; it returns the same border mask and as many rings, and
    each ring is the ring found without joining with some vertices left
    out. *)
Theorem joined_rings_are_subsequences (origin : PixelOrigin)
        (amb : Vertex -> CellType -> CellType) (raster : Raster) :
  rel_result (rel_contour (fun r1 r2 => Subsequence r2 r1))
    (find_contour (mkFindContour origin false amb) raster)
    (find_contour (mkFindContour origin true amb) raster).
Proof.
  apply find_contour_related.
  - apply extract_ring_join.
  - apply sweep_calls_same_policy. reflexivity.
Qed.

(** ** Where the policy for ambiguous cells is consulted *)








(** ** Locked points stay in the ring *)

Section SimplifyKeeps.

Variable double : Type.
Variable dlt : double -> double -> bool.
Variable dsub dmul : double -> double -> double.
Variable dabs : double -> double.
Variable dlit : Z -> double.
Variable infinity : double.
Variable isfinite : double -> bool.
Variable point_lt : P2 double -> P2 double -> bool.
Variable make_heap : (nat -> nat -> bool) -> list nat -> list nat.

(** [std::make_heap] rearranges the range: it brings in no new element. *)
Hypothesis make_heap_In :
  forall comp l x, In x (make_heap comp l) -> In x l.

Local Abbreviation work_area' :=
  (work_area double dsub dmul dabs infinity point_lt).
Local Abbreviation locked' := (is_locked double point_lt).

Local Abbreviation holds := (holds double).

Lemma position_nth (points : LinkedPoints double) (id : nat) :
  forall k, position double points id = Some k ->
    exists n, nth_error points k = Some n /\ node_id double n = id.
Proof.
  induction points as [|n points IH]; intros k H; simpl in H;
    [discriminate|].
  destruct (Nat.eqb (node_id double n) id) eqn:E.
  - injection H as <-. apply Nat.eqb_eq in E. exists n. auto.
  - destruct (position double points id) as [k'|]; [|discriminate].
    injection H as <-. apply IH. reflexivity.
Qed.

Lemma erase_holds (points : LinkedPoints double) (i : nat) (p : P2 double) :
  forall k nk,
    nth_error points k = Some nk -> node_id double nk <> i ->
    holds points i p -> holds (erase double points k) i p.
Proof.
  induction points as [|n points IH]; intros k nk Hk Hne [n0 [Hin [Hid Hxy]]];
    [destruct Hin|].
  destruct k as [|k]; simpl in Hk |- *.
  - injection Hk as ->. destruct Hin as [->|Hin]; [congruence|].
    exists n0. auto.
  - destruct Hin as [->|Hin].
    + exists n0. simpl. auto.
    + destruct (IH k nk Hk Hne) as [n1 [H1 H2]]; [exists n0; auto|].
      exists n1. simpl. auto.
Qed.

Lemma update_cost_holds (points : LinkedPoints double) (i : nat)
      (p : P2 double) (k : nat) (c : double) :
  holds points i p -> holds (update_cost double points k c) i p.
Proof.
  revert k. induction points as [|n points IH];
    intros k [n0 [Hin [Hid Hxy]]]; [destruct Hin|].
  destruct k as [|k]; simpl.
  - destruct Hin as [->|Hin].
    + exists (set_cost double n0 c). simpl. auto.
    + exists n0. simpl. auto.
  - destruct Hin as [->|Hin].
    + exists n0. simpl. auto.
    + destruct (IH k) as [n1 [H1 H2]]; [exists n0; auto|].
      exists n1. simpl. auto.
Qed.

Lemma holds_if (b : bool) (points : LinkedPoints double) (i : nat)
      (p : P2 double) (k : nat) (c : double) :
  holds points i p ->
  holds (if b then update_cost double points k c else points) i p.
Proof. destruct b; [apply update_cost_holds | auto]. Qed.

Lemma remove_point_holds (points points' : LinkedPoints double)
      (i : nat) (p : P2 double) (k : nat) (nk : Node double) :
  nth_error points k = Some nk -> node_id double nk <> i ->
  holds points i p ->
  remove_point double dsub dmul dabs isfinite points k = Ok points' ->
  holds points' i p.
Proof.
  intros Hk Hne Hh H. unfold remove_point in H.
  pose proof (erase_holds points i p k nk Hk Hne Hh) as He.
  destruct (erase double points k) as [|n0 rest]; [discriminate|].
  match type of H with
  | Ok ?t = Ok _ => assert (Ht : points' = t) by congruence
  end.
  rewrite Ht. cbv zeta. apply holds_if. apply holds_if. exact He.
Qed.

Lemma simplify_loop_holds (i : nat) (p : P2 double) (stop : double)
      (fuel : nat) :
  forall (heap : list nat) (points points' : LinkedPoints double),
    ~ In i heap -> holds points i p ->
    simplify_loop double dlt dsub dmul dabs isfinite make_heap
                  fuel stop heap points = Ok points' ->
    holds points' i p.
Proof.
  induction fuel as [|fuel IH]; intros heap points points' Hni Hh H;
    simpl in H.
  - injection H as <-. exact Hh.
  - destruct heap as [|h heap]; [injection H as <-; exact Hh|].
    destruct (make_heap _ (h :: heap)) as [|point heap'] eqn:Emh;
      [injection H as <-; exact Hh|].
    assert (Hsub : forall x, In x (point :: heap') -> In x (h :: heap)).
    { intros x Hx.
      apply (make_heap_In (compare double dlt points) (h :: heap) x).
      rewrite Emh. exact Hx. }
    destruct (position double points point) as [k|] eqn:Ek;
      [|discriminate].
    destruct (lookup double points point) as [n|]; [|discriminate].
    destruct (dlt stop (node_cost double n)).
    + injection H as <-. exact Hh.
    + apply bind_Ok in H. destruct H as [points1 [H1 H2]].
      destruct (position_nth points point k Ek) as [nk [Hk Hid]].
      apply (IH heap' points1 points').
      * intros Hin. apply Hni. apply Hsub. simpl; auto.
      * apply (remove_point_holds points points1 i p k nk Hk); auto.
        rewrite Hid. intros ->. apply Hni. apply Hsub. simpl; auto.
      * exact H2.
Qed.

Lemma work_area_entries (lockedPoints : LockedPoints double)
      (ring : list (P2 double)) (d : P2 double) :
  (2 <= length ring)%nat ->
  forall w, In w (work_area' lockedPoints ring d) <->
    exists i, (i < length ring)%nat
              /\ w = add_point double dsub dmul dabs infinity point_lt
                       lockedPoints i
                       (nth (if Nat.eqb i 0 then length ring - 1
                             else i - 1)%nat ring d)
                       (nth i ring d)
                       (nth (if Nat.eqb i (length ring - 1) then 0
                             else i + 1)%nat ring d).
Proof.
  intros Hn w. unfold work_area. rewrite !in_app_iff, in_map_iff. simpl.
  split.
  - intros [[<-|[]]|[[i [<- Hi]]|[<-|[]]]].
    + exists 0%nat. split; [lia|].
      destruct (Nat.eqb 0 (length ring - 1)) eqn:E;
        [apply Nat.eqb_eq in E; lia | reflexivity].
    + apply in_seq in Hi. exists i. split; [lia|].
      destruct (Nat.eqb i 0) eqn:E1; [apply Nat.eqb_eq in E1; lia|].
      destruct (Nat.eqb i (length ring - 1)) eqn:E2;
        [apply Nat.eqb_eq in E2; lia | reflexivity].
    + exists (length ring - 1)%nat. split; [lia|].
      destruct (Nat.eqb (length ring - 1) 0) eqn:E1;
        [apply Nat.eqb_eq in E1; lia|].
      rewrite Nat.eqb_refl.
      replace (length ring - 1 - 1)%nat with (length ring - 2)%nat by lia.
      reflexivity.
  - intros [i [Hi ->]].
    destruct (Nat.eq_dec i 0) as [->|H0].
    { left; left.
      destruct (Nat.eqb 0 (length ring - 1)) eqn:E;
        [apply Nat.eqb_eq in E; lia | reflexivity]. }
    destruct (Nat.eq_dec i (length ring - 1)) as [->|H1].
    { right; right; left.
      destruct (Nat.eqb (length ring - 1) 0) eqn:E1;
        [apply Nat.eqb_eq in E1; lia|].
      rewrite Nat.eqb_refl.
      replace (length ring - 1 - 1)%nat with (length ring - 2)%nat by lia.
      reflexivity. }
    right; left. exists i. split; [|apply in_seq; lia].
    destruct (Nat.eqb i 0) eqn:E1; [apply Nat.eqb_eq in E1; lia|].
    destruct (Nat.eqb i (length ring - 1)) eqn:E2;
      [apply Nat.eqb_eq in E2; lia | reflexivity].
Qed.

Lemma work_list_keeps_locked (ring : list (P2 double))
      (lockedPoints : LockedPoints double) (stop : double) (d : P2 double)
      (fuel i : nat) (points : LinkedPoints double) :
  (2 <= length ring)%nat -> (i < length ring)%nat ->
  locked' lockedPoints (nth i ring d) = true ->
  simplify_loop double dlt dsub dmul dabs isfinite make_heap fuel stop
    (map (fun w => node_id double (fst w))
         (filter snd (work_area' lockedPoints ring d)))
    (map fst (work_area' lockedPoints ring d)) = Ok points ->
  holds points i (nth i ring d).
Proof.
  intros Hn Hi Hlocked H1.
  pose proof (work_area_entries lockedPoints ring d Hn) as Hw.
  apply (simplify_loop_holds i (nth i ring d) _ _ _ _ points) in H1;
    [exact H1| |].
  - intros Hheap. apply in_map_iff in Hheap.
    destruct Hheap as [w [Hid Hwf]]. apply filter_In in Hwf.
    destruct Hwf as [Hwin Hflag]. apply Hw in Hwin.
    destruct Hwin as [i' [Hi' ->]]. unfold add_point in Hid, Hflag.
    destruct (negb (is_locked double point_lt lockedPoints
                              (nth i' ring d))) eqn:E;
      simpl in Hid, Hflag; [|discriminate].
    subst i'. rewrite Hlocked in E. discriminate.
  - exists (fst (add_point double dsub dmul dabs infinity point_lt
                   lockedPoints i
                   (nth (if Nat.eqb i 0 then length ring - 1
                         else i - 1)%nat ring d)
                   (nth i ring d)
                   (nth (if Nat.eqb i (length ring - 1) then 0
                         else i + 1)%nat ring d))).
    split; [apply in_map; apply Hw; exists i; auto|].
    unfold add_point. destruct (negb _); simpl; auto.
Qed.

Lemma simplify_rings_keep (lockedPoints : LockedPoints double)
      (p : P2 double) :
  locked' lockedPoints p = true ->
  forall rs out : list (list (P2 double)),
    simplify_rings double dlt dsub dmul dabs dlit infinity isfinite point_lt
                   make_heap lockedPoints rs = Ok out ->
    Forall2 (fun r' r => In p r -> In p r') out rs.
Proof.
  intros Hp. induction rs as [|ring rs IH]; intros out H; simpl in H.
  - injection H as <-. constructor.
  - apply bind_Ok in H. destruct H as [ring' [H1 H]].
    apply bind_Ok in H. destruct H as [rs' [H2 H]].
    injection H as <-. constructor; [|apply IH; exact H2].
    intros Hin. unfold simplifyRing in H1.
    destruct (length ring <=? 4)%nat eqn:Hn;
      [injection H1 as <-; exact Hin|].
    apply Nat.leb_gt in Hn.
    apply bind_Ok in H1. destruct H1 as [points [H1 H3]].
    injection H3 as <-.
    destruct (In_nth ring p (nth 0 ring (dlit 0, dlit 0)) Hin)
      as [i [Hi Hpi]].
    rewrite <- Hpi in Hp |- *.
    destruct (work_list_keeps_locked ring lockedPoints _ _ _ i points
                ltac:(lia) Hi Hp H1) as [n [Hnin [_ Hxy]]].
    rewrite <- Hxy. apply in_map. exact Hnin.
Qed.

Lemma simplify_contours_keep (lockedPoints : LockedPoints double)
      (p : P2 double) :
  locked' lockedPoints p = true ->
  forall contours out : list (ContourOf (P2 double)),
    simplify_contours double dlt dsub dmul dabs dlit infinity isfinite
                      point_lt make_heap lockedPoints contours = Ok out ->
    Forall2 (fun c' c => Forall2 (fun r' r => In p r -> In p r')
                                 (rings c') (rings c)) out contours.
Proof.
  intros Hp. induction contours as [|c contours IH]; intros out H;
    simpl in H.
  - injection H as <-. constructor.
  - apply bind_Ok in H. destruct H as [c' [H1 H]].
    apply bind_Ok in H. destruct H as [cs' [H2 H]].
    injection H as <-. constructor; [|apply IH; exact H2].
    destruct (negb (nonempty double c)).
    + injection H1 as <-.
      clear. induction (rings c); constructor; auto.
    + apply bind_Ok in H1. destruct H1 as [rs [H1 H3]].
      injection H3 as <-. simpl.
      apply (simplify_rings_keep lockedPoints p Hp _ _ H1).
Qed.

(** A point of the input ring that is locked is a point of the ring
    [simplifyRing] returns. *)
Theorem locked_points_stay (ring out : list (P2 double))
        (lockedPoints : LockedPoints double) (stop : double)
        (p : P2 double) :
  simplifyRing double dlt dsub dmul dabs dlit infinity isfinite point_lt
               make_heap ring lockedPoints stop = Ok out ->
  In p ring -> locked' lockedPoints p = true -> In p out.
Proof.
  unfold simplifyRing. intros H Hin Hlocked.
  destruct (length ring <=? 4)%nat eqn:Hn; [injection H as <-; exact Hin|].
  apply Nat.leb_gt in Hn.
  apply bind_Ok in H. destruct H as [points [H1 H2]]. injection H2 as <-.
  destruct (In_nth ring p (nth 0 ring (dlit 0, dlit 0)) Hin)
    as [i [Hi Hp]].
  rewrite <- Hp in Hlocked |- *.
  destruct (work_list_keeps_locked ring lockedPoints _ _ _ i points
              ltac:(lia) Hi Hlocked H1) as [n [Hnin [_ Hxy]]].
  rewrite <- Hxy. apply in_map. exact Hnin.
Qed.

End SimplifyKeeps.

Lemma Exact_remove_first_In (x y : nat) (l : list nat) :
  In y (Exact.remove_first x l) -> In y l.
Proof.
  induction l as [|z l IH]; simpl; [auto|].
  destruct (Nat.eqb x z); simpl; intuition.
Qed.

Lemma Exact_greatest_In (comp : nat -> nat -> bool) (l : list nat) :
  forall best, Exact.greatest comp best l = best
               \/ In (Exact.greatest comp best l) l.
Proof.
  induction l as [|x l IH]; intros best; simpl; [auto|].
  destruct (IH (if comp best x then x else best)) as [H|H]; [|auto].
  rewrite H. destruct (comp best x); auto.
Qed.

Lemma Exact_make_heap_In (comp : nat -> nat -> bool) (l : list nat)
      (x : nat) :
  In x (Exact.make_heap comp l) -> In x l.
Proof.
  destruct l as [|y l]; [auto|]. unfold Exact.make_heap.
  intros [<-|H].
  - destruct (Exact_greatest_In comp l y) as [-> | H]; simpl; auto.
  - apply Exact_remove_first_In in H. exact H.
Qed.

Lemma locked_points_stay_witness :
  In (Exact.pt 0 6) hexagon_locked_simplified.
Proof.
  apply (locked_points_stay Exact.double Exact.dlt Exact.dsub Exact.dmul
           Exact.dabs Exact.dlit Exact.infinity Exact.isfinite
           Exact.point_lt Exact.make_heap Exact_make_heap_In
           hexagon hexagon_locked_simplified [Exact.pt 0 6]
           (Exact.dlit 10)).
  - vm_compute. reflexivity.
  - vm_compute. tauto.
  - vm_compute. reflexivity.
Defined.

(** ** A ring of costly vertices is returned as it is *)

Section SimplifyStops.

Variable double : Type.
Variable dlt : double -> double -> bool.
Variable dsub dmul : double -> double -> double.
Variable dabs : double -> double.
Variable dlit : Z -> double.
Variable infinity : double.
Variable isfinite : double -> bool.
Variable point_lt : P2 double -> P2 double -> bool.
Variable make_heap : (nat -> nat -> bool) -> list nat -> list nat.

Hypothesis make_heap_In :
  forall comp l x, In x (make_heap comp l) -> In x l.

Lemma lookup_In (points : LinkedPoints double) (id : nat) (n : Node double) :
  lookup double points id = Some n ->
  In n points /\ node_id double n = id.
Proof.
  induction points as [|n0 points IH]; simpl; [discriminate|].
  destruct (Nat.eqb (node_id double n0) id) eqn:E.
  - intros H. injection H as <-. apply Nat.eqb_eq in E. auto.
  - intros H. destruct (IH H). auto.
Qed.

Lemma lookup_position (points : LinkedPoints double) (id : nat) :
  (exists n, In n points /\ node_id double n = id) ->
  (exists n, lookup double points id = Some n)
  /\ (exists k, position double points id = Some k).
Proof.
  induction points as [|n0 points IH]; intros [n [Hin Hid]];
    [destruct Hin|]. simpl.
  destruct (Nat.eqb (node_id double n0) id) eqn:E; [eauto|].
  destruct Hin as [->|Hin]; [apply Nat.eqb_neq in E; congruence|].
  destruct IH as [H1 [k H2]]; [eauto|]. rewrite H2. simpl. eauto.
Qed.

(** If every vertex of the ring that is not locked has a cost above twice
    the stop condition, [simplifyRing] returns the ring as it is. *)
Theorem costly_ring_unchanged (ring : list (P2 double))
        (lockedPoints : LockedPoints double) (stop : double) :
  (forall i, (i < length ring)%nat ->
     is_locked double point_lt lockedPoints (nth i ring (dlit 0, dlit 0))
     = false ->
     dlt (dmul stop (dlit 2))
         (vertex_cost double dsub dmul dabs ring (dlit 0, dlit 0) i)
     = true) ->
  simplifyRing double dlt dsub dmul dabs dlit infinity isfinite point_lt
               make_heap ring lockedPoints stop = Ok ring.
Proof.
  intros Hcost. unfold simplifyRing.
  destruct (length ring <=? 4)%nat eqn:Hn; [reflexivity|].
  apply Nat.leb_gt in Hn.
  set (d := nth 0 ring (dlit 0, dlit 0)).
  set (work := work_area double dsub dmul dabs infinity point_lt
                         lockedPoints ring d).
  set (points := map fst work).
  set (heap := map (fun w => node_id double (fst w)) (filter snd work)).
  pose proof (work_area_entries double dsub dmul dabs infinity point_lt
                lockedPoints ring d ltac:(lia)) as Hw.
  fold work in Hw.
  assert (Hloop : simplify_loop double dlt dsub dmul dabs isfinite make_heap
                    (length heap) (dmul stop (dlit 2)) heap points
                  = Ok points).
  { destruct heap as [|h heap0] eqn:Eheap; [reflexivity|].
    cbn [length simplify_loop].
    destruct (make_heap (compare double dlt points) (h :: heap0))
      as [|point heap'] eqn:Emh; [reflexivity|].
    assert (Hpoint : In point heap).
    { rewrite Eheap.
      apply (make_heap_In (compare double dlt points) (h :: heap0)).
      rewrite Emh. simpl; auto. }
    unfold heap in Hpoint. apply in_map_iff in Hpoint.
    destruct Hpoint as [w [Hid Hwf]]. apply filter_In in Hwf.
    destruct Hwf as [Hwin Hflag].
    destruct (lookup_position points point) as [[n Hl] [k Hk]].
    { exists (fst w). split; [apply in_map; exact Hwin | exact Hid]. }
    rewrite Hk, Hl.
    apply lookup_In in Hl. destruct Hl as [Hnin Hnid].
    unfold points in Hnin. apply in_map_iff in Hnin.
    destruct Hnin as [w' [<- Hw'in]].
    apply Hw in Hw'in. destruct Hw'in as [i [Hi ->]].
    unfold add_point in Hnid |- *.
    destruct (negb (is_locked double point_lt lockedPoints (nth i ring d)))
      eqn:El; cbn [fst node_id node_cost] in Hnid |- *.
    - specialize (Hcost i Hi). unfold vertex_cost in Hcost.
      assert (H1 : ((if Nat.eqb i 0 then length ring - 1 else i - 1)
                    < length ring)%nat)
        by (destruct (Nat.eqb i 0); lia).
      assert (H2 : ((if Nat.eqb i (length ring - 1) then 0 else i + 1)
                    < length ring)%nat)
        by (destruct (Nat.eqb_spec i (length ring - 1)); lia).
      rewrite (nth_indep ring (dlit 0, dlit 0) d H1),
        (nth_indep ring (dlit 0, dlit 0) d Hi),
        (nth_indep ring (dlit 0, dlit 0) d H2) in Hcost.
      rewrite Hcost; [reflexivity|].
      apply negb_true_iff in El. exact El.
    - (* a locked node is not in the heap *)
      exfalso. apply Hw in Hwin. destruct Hwin as [i' [Hi' ->]].
      unfold add_point in Hid, Hflag.
      destruct (negb (is_locked double point_lt lockedPoints
                                (nth i' ring d))) eqn:El';
        cbn [fst snd node_id] in Hid, Hflag; [|discriminate].
      congruence. }
  rewrite Hloop. cbn [bind]. f_equal.
  apply (work_area_xys double dsub dmul dabs infinity point_lt). lia.
Qed.

End SimplifyStops.

Lemma costly_ring_unchanged_witness :
  Exact.simplifyRing hexagon [] (Exact.dlit 1) = Ok hexagon.
Proof.
  apply (costly_ring_unchanged Exact.double Exact.dlt Exact.dsub
           Exact.dmul Exact.dabs Exact.dlit Exact.infinity Exact.isfinite
           Exact.point_lt Exact.make_heap Exact_make_heap_In).
  intros i Hi _.
  do 6 (destruct i as [|i]; [vm_compute; reflexivity|]).
  simpl in Hi. lia.
Defined.

(** ** Which points [findLockedPoints] locks *)

Lemma find_ext_eq {A : Type} (f g : A -> bool) (l : list A) :
  (forall a, f a = g a) -> find f l = find g l.
Proof.
  intros H. induction l as [|a l IH]; simpl; [reflexivity|].
  rewrite H, IH. reflexivity.
Qed.

Section LockedCount.

Variable double : Type.
Variable point_lt : P2 double -> P2 double -> bool.

Local Abbreviation same := (same_key double point_lt).
Local Abbreviation increment' := (increment double point_lt).
Local Abbreviation count := (count_of double point_lt).
Local Abbreviation distinct_keys := (distinct_keys double point_lt).

(** The key order is a strict weak order: being the same key is reflexive
    and transitive (it is symmetric by its definition). *)
Hypothesis same_refl : forall a, same a a = true.
Hypothesis same_trans :
  forall a b c, same a b = true -> same b c = true -> same a c = true.

Lemma same_sym (a b : P2 double) : same a b = same b a.
Proof. unfold same_key. apply andb_comm. Qed.

Lemma same_congr (a b c : P2 double) :
  same a b = true -> same a c = same b c.
Proof.
  intros H. destruct (same b c) eqn:E.
  - apply (same_trans a b c); assumption.
  - destruct (same a c) eqn:E2; [|reflexivity].
    rewrite <- E. symmetry. apply (same_trans b a c); [|exact E2].
    rewrite same_sym. exact H.
Qed.

Lemma cardinality_all_points (contours : list (ContourOf (P2 double))) :
  cardinality double point_lt contours
  = fold_left increment' (all_points contours) [].
Proof.
  unfold cardinality, all_points. generalize (@nil (P2 double * Z)).
  induction contours as [|c cs IH]; intros m; simpl; [reflexivity|].
  rewrite fold_left_app, IH. f_equal.
  clear. revert m. induction (rings c) as [|r rs IH]; intros m; simpl;
    [reflexivity|].
  rewrite fold_left_app. apply IH.
Qed.

Lemma increment_keys (m : list (P2 double * Z)) (p : P2 double) :
  forall e, In e (increment' m p) ->
            fst e = p \/ exists e', In e' m /\ fst e' = fst e.
Proof.
  induction m as [|[k n] m IH]; simpl; intros e H.
  - destruct H as [<-|[]]. auto.
  - destruct (same k p).
    + destruct H as [<-|H]; right; [exists (k, n) | exists e]; simpl; auto.
    + destruct H as [<-|H]; [right; exists (k, n); simpl; auto|].
      destruct (IH e H) as [?|[e' [? ?]]]; [auto|].
      right. exists e'. simpl; auto.
Qed.

Lemma increment_distinct (m : list (P2 double * Z)) (p : P2 double) :
  distinct_keys m -> distinct_keys (increment' m p).
Proof.
  unfold distinct_keys.
  induction m as [|[k n] m IH]; simpl; intros H.
  - repeat constructor.
  - inversion H as [|? ? Hk Hm]; subst.
    destruct (same k p) eqn:E.
    + constructor; [exact Hk | exact Hm].
    + constructor; [|apply IH; exact Hm].
      apply Forall_forall. intros e He. simpl.
      destruct (increment_keys m p e He) as [->|[e' [He' <-]]];
        [exact E|].
      rewrite Forall_forall in Hk. exact (Hk e' He').
Qed.

Lemma increment_count (m : list (P2 double * Z)) (p q : P2 double) :
  count (increment' m p) q
  = count m q + (if same p q then 1 else 0).
Proof.
  unfold count_of.
  induction m as [|[k n] m IH]; simpl.
  - destruct (same p q); reflexivity.
  - destruct (same k p) eqn:Ekp; simpl.
    + rewrite <- (same_congr k p q Ekp).
      destruct (same k q); simpl; [reflexivity|].
      destruct (find _ m); lia.
    + destruct (same k q) eqn:Ekq; simpl; [|exact IH].
      replace (same p q) with false; [lia|].
      destruct (same p q) eqn:Epq; [|reflexivity].
      rewrite <- Ekp. apply (same_trans k q p); [exact Ekq|].
      rewrite same_sym. exact Epq.
Qed.

Lemma fold_increment (pts : list (P2 double)) :
  forall m,
    distinct_keys m ->
    distinct_keys (fold_left increment' pts m)
    /\ forall q, count (fold_left increment' pts m) q
                 = count m q + occurrences same q pts.
Proof.
  induction pts as [|p pts IH]; intros m Hd; simpl.
  - split; [exact Hd|]. intros q. unfold occurrences. simpl. lia.
  - destruct (IH (increment' m p) (increment_distinct m p Hd)) as [Hd' Hc].
    split; [exact Hd'|]. intros q. rewrite Hc, increment_count.
    unfold occurrences. simpl. rewrite (same_sym q p).
    destruct (same p q); simpl length; lia.
Qed.

Lemma distinct_count (m : list (P2 double * Z)) (k : P2 double) (n : Z) :
  distinct_keys m -> In (k, n) m -> count m k = n.
Proof.
  unfold distinct_keys, count_of.
  induction m as [|[k0 n0] m IH]; simpl; intros Hd Hin; [destruct Hin|].
  inversion Hd as [|? ? Hk Hm]; subst.
  destruct Hin as [E|Hin].
  - injection E as -> ->. rewrite same_refl. reflexivity.
  - rewrite Forall_forall in Hk. specialize (Hk (k, n) Hin). simpl in Hk.
    rewrite Hk. apply IH; assumption.
Qed.

Lemma locked_of_count (contours : list (ContourOf (P2 double)))
      (p : P2 double) :
  (occurrences same p (all_points contours) >? 2) = true ->
  is_locked double point_lt (findLockedPoints double point_lt contours) p
  = true.
Proof.
  unfold findLockedPoints, is_locked. rewrite cardinality_all_points.
  destruct (fold_increment (all_points contours) []) as [Hd Hc];
    [constructor|].
  specialize (Hc p). unfold count_of at 2 in Hc. simpl in Hc.
  rewrite <- Hc. clear Hc.
  set (m := fold_left increment' (all_points contours) []) in *.
  intros E. apply existsb_exists. unfold count_of in E.
  destruct (find (fun e => same (fst e) p) m) as [[k n]|] eqn:Ef;
    [|discriminate].
  apply find_some in Ef. destruct Ef as [Hin Hk]. simpl in Hk, E.
  exists k. split; [|rewrite same_sym; exact Hk].
  apply in_map_iff. exists (k, n). split; [reflexivity|].
  apply filter_In. auto.
Qed.

(** [findLockedPoints] locks a point exactly when the point occurs more
    than twice among the vertices of all rings of all contours, each
    occurrence counted (several in one ring included). *)
Theorem locked_iff_more_than_two_occurrences
        (contours : list (ContourOf (P2 double))) (p : P2 double) :
  is_locked double point_lt (findLockedPoints double point_lt contours) p
  = (occurrences same p (all_points contours) >? 2).
Proof.
  destruct (occurrences same p (all_points contours) >? 2) eqn:E;
    [apply locked_of_count; exact E|].
  revert E. unfold findLockedPoints, is_locked.
  rewrite cardinality_all_points.
  destruct (fold_increment (all_points contours) []) as [Hd Hc];
    [constructor|].
  specialize (Hc p). unfold count_of at 2 in Hc. simpl in Hc.
  rewrite <- Hc. clear Hc.
  set (m := fold_left increment' (all_points contours) []) in *.
  intros E.
  destruct (existsb _ _) eqn:Ex; [|reflexivity].
  apply existsb_exists in Ex. destruct Ex as [k [Hin Hk]].
  apply in_map_iff in Hin. destruct Hin as [[k' n] [Ek Hin]].
  simpl in Ek. subst k'. apply filter_In in Hin.
  destruct Hin as [Hin Hn]. simpl in Hn.
  rewrite <- E, <- Hn. f_equal.
  rewrite <- (distinct_count m k n Hd Hin). unfold count_of.
  rewrite (find_ext_eq (fun e => same (fst e) k)
                       (fun e => same (fst e) p)); [reflexivity|].
  intros e. rewrite !(same_sym (fst e)). symmetry.
  apply same_congr. exact Hk.
Qed.

End LockedCount.

(** The exact instance has a key order as required. *)

Lemma Exact_dlt_false (a b : Exact.double) :
  Exact.dlt a b = false <->
  match a, b with
  | Some x, Some y => (y <= x)%Q
  | None, _ => True
  | Some _, None => False
  end.
Proof.
  destruct a as [x|], b as [y|]; simpl; try tauto.
  - rewrite negb_false_iff. apply Qle_bool_iff.
  - split; [discriminate | tauto].
Qed.

Lemma Exact_same_key_iff (a b : Exact.double * Exact.double) :
  same_key Exact.double Exact.point_lt a b = true <->
  (Exact.dlt (fst a) (fst b) = false /\ Exact.dlt (fst b) (fst a) = false)
  /\ (Exact.dlt (snd a) (snd b) = false
      /\ Exact.dlt (snd b) (snd a) = false).
Proof.
  unfold same_key, Exact.point_lt.
  destruct (Exact.dlt (fst a) (fst b)), (Exact.dlt (fst b) (fst a)),
    (Exact.dlt (snd a) (snd b)), (Exact.dlt (snd b) (snd a)); simpl;
    intuition discriminate.
Qed.

Lemma Exact_level_refl (x : Exact.double) : Exact.dlt x x = false.
Proof. apply Exact_dlt_false. destruct x; [apply Qle_refl | exact I]. Qed.

Lemma Exact_level_trans (x y z : Exact.double) :
  Exact.dlt x y = false /\ Exact.dlt y x = false ->
  Exact.dlt y z = false /\ Exact.dlt z y = false ->
  Exact.dlt x z = false /\ Exact.dlt z x = false.
Proof.
  rewrite !Exact_dlt_false.
  destruct x as [x|], y as [y|], z as [z|]; try tauto.
  intros [H1 H2] [H3 H4]. split; eapply Qle_trans; eauto.
Qed.

Lemma Exact_same_refl (a : Exact.double * Exact.double) :
  same_key Exact.double Exact.point_lt a a = true.
Proof.
  apply Exact_same_key_iff. repeat split; apply Exact_level_refl.
Qed.

Lemma Exact_same_trans (a b c : Exact.double * Exact.double) :
  same_key Exact.double Exact.point_lt a b = true ->
  same_key Exact.double Exact.point_lt b c = true ->
  same_key Exact.double Exact.point_lt a c = true.
Proof.
  rewrite !Exact_same_key_iff. intros [H1 H2] [H3 H4].
  split; eapply Exact_level_trans; eauto.
Qed.

Lemma locked_iff_more_than_two_occurrences_witness :
  is_locked Exact.double Exact.point_lt (Exact.findLockedPoints clover)
            (Exact.pt 0 0)
  = (occurrences (same_key Exact.double Exact.point_lt) (Exact.pt 0 0)
                 (all_points clover) >? 2).
Proof.
  apply (locked_iff_more_than_two_occurrences Exact.double Exact.point_lt
           Exact_same_refl Exact_same_trans clover (Exact.pt 0 0)).
Defined.

(** * The sweep always returns *)

(** ** Chains of [next] links *)

Lemma steps_add (m : SegmentMap) (t1 t2 : nat) :
  forall a,
    steps m a (t1 + t2)
    = match steps m a t1 with
      | Some b => steps m b t2
      | None => None
      end.
Proof.
  induction t1 as [|t1 IH]; intros a; simpl; [reflexivity|].
  destruct (next_of m a) as [b|]; [apply IH | reflexivity].
Qed.

Lemma steps_snoc (m : SegmentMap) (t : nat) (a : nat) :
  steps m a (S t)
  = match steps m a t with
    | Some b => next_of m b
    | None => None
    end.
Proof.
  replace (S t) with (t + 1)%nat by lia. rewrite steps_add.
  destruct (steps m a t) as [b|]; [|reflexivity].
  simpl. destruct (next_of m b); reflexivity.
Qed.

Lemma steps_prefix (m : SegmentMap) (a : nat) (t t' : nat) :
  (t' <= t)%nat -> steps m a t <> None -> steps m a t' <> None.
Proof.
  intros Hle H E. apply H.
  replace t with (t' + (t - t'))%nat by lia.
  rewrite steps_add, E. reflexivity.
Qed.

Lemma reach_refl (m : SegmentMap) (a : nat) : reach m a a.
Proof. exists 0%nat. reflexivity. Qed.

Lemma reach_trans (m : SegmentMap) (a b c : nat) :
  reach m a b -> reach m b c -> reach m a c.
Proof.
  intros [t1 H1] [t2 H2]. exists (t1 + t2)%nat.
  rewrite steps_add, H1. exact H2.
Qed.

Lemma reach_next (m : SegmentMap) (a b : nat) :
  next_of m a = Some b -> reach m a b.
Proof. intros H. exists 1%nat. simpl. rewrite H. reflexivity. Qed.

Lemma next_of_valid (m : SegmentMap) (a b : nat) :
  next_of m a = Some b -> (a < length m)%nat.
Proof.
  unfold next_of. intros H. apply nth_error_Some.
  destruct (nth_error m a); congruence.
Qed.

Lemma prev_of_valid (m : SegmentMap) (a b : nat) :
  prev_of m a = Some b -> (a < length m)%nat.
Proof.
  unfold prev_of. intros H. apply nth_error_Some.
  destruct (nth_error m a); congruence.
Qed.

Lemma ringLeader_of_valid (m : SegmentMap) (a l : nat) :
  ringLeader_of m a = Some l -> (a < length m)%nat.
Proof.
  unfold ringLeader_of. intros H. apply nth_error_Some.
  destruct (nth_error m a); congruence.
Qed.

Lemma next_prev (m : SegmentMap) (a b : nat) :
  store_ok m -> next_of m a = Some b -> prev_of m b = Some a.
Proof.
  intros Hok H. unfold next_of in H.
  destruct (nth_error m a) as [A|] eqn:HA; [|discriminate].
  destruct (ok_next m Hok a b A HA H) as [B [HB [Hp _]]].
  unfold prev_of. rewrite HB. exact Hp.
Qed.

Lemma prev_next (m : SegmentMap) (a b : nat) :
  store_ok m -> prev_of m b = Some a -> next_of m a = Some b.
Proof.
  intros Hok H. unfold prev_of in H.
  destruct (nth_error m b) as [B|] eqn:HB; [|discriminate].
  destruct (ok_prev m Hok a b B HB H) as [A [HA [Hn _]]].
  unfold next_of. rewrite HA. exact Hn.
Qed.

Lemma next_target_valid (m : SegmentMap) (a b : nat) :
  store_ok m -> next_of m a = Some b -> (b < length m)%nat.
Proof.
  intros Hok H. apply (prev_of_valid m b a). apply next_prev; assumption.
Qed.

Lemma next_injective (m : SegmentMap) (a b c : nat) :
  store_ok m -> next_of m a = Some c -> next_of m b = Some c -> a = b.
Proof.
  intros Hok Ha Hb. apply (next_prev m _ _ Hok) in Ha, Hb. congruence.
Qed.

Lemma steps_valid (m : SegmentMap) (t : nat) :
  forall a b,
    store_ok m -> (a < length m)%nat -> steps m a t = Some b ->
    (b < length m)%nat.
Proof.
  induction t as [|t IH]; intros a b Hok Ha H; simpl in H.
  - congruence.
  - destruct (next_of m a) as [c|] eqn:E; [|discriminate].
    apply (IH c b Hok); [|exact H].
    apply (next_target_valid m a c Hok E).
Qed.

(** No chain of links ends in a segment without [prev], or starts from a
    segment without [next]. *)
Lemma steps_to_head (m : SegmentMap) (t : nat) (a n : nat) :
  store_ok m -> prev_of m n = None -> steps m a t = Some n ->
  t = 0%nat /\ a = n.
Proof.
  intros Hok Hn H. destruct t as [|t].
  - simpl in H. split; congruence.
  - rewrite steps_snoc in H.
    destruct (steps m a t) as [b|]; [|discriminate].
    apply (next_prev m _ _ Hok) in H. congruence.
Qed.

Lemma steps_from_tail (m : SegmentMap) (t : nat) (p b : nat) :
  next_of m p = None -> steps m p t = Some b -> t = 0%nat /\ b = p.
Proof.
  intros Hp H. destruct t as [|t]; simpl in H.
  - split; congruence.
  - rewrite Hp in H. discriminate.
Qed.

(** From a segment without [prev] no segment is reached twice. *)
Lemma steps_from_head_injective (m : SegmentMap) (n : nat) :
  store_ok m -> prev_of m n = None ->
  forall i j b,
    steps m n i = Some b -> steps m n j = Some b -> i = j.
Proof.
  intros Hok Hn.
  assert (H : forall i j b, (i <= j)%nat ->
            steps m n i = Some b -> steps m n j = Some b -> i = j).
  { induction i as [|i IH]; intros j b Hle Hi Hj.
    - simpl in Hi. injection Hi as <-.
      apply (steps_to_head m j n n Hok Hn) in Hj. lia.
    - destruct j as [|j]; [lia|].
      rewrite steps_snoc in Hi, Hj.
      destruct (steps m n i) as [x|] eqn:Ex; [|discriminate].
      destruct (steps m n j) as [y|] eqn:Ey; [|discriminate].
      assert (x = y) by (apply (next_injective m x y b Hok); assumption).
      subst y. f_equal. apply (IH j x); [lia|reflexivity|exact Ey]. }
  intros i j b Hi Hj.
  destruct (Nat.le_ge_cases i j) as [Hle|Hle].
  - apply (H i j b); assumption.
  - symmetry. apply (H j i b); assumption.
Qed.

Lemma NoDup_map_seq (f : nat -> nat) (n : nat) :
  (forall i j, (i < n)%nat -> (j < n)%nat -> f i = f j -> i = j) ->
  NoDup (map f (seq 0 n)).
Proof.
  induction n as [|n IH]; intros H; [constructor|].
  rewrite seq_S, map_app. simpl.
  apply NoDup_app.
  - apply IH. intros i j Hi Hj. apply H; lia.
  - constructor; [intros []|constructor].
  - intros x Hx [Hy|[]]. apply in_map_iff in Hx.
    destruct Hx as [i [Hi Hin]]. apply in_seq in Hin.
    assert (i = n) by (apply H; try lia; congruence). lia.
Qed.

(** A chain that starts from a segment without [prev] is shorter than the
    store. *)
Lemma steps_from_head_bound (m : SegmentMap) (n : nat) (t : nat) (b : nat) :
  store_ok m -> (n < length m)%nat -> prev_of m n = None ->
  steps m n t = Some b -> (t < length m)%nat.
Proof.
  intros Hok Hv Hn Ht.
  set (g := fun i => match steps m n i with Some c => c | None => 0%nat end).
  assert (Hdef : forall i, (i <= t)%nat -> steps m n i = Some (g i)).
  { intros i Hi. unfold g.
    destruct (steps m n i) as [c|] eqn:E; [reflexivity|].
    exfalso. apply (steps_prefix m n t i Hi); congruence. }
  assert (Hnd : NoDup (map g (seq 0 (S t)))).
  { apply NoDup_map_seq. intros i j Hi Hj E.
    apply (steps_from_head_injective m n Hok Hn i j (g i)).
    - apply Hdef. lia.
    - rewrite E. apply Hdef. lia. }
  assert (Hincl : incl (map g (seq 0 (S t))) (seq 0 (length m))).
  { intros x Hx. apply in_map_iff in Hx. destruct Hx as [i [<- Hi]].
    apply in_seq in Hi. apply in_seq. split; [lia|]. simpl.
    apply (steps_valid m i n (g i) Hok Hv). apply Hdef. lia. }
  pose proof (NoDup_incl_length Hnd Hincl) as Hlen.
  rewrite length_map, !length_seq in Hlen. lia.
Qed.

(** The chain that starts from a segment without [prev] ends. *)
Lemma chain_ends (m : SegmentMap) (n : nat) :
  store_ok m -> (n < length m)%nat -> prev_of m n = None ->
  exists t b, steps m n t = Some b /\ next_of m b = None.
Proof.
  intros Hok Hv Hn.
  assert (H : forall T, steps m n T = None ->
            exists t b, steps m n t = Some b /\ next_of m b = None).
  { induction T as [|T IH]; intros HT; [discriminate|].
    rewrite steps_snoc in HT.
    destruct (steps m n T) as [b|] eqn:E; [|apply IH; reflexivity].
    exists T, b. auto. }
  apply (H (length m)).
  destruct (steps m n (length m)) as [b|] eqn:E; [|reflexivity].
  pose proof (steps_from_head_bound m n _ b Hok Hv Hn E). lia.
Qed.

Lemma walk_of_steps (m : SegmentMap) (t : nat) :
  forall a b,
    steps m a t = Some b -> next_of m b = None ->
    exists W,
      walk_list (next_of m) (Some a) W
      /\ length W = S t
      /\ forall c, In c W <-> reach m a c.
Proof.
  induction t as [|t IH]; intros a b H Hb; simpl in H.
  - injection H as <-. exists [a]. simpl. split; [auto|]. split; [auto|].
    intros c. split.
    + intros [<-|[]]. apply reach_refl.
    + intros [t Ht]. apply (steps_from_tail m t a c Hb) in Ht. intuition.
  - destruct (next_of m a) as [a'|] eqn:E; [|discriminate].
    destruct (IH a' b H Hb) as [W [Hw [Hl Hin]]].
    exists (a :: W). simpl. split; [rewrite E; auto|]. split; [lia|].
    intros c. rewrite Hin. split.
    + intros [<-|Hr]; [apply reach_refl|].
      apply (reach_trans m a a' c); [apply reach_next; exact E | exact Hr].
    + intros [[|t'] Ht]; simpl in Ht.
      * left. congruence.
      * rewrite E in Ht. right. exists t'. exact Ht.
Qed.

(** The segments reached from a segment without [prev]: the loop of
    [distributeRingLeaderNext] goes through them and ends. *)
Lemma head_orbit (m : SegmentMap) (n : nat) :
  store_ok m -> (n < length m)%nat -> prev_of m n = None ->
  exists W,
    walk_list (next_of m) (Some n) W
    /\ (length W <= length m)%nat
    /\ forall c, In c W <-> reach m n c.
Proof.
  intros Hok Hv Hn.
  destruct (chain_ends m n Hok Hv Hn) as [t [b [Ht Hb]]].
  destruct (walk_of_steps m t n b Ht Hb) as [W [Hw [Hl Hin]]].
  exists W. split; [exact Hw|]. split; [|exact Hin].
  pose proof (steps_from_head_bound m n t b Hok Hv Hn Ht). lia.
Qed.

(** ** Writing ring leaders *)

Lemma existsb_eqb_In (k : nat) (X : list nat) :
  existsb (Nat.eqb k) X = true <-> In k X.
Proof.
  rewrite existsb_exists. split.
  - intros [y [Hy E]]. apply Nat.eqb_eq in E. congruence.
  - intros H. exists k. split; [exact H | apply Nat.eqb_refl].
Qed.

Lemma existsb_eqb_not_In (k : nat) (X : list nat) :
  existsb (Nat.eqb k) X = false <-> ~ In k X.
Proof.
  rewrite <- existsb_eqb_In. destruct (existsb _ X); split; congruence.
Qed.

Lemma releads_nil (m : SegmentMap) (l : SegPtr) : releads m m [] l.
Proof. intros k. simpl. destruct (nth_error m k); reflexivity. Qed.

Lemma releads_next (m m' : SegmentMap) (X : list nat) (l : SegPtr)
      (k : nat) :
  releads m m' X l -> next_of m' k = next_of m k.
Proof.
  intros H. unfold next_of. rewrite (H k).
  destruct (nth_error m k); simpl; [|reflexivity].
  destruct (existsb _ X); reflexivity.
Qed.

Lemma releads_prev (m m' : SegmentMap) (X : list nat) (l : SegPtr)
      (k : nat) :
  releads m m' X l -> prev_of m' k = prev_of m k.
Proof.
  intros H. unfold prev_of. rewrite (H k).
  destruct (nth_error m k); simpl; [|reflexivity].
  destruct (existsb _ X); reflexivity.
Qed.

Lemma releads_steps (m m' : SegmentMap) (X : list nat) (l : SegPtr)
      (t : nat) :
  releads m m' X l -> forall a, steps m' a t = steps m a t.
Proof.
  intros H. induction t as [|t IH]; intros a; simpl; [reflexivity|].
  rewrite (releads_next m m' X l a H).
  destruct (next_of m a); [apply IH | reflexivity].
Qed.

Lemma releads_length (m m' : SegmentMap) (X : list nat) (l : SegPtr) :
  releads m m' X l -> length m' = length m.
Proof.
  intros H. apply Nat.le_antisymm.
  - apply nth_error_None. rewrite (H (length m)).
    replace (nth_error m (length m)) with (@None Segment);
      [reflexivity|].
    symmetry. apply nth_error_None. lia.
  - apply nth_error_None.
    pose proof (H (length m')) as E.
    replace (nth_error m' (length m')) with (@None Segment) in E
      by (symmetry; apply nth_error_None; lia).
    destruct (nth_error m (length m')); [discriminate | reflexivity].
Qed.

Lemma releads_shape (m m' : SegmentMap) (X : list nat) (l : SegPtr) :
  releads m m' X l -> shape m' = shape m.
Proof.
  intros H. apply nth_error_ext. intros k.
  rewrite !shape_nth, (H k).
  destruct (nth_error m k); simpl; [|reflexivity].
  destruct (existsb _ X); reflexivity.
Qed.

Lemma releads_leader_in (m m' : SegmentMap) (X : list nat) (l : SegPtr)
      (k : nat) :
  releads m m' X l -> In k X -> (k < length m)%nat ->
  ringLeader_of m' k = l.
Proof.
  intros H Hin Hk. unfold ringLeader_of. rewrite (H k).
  apply existsb_eqb_In in Hin. rewrite Hin.
  destruct (nth_error m k) eqn:E; [reflexivity|].
  apply nth_error_None in E. lia.
Qed.

Lemma releads_leader_out (m m' : SegmentMap) (X : list nat) (l : SegPtr)
      (k : nat) :
  releads m m' X l -> ~ In k X ->
  ringLeader_of m' k = ringLeader_of m k.
Proof.
  intros H Hin. unfold ringLeader_of. rewrite (H k).
  apply existsb_eqb_not_In in Hin. rewrite Hin.
  destruct (nth_error m k); reflexivity.
Qed.

Lemma releads_update (m : SegmentMap) (k : nat) (l : SegPtr) :
  releads m (update m k (fun y => set_ringLeader y l)) [k] l.
Proof.
  intros j. rewrite update_nth. simpl. rewrite orb_false_r.
  rewrite (Nat.eqb_sym j k).
  destruct (Nat.eqb k j); destruct (nth_error m j); reflexivity.
Qed.

Lemma releads_app (m m1 m2 : SegmentMap) (X1 X2 : list nat) (l : SegPtr) :
  releads m m1 X1 l -> releads m1 m2 X2 l -> releads m m2 (X1 ++ X2) l.
Proof.
  intros H1 H2 k. rewrite (H2 k), (H1 k), existsb_app.
  destruct (nth_error m k) as [y|]; simpl; [|reflexivity].
  destruct (existsb _ X1), (existsb _ X2); reflexivity.
Qed.

Lemma ringLeader_of_update (m : SegmentMap) (k a : nat) (l : SegPtr) :
  a <> k ->
  ringLeader_of (update m k (fun y => set_ringLeader y l)) a
  = ringLeader_of m a.
Proof.
  intros H. unfold ringLeader_of. rewrite update_nth.
  destruct (Nat.eqb k a) eqn:E; [|reflexivity].
  apply Nat.eqb_eq in E. congruence.
Qed.

Lemma ringLeader_of_update_same (m : SegmentMap) (k : nat) (l : SegPtr) :
  (k < length m)%nat ->
  ringLeader_of (update m k (fun y => set_ringLeader y l)) k = l.
Proof.
  intros H. unfold ringLeader_of. rewrite update_nth, Nat.eqb_refl.
  destruct (nth_error m k) eqn:E; [reflexivity|].
  apply nth_error_None in E. lia.
Qed.

Lemma walk_list_ext (f g : nat -> SegPtr) (W : list nat) :
  forall cur,
    (forall k, In k W -> f k = g k) ->
    walk_list f cur W -> walk_list g cur W.
Proof.
  induction W as [|k W IH]; intros cur H Hw; simpl in *; [exact Hw|].
  destruct Hw as [-> Hw]. split; [reflexivity|].
  rewrite <- (H k) by auto. apply IH; auto.
Qed.

Lemma ptr_of_update (step : Segment -> SegPtr) (m : SegmentMap) (k a : nat)
      (l : SegPtr) :
  (forall y rl, step (set_ringLeader y rl) = step y) ->
  ptr_of step (update m k (fun y => set_ringLeader y l)) a = ptr_of step m a.
Proof.
  intros Hs. unfold ptr_of. rewrite update_nth.
  destruct (Nat.eqb k a); [|reflexivity].
  destruct (nth_error m a); simpl; [apply Hs | reflexivity].
Qed.

(** The loop of [distributeRingLeaderPrev] and [distributeRingLeaderNext]
    ends when the segments it goes through are no more than the fuel, and
    writes the ring leader of [orig] to each of them. *)
Lemma distribute_walk (step : Segment -> SegPtr) :
  (forall y rl, step (set_ringLeader y rl) = step y) ->
  forall (W : list nat) (fuel : nat) (m : SegmentMap) (orig : nat)
         (cur : SegPtr),
    walk_list (ptr_of step m) cur W ->
    Forall (fun k => (k < length m)%nat) W ->
    (length W <= fuel)%nat ->
    ~ In orig W ->
    exists m',
      distribute step fuel m orig cur = Ok m'
      /\ releads m m' W (ringLeader_of m orig).
Proof.
  intros Hs. induction W as [|k W IH]; intros fuel m orig cur Hw Hv Hf Ho.
  - simpl in Hw. subst cur. exists m. split.
    + destruct fuel; reflexivity.
    + apply releads_nil.
  - simpl in Hw. destruct Hw as [-> Hw].
    destruct fuel as [|fuel]; [simpl in Hf; lia|].
    inversion Hv as [|? ? Hk Hv']; subst.
    destruct (nth_error m k) as [sk|] eqn:Ek;
      [|apply nth_error_None in Ek; lia].
    cbn [distribute]. rewrite Ek.
    set (l := ringLeader_of m orig).
    set (m1 := update m k (fun y => set_ringLeader y l)).
    assert (Hl : ringLeader_of m1 orig = l).
    { apply ringLeader_of_update. intros ->. apply Ho. left. reflexivity. }
    destruct (IH fuel m1 orig (step sk)) as [m' [Hd Hr]].
    + apply (walk_list_ext (ptr_of step m)).
      * intros a _. symmetry. apply ptr_of_update. exact Hs.
      * replace (step sk) with (ptr_of step m k); [exact Hw|].
        unfold ptr_of. rewrite Ek. reflexivity.
    + unfold m1. rewrite update_length. exact Hv'.
    + simpl in Hf. lia.
    + intros H. apply Ho. right. exact H.
    + exists m'. split; [exact Hd|].
      rewrite Hl in Hr.
      apply (releads_app m m1 m' [k] W l); [|exact Hr].
      apply releads_update.
Qed.

(** The loop of [extract] ends without an error when [end] is [t] links
    away, the fuel is enough and the segments up to it have [head] as their
    ring leader. *)
Lemma extract_loop_ok (cf : FindContour) (m : SegmentMap)
      (head end_ : nat) (t : nat) :
  forall (fuel k : nat) (p0 : Segment) (ring : Polygon),
    steps m k t = Some end_ ->
    (t <= fuel)%nat ->
    (forall i b, (i < t)%nat -> steps m k i = Some b ->
                 ringLeader_of m b = Some head) ->
    exists ring',
      extract_loop cf m head end_ fuel p0 (Some k) ring = Ok ring'.
Proof.
  induction t as [|t IH]; intros fuel k p0 ring Ht Hf Hl.
  - simpl in Ht. injection Ht as ->. exists ring.
    destruct fuel; simpl; rewrite Nat.eqb_refl; reflexivity.
  - destruct (Nat.eq_dec k end_) as [->|Hne].
    + exists ring. destruct fuel; simpl; rewrite Nat.eqb_refl; reflexivity.
    + destruct fuel as [|fuel]; [lia|].
      simpl in Ht. destruct (next_of m k) as [k'|] eqn:En; [|discriminate].
      unfold next_of in En.
      destruct (nth_error m k) as [sk|] eqn:Ek; [|discriminate].
      assert (Hlk : seg_ringLeader sk = Some head).
      { pose proof (Hl 0%nat k ltac:(lia) eq_refl) as H.
        unfold ringLeader_of in H. rewrite Ek in H. exact H. }
      cbn [extract_loop].
      replace (SegPtr_eqb (Some k) (Some end_)) with false
        by (symmetry; apply SegPtr_eqb_neq; congruence).
      rewrite Ek, Hlk. cbn [SegPtr_eqb]. rewrite Nat.eqb_refl.
      cbn [negb]. rewrite En.
      apply IH; [exact Ht | lia |].
      intros i b Hi Hb. apply (Hl (S i) b); [lia|].
      simpl. unfold next_of. rewrite Ek, En. exact Hb.
Qed.

(** ** Ring leaders after an insertion at two new ends *)

Lemma relink_leader (prev next : SegPtr) (s k : nat) (y : Segment) :
  seg_ringLeader (relink prev next s k y) = seg_ringLeader y.
Proof.
  unfold relink.
  destruct (SegPtr_eqb prev (Some k)), (SegPtr_eqb next (Some k));
    reflexivity.
Qed.

Lemma leaders_equal_along (m : SegmentMap) (t : nat) :
  leaders_ok m ->
  forall a b, steps m a t = Some b -> ringLeader_of m b = ringLeader_of m a.
Proof.
  intros Hl. induction t as [|t IH]; intros a b H; simpl in H.
  - congruence.
  - destruct (next_of m a) as [c|] eqn:E; [|discriminate].
    rewrite (IH c b H). symmetry. apply (lead_link m Hl a c E).
Qed.

Lemma no_leader_alone (m : SegmentMap) (a : nat) :
  store_ok m -> leaders_ok m -> ringLeader_of m a = None ->
  next_of m a = None /\ prev_of m a = None.
Proof.
  intros Hok Hl Ha. split.
  - destruct (next_of m a) as [b|] eqn:E; [|reflexivity].
    destruct (lead_link m Hl a b E) as [_ H]. congruence.
  - destruct (prev_of m a) as [c|] eqn:E; [|reflexivity].
    apply (prev_next m c a Hok) in E.
    destruct (lead_link m Hl c a E) as [H1 H2]. congruence.
Qed.

Lemma leader_valid (m : SegmentMap) (a l : nat) :
  store_ok m -> leaders_ok m -> ringLeader_of m a = Some l ->
  (l < length m)%nat.
Proof.
  intros Hok Hl Ha.
  pose proof (ringLeader_of_valid m a l Ha) as Hv.
  destruct (lead_member m Hl a l Ha) as [[t H]|[t H]].
  - destruct t as [|t]; simpl in H; [congruence|].
    destruct (next_of m l) as [c|] eqn:E; [|discriminate].
    apply (next_of_valid m l c E).
  - apply (steps_valid m t a l Hok Hv H).
Qed.

Section FreshLeaders.

Variable m : SegmentMap.
Variable x : Segment.
Variable m2 : SegmentMap.

Hypothesis m_ok : store_ok m.
Hypothesis m_lead : leaders_ok m.

Hypothesis prev_found :
  forall pk, seg_prev x = Some pk ->
    exists P, nth_error m pk = Some P /\ seg_end P = seg_start x.
Hypothesis next_found :
  forall nk, seg_next x = Some nk ->
    exists N, nth_error m nk = Some N /\ seg_start N = seg_end x.
Hypothesis new_start :
  forall k S, nth_error m k = Some S -> seg_start S <> seg_start x.
Hypothesis new_end :
  forall k S, nth_error m k = Some S -> seg_end S <> seg_end x.
Hypothesis new_leader : seg_ringLeader x = None.

Hypothesis m2_nth :
  forall k,
    nth_error m2 k
    = if (k <? length m)%nat
      then option_map (relink (seg_prev x) (seg_next x) (length m) k)
                      (nth_error m k)
      else if Nat.eqb k (length m) then Some x else None.

Local Abbreviation s := (length m).

Lemma m2_ok : store_ok m2.
Proof. apply (fresh_store_ok m x m2); assumption. Qed.

Lemma m2_length : length m2 = S s.
Proof.
  apply Nat.le_antisymm.
  - apply nth_error_None. rewrite m2_nth.
    replace (S s <? s)%nat with false by (symmetry; apply Nat.ltb_ge; lia).
    replace (Nat.eqb (S s) s) with false
      by (symmetry; apply Nat.eqb_neq; lia).
    reflexivity.
  - apply nth_error_Some. rewrite m2_nth, Nat.ltb_irrefl, Nat.eqb_refl.
    discriminate.
Qed.

Lemma m2_at_old (k : nat) :
  (k < s)%nat ->
  exists y, nth_error m k = Some y
            /\ nth_error m2 k
               = Some (relink (seg_prev x) (seg_next x) s k y).
Proof.
  intros Hk. destruct (nth_error m k) as [y|] eqn:E;
    [|apply nth_error_None in E; lia].
  exists y. split; [reflexivity|]. rewrite m2_nth, E.
  apply Nat.ltb_lt in Hk. rewrite Hk. reflexivity.
Qed.

Lemma m2_at_new : nth_error m2 s = Some x.
Proof. rewrite m2_nth, Nat.ltb_irrefl, Nat.eqb_refl. reflexivity. Qed.

Lemma m2_next_old (k : nat) :
  (k < s)%nat ->
  next_of m2 k
  = if SegPtr_eqb (seg_prev x) (Some k) then Some s else next_of m k.
Proof.
  intros Hk. destruct (m2_at_old k Hk) as [y [Hy Hy2]].
  unfold next_of. rewrite Hy, Hy2.
  apply (relink_fields (seg_prev x) (seg_next x) s k y).
Qed.

Lemma m2_prev_old (k : nat) :
  (k < s)%nat ->
  prev_of m2 k
  = if SegPtr_eqb (seg_next x) (Some k) then Some s else prev_of m k.
Proof.
  intros Hk. destruct (m2_at_old k Hk) as [y [Hy Hy2]].
  unfold prev_of. rewrite Hy, Hy2.
  apply (relink_fields (seg_prev x) (seg_next x) s k y).
Qed.

Lemma m2_leader_old (k : nat) :
  (k < s)%nat -> ringLeader_of m2 k = ringLeader_of m k.
Proof.
  intros Hk. destruct (m2_at_old k Hk) as [y [Hy Hy2]].
  unfold ringLeader_of. rewrite Hy, Hy2. apply relink_leader.
Qed.

Lemma m2_next_new : next_of m2 s = seg_next x.
Proof. unfold next_of. rewrite m2_at_new. reflexivity. Qed.

Lemma m2_prev_new : prev_of m2 s = seg_prev x.
Proof. unfold prev_of. rewrite m2_at_new. reflexivity. Qed.

Lemma m2_leader_new : ringLeader_of m2 s = None.
Proof. unfold ringLeader_of. rewrite m2_at_new. exact new_leader. Qed.

(** The segment before the new one had no [next], the segment after it no
    [prev]. *)
Lemma prev_is_tail (p : nat) :
  seg_prev x = Some p -> (p < s)%nat /\ next_of m p = None.
Proof.
  intros H. destruct (prev_found p H) as [P [HP He]]. split.
  - apply nth_error_Some. congruence.
  - unfold next_of. rewrite HP.
    destruct (seg_next P) as [b|] eqn:E; [|reflexivity].
    destruct (ok_next m m_ok p b P HP E) as [B [HB [_ Hs]]].
    elim (new_start b B HB). congruence.
Qed.

Lemma next_is_head (n : nat) :
  seg_next x = Some n -> (n < s)%nat /\ prev_of m n = None.
Proof.
  intros H. destruct (next_found n H) as [N [HN Hs]]. split.
  - apply nth_error_Some. congruence.
  - unfold prev_of. rewrite HN.
    destruct (seg_prev N) as [a|] eqn:E; [|reflexivity].
    destruct (ok_prev m m_ok a n N HN E) as [A [HA [_ He]]].
    elim (new_end a A HA). congruence.
Qed.

Lemma m2_next_prev (p : nat) : seg_prev x = Some p -> next_of m2 p = Some s.
Proof.
  intros H. destruct (prev_is_tail p H) as [Hp _].
  rewrite (m2_next_old p Hp), H. simpl. rewrite Nat.eqb_refl. reflexivity.
Qed.

Lemma m2_next_mono (a b : nat) :
  next_of m a = Some b -> next_of m2 a = Some b.
Proof.
  intros H. pose proof (next_of_valid m a b H) as Ha.
  rewrite (m2_next_old a Ha).
  destruct (SegPtr_eqb (seg_prev x) (Some a)) eqn:E; [|exact H].
  apply SegPtr_eqb_eq in E. destruct (prev_is_tail a E) as [_ Hn].
  congruence.
Qed.

Lemma m2_steps_mono (t : nat) :
  forall a b, steps m a t = Some b -> steps m2 a t = Some b.
Proof.
  induction t as [|t IH]; intros a b H; simpl in *; [exact H|].
  destruct (next_of m a) as [c|] eqn:E; [|discriminate].
  rewrite (m2_next_mono a c E). apply IH. exact H.
Qed.

Lemma m2_reach_mono (a b : nat) : reach m a b -> reach m2 a b.
Proof. intros [t H]. exists t. apply m2_steps_mono. exact H. Qed.

Lemma m2_next_inv (a b : nat) :
  next_of m2 a = Some b ->
  (a = s /\ seg_next x = Some b)
  \/ (seg_prev x = Some a /\ b = s)
  \/ ((a < s)%nat /\ (b < s)%nat /\ next_of m a = Some b).
Proof.
  intros H. pose proof (next_of_valid m2 a b H) as Ha.
  rewrite m2_length in Ha.
  destruct (Nat.eq_dec a s) as [->|Hne].
  - left. rewrite m2_next_new in H. auto.
  - right. assert (Hlt : (a < s)%nat) by lia.
    rewrite (m2_next_old a Hlt) in H.
    destruct (SegPtr_eqb (seg_prev x) (Some a)) eqn:E.
    + left. apply SegPtr_eqb_eq in E. split; congruence.
    + right. split; [exact Hlt|]. split; [|exact H].
      apply (next_target_valid m a b m_ok H).
Qed.

(** Writing the leader [l0] to the segments [X] gives a store in which the
    ring leaders are in order, when [X] holds the new segment, is closed
    under the old links, leaves out no neighbour of the new segment that
    has another leader, and its segments are joined with [l0]. *)
Lemma relead_leaders_ok (m3 : SegmentMap) (X : list nat) (l0 : nat) :
  releads m2 m3 X (Some l0) ->
  In s X ->
  (forall k, In k X -> (k <= s)%nat) ->
  (forall a b, next_of m a = Some b -> (In a X <-> In b X)) ->
  (forall p, seg_prev x = Some p ->
             In p X \/ ringLeader_of m p = Some l0) ->
  (forall n, seg_next x = Some n ->
             In n X \/ ringLeader_of m n = Some l0) ->
  (forall a, In a X -> reach m2 l0 a \/ reach m2 a l0) ->
  leaders_ok m3.
Proof.
  intros Hr Hs Hv Hold Hp Hn Hreach.
  assert (Hin : forall a, In a X -> ringLeader_of m3 a = Some l0).
  { intros a Ha. apply (releads_leader_in m2 m3 X _ a Hr Ha).
    rewrite m2_length. pose proof (Hv a Ha). lia. }
  assert (Hout : forall a, ~ In a X -> (a < s)%nat ->
                           ringLeader_of m3 a = ringLeader_of m a).
  { intros a Ha Hlt. rewrite (releads_leader_out m2 m3 X _ a Hr Ha).
    apply m2_leader_old. exact Hlt. }
  assert (Hnb : forall a, (a < s)%nat ->
                  In a X \/ ringLeader_of m a = Some l0 ->
                  ringLeader_of m3 a = Some l0).
  { intros a Hlt [Ha|Ha]; [apply Hin; exact Ha|].
    destruct (in_dec Nat.eq_dec a X) as [Hi|Hi]; [apply Hin; exact Hi|].
    rewrite (Hout a Hi Hlt). exact Ha. }
  constructor.
  - intros a b Hab. rewrite (releads_next m2 m3 X _ a Hr) in Hab.
    destruct (m2_next_inv a b Hab) as [[-> HN]|[[HP ->]|[Ha [Hb Hm]]]].
    + rewrite (Hin s Hs).
      rewrite (Hnb b (proj1 (next_is_head b HN)) (Hn b HN)).
      split; [reflexivity | discriminate].
    + rewrite (Hin s Hs).
      rewrite (Hnb a (proj1 (prev_is_tail a HP)) (Hp a HP)).
      split; [reflexivity | discriminate].
    + destruct (in_dec Nat.eq_dec a X) as [Hi|Hi].
      * rewrite (Hin a Hi), (Hin b (proj1 (Hold a b Hm) Hi)).
        split; [reflexivity | discriminate].
      * assert (Hj : ~ In b X)
          by (intros Hj; apply Hi; apply (Hold a b Hm); exact Hj).
        rewrite (Hout a Hi Ha), (Hout b Hj Hb).
        apply (lead_link m m_lead a b Hm).
  - intros a l Ha.
    assert (Hm3 : forall u v, reach m2 u v -> reach m3 u v).
    { intros u v [t Ht]. exists t.
      rewrite (releads_steps m2 m3 X _ t Hr). exact Ht. }
    destruct (in_dec Nat.eq_dec a X) as [Hi|Hi].
    + rewrite (Hin a Hi) in Ha. injection Ha as <-.
      destruct (Hreach a Hi); auto.
    + pose proof (ringLeader_of_valid m3 a l Ha) as Hlt.
      rewrite (releads_length m2 m3 X _ Hr), m2_length in Hlt.
      assert (Hne : a <> s) by (intros ->; auto).
      rewrite (Hout a Hi) in Ha by lia.
      destruct (lead_member m m_lead a l Ha) as [H|H];
        [left|right]; apply Hm3, m2_reach_mono; exact H.
Qed.

Lemma next_cases : (exists n, seg_next x = Some n) \/ seg_next x = None.
Proof. destruct (seg_next x); eauto. Qed.

Lemma prev_cases : (exists p, seg_prev x = Some p) \/ seg_prev x = None.
Proof. destruct (seg_prev x); eauto. Qed.

Lemma stranded_leaders_ok :
  seg_prev x = None -> seg_next x = None -> leaders_ok m2.
Proof.
  intros HP HN. constructor.
  - intros a b Hab.
    destruct (m2_next_inv a b Hab) as [[_ H]|[[H _]|[Ha [Hb Hm]]]];
      try congruence.
    rewrite (m2_leader_old a Ha), (m2_leader_old b Hb).
    apply (lead_link m m_lead a b Hm).
  - intros a l Ha.
    pose proof (ringLeader_of_valid m2 a l Ha) as Hlt.
    rewrite m2_length in Hlt.
    destruct (Nat.eq_dec a s) as [->|Hne];
      [rewrite m2_leader_new in Ha; discriminate|].
    rewrite m2_leader_old in Ha by lia.
    destruct (lead_member m m_lead a l Ha) as [H|H];
      [left|right]; apply m2_reach_mono; exact H.
Qed.

Lemma old_link_old (a b : nat) :
  next_of m a = Some b -> (a < s)%nat /\ (b < s)%nat.
Proof.
  intros H. split.
  - apply (next_of_valid m a b H).
  - apply (next_target_valid m a b m_ok H).
Qed.

Lemma alone_no_link (k a b : nat) :
  ringLeader_of m k = None -> next_of m a = Some b -> a <> k /\ b <> k.
Proof.
  intros Hk Hab.
  destruct (no_leader_alone m k m_ok m_lead Hk) as [Hn Hp].
  split; intros ->; [congruence|].
  apply (next_prev m a k m_ok) in Hab. congruence.
Qed.

(** *** Both neighbours without a ring leader: a ring leader is created *)

Lemma create_leaders_ok :
  (forall p, seg_prev x = Some p -> ringLeader_of m p = None) ->
  (forall n, seg_next x = Some n -> ringLeader_of m n = None) ->
  let ma := update m2 s (fun y => set_ringLeader y (Some s)) in
  let mb := match seg_next x with
            | Some n =>
                update ma n (fun y => set_ringLeader y (ringLeader_of ma s))
            | None => ma
            end in
  let mc := match seg_prev x with
            | Some p =>
                update mb p (fun y => set_ringLeader y (ringLeader_of mb s))
            | None => mb
            end in
  leaders_ok mc.
Proof.
  intros HP HN ma mb mc.
  assert (Ha : ringLeader_of ma s = Some s).
  { apply ringLeader_of_update_same. rewrite m2_length. lia. }
  assert (Hb : ringLeader_of mb s = Some s).
  { unfold mb. destruct next_cases as [[n En]|En]; rewrite En;
      [|exact Ha].
    rewrite ringLeader_of_update; [exact Ha|].
    pose proof (proj1 (next_is_head n En)). lia. }
  assert (Hra : releads m2 ma [s] (Some s)) by apply releads_update.
  assert (Hrb : releads ma mb (ptr_list (seg_next x)) (Some s)).
  { unfold mb. destruct (seg_next x) as [n|]; [|apply releads_nil].
    rewrite Ha. apply releads_update. }
  assert (Hrc : releads mb mc (ptr_list (seg_prev x)) (Some s)).
  { unfold mc. destruct (seg_prev x) as [p|]; [|apply releads_nil].
    rewrite Hb. apply releads_update. }
  pose proof (releads_app _ _ _ _ _ _
                (releads_app _ _ _ _ _ _ Hra Hrb) Hrc) as Hr.
  assert (HX : forall k,
             In k (([s] ++ ptr_list (seg_next x)) ++ ptr_list (seg_prev x))
             <-> k = s \/ seg_next x = Some k \/ seg_prev x = Some k).
  { intros k. rewrite !in_app_iff. simpl.
    destruct (seg_next x) as [n|], (seg_prev x) as [p|]; simpl;
      intuition congruence. }
  apply (relead_leaders_ok mc _ s Hr).
  - apply HX. auto.
  - intros k Hk. apply HX in Hk. destruct Hk as [->|[Hk|Hk]]; [lia| |].
    + pose proof (proj1 (next_is_head k Hk)). lia.
    + pose proof (proj1 (prev_is_tail k Hk)). lia.
  - intros a b Hab. destruct (old_link_old a b Hab) as [Hlta Hltb].
    rewrite !HX.
    assert (Hn : forall k, seg_next x = Some k -> a <> k /\ b <> k)
      by (intros k Hk; apply alone_no_link; auto).
    assert (Hp : forall k, seg_prev x = Some k -> a <> k /\ b <> k)
      by (intros k Hk; apply alone_no_link; auto).
    split; intros [->|[H|H]]; try lia;
      try (destruct (Hn _ H); congruence);
      destruct (Hp _ H); congruence.
  - intros p Hp. left. apply HX. auto.
  - intros n Hn. left. apply HX. auto.
  - intros a Ha'. apply HX in Ha'. destruct Ha' as [->|[H|H]].
    + left. apply reach_refl.
    + left. apply reach_next. rewrite m2_next_new. exact H.
    + right. apply reach_next. apply m2_next_prev. exact H.
Qed.

(** *** Only the next segment has a ring leader *)

Lemma head_reaches_leader (n l : nat) :
  prev_of m n = None -> ringLeader_of m n = Some l -> reach m n l.
Proof.
  intros Hn Hl. destruct (lead_member m m_lead n l Hl) as [[t H]|H];
    [|exact H].
  destruct (steps_to_head m t l n m_ok Hn H) as [_ ->]. apply reach_refl.
Qed.

Lemma leader_reaches_tail (p l : nat) :
  next_of m p = None -> ringLeader_of m p = Some l -> reach m l p.
Proof.
  intros Hp Hl. destruct (lead_member m m_lead p l Hl) as [H|[t H]];
    [exact H|].
  destruct (steps_from_tail m t p l Hp H) as [_ ->]. apply reach_refl.
Qed.

Lemma distributePrev_ok (n nl : nat) :
  seg_next x = Some n ->
  ringLeader_of m n = Some nl ->
  (forall p, seg_prev x = Some p -> ringLeader_of m p = None) ->
  exists m3,
    distributeRingLeaderPrev m2 (Some n) = Ok m3 /\ leaders_ok m3.
Proof.
  intros HN Hnl HP.
  destruct (next_is_head n HN) as [Hn Hhead].
  destruct (m2_at_old n Hn) as [y [Hy Hy2]].
  assert (Hpn : prev_of m2 n = Some s).
  { rewrite (m2_prev_old n Hn), HN. simpl. rewrite Nat.eqb_refl.
    reflexivity. }
  assert (Hne : forall p, seg_prev x = Some p -> p <> n).
  { intros p Hp ->. rewrite (HP n Hp) in Hnl. discriminate. }
  set (W := s :: ptr_list (seg_prev x)).
  assert (HW : forall k, In k W <-> k = s \/ seg_prev x = Some k).
  { intros k. unfold W. simpl.
    destruct (seg_prev x) as [p|]; simpl; intuition congruence. }
  destruct (distribute_walk seg_prev (fun _ _ => eq_refl) W
              (S (length m2)) m2 n (Some s)) as [m3 [Hd Hr]].
  - unfold W. simpl. split; [reflexivity|].
    change (ptr_of seg_prev m2 s) with (prev_of m2 s).
    rewrite m2_prev_new.
    destruct prev_cases as [[p Ep]|Ep]; rewrite Ep; simpl; [|reflexivity].
    split; [reflexivity|].
    change (ptr_of seg_prev m2 p) with (prev_of m2 p).
    destruct (prev_is_tail p Ep) as [Hp _].
    rewrite (m2_prev_old p Hp), HN.
    replace (SegPtr_eqb (Some n) (Some p)) with false.
    + apply (no_leader_alone m p m_ok m_lead (HP p Ep)).
    + symmetry. apply SegPtr_eqb_neq. intros E. injection E as E.
      apply (Hne p Ep). congruence.
  - apply Forall_forall. intros k Hk. apply HW in Hk.
    rewrite m2_length. destruct Hk as [->|Hk]; [lia|].
    pose proof (proj1 (prev_is_tail k Hk)). lia.
  - unfold W. rewrite m2_length. destruct (seg_prev x); simpl; lia.
  - intros Hin. apply HW in Hin. destruct Hin as [->|Hin]; [lia|].
    apply (Hne n Hin). reflexivity.
  - exists m3. split.
    + unfold distributeRingLeaderPrev, distributeRingLeader.
      rewrite Hy2.
      replace (seg_prev (relink (seg_prev x) (seg_next x) s n y))
        with (prev_of m2 n) by (unfold prev_of; rewrite Hy2; reflexivity).
      rewrite Hpn. exact Hd.
    + rewrite (m2_leader_old n Hn), Hnl in Hr.
      pose proof (m2_reach_mono n nl (head_reaches_leader n nl Hhead Hnl))
        as Hreach.
      assert (Hsn : reach m2 s nl).
      { apply (reach_trans m2 s n nl); [|exact Hreach].
        apply reach_next. rewrite m2_next_new. exact HN. }
      apply (relead_leaders_ok m3 W nl Hr).
      * apply HW. auto.
      * intros k Hk. apply HW in Hk. destruct Hk as [->|Hk]; [lia|].
        pose proof (proj1 (prev_is_tail k Hk)). lia.
      * intros a b Hab. destruct (old_link_old a b Hab) as [Hlta Hltb].
        rewrite !HW.
        assert (Hp : forall k, seg_prev x = Some k -> a <> k /\ b <> k)
          by (intros k Hk; apply alone_no_link; auto).
        split; intros [->|H]; try lia; destruct (Hp _ H); congruence.
      * intros p Hp. left. apply HW. auto.
      * intros n' Hn'. right. congruence.
      * intros a Ha. apply HW in Ha. right. destruct Ha as [->|Ha].
        -- exact Hsn.
        -- apply (reach_trans m2 a s nl); [|exact Hsn].
           apply reach_next. apply m2_next_prev. exact Ha.
Qed.

(** *** The previous segment has a ring leader, the next another or none *)

Lemma reach_closed_back (n a b : nat) :
  prev_of m n = None -> next_of m a = Some b -> reach m n b -> reach m n a.
Proof.
  intros Hn Hab [t H]. destruct t as [|t].
  - simpl in H. injection H as <-.
    apply (next_prev m a n m_ok) in Hab. congruence.
  - rewrite steps_snoc in H.
    destruct (steps m n t) as [c|] eqn:E; [|discriminate].
    rewrite (next_injective m a c b m_ok Hab H). exists t. exact E.
Qed.

Lemma distributeNext_ok (p pl : nat) :
  seg_prev x = Some p ->
  ringLeader_of m p = Some pl ->
  (forall n, seg_next x = Some n -> ringLeader_of m n <> Some pl) ->
  exists m3,
    distributeRingLeaderNext m2 (Some p) = Ok m3 /\ leaders_ok m3.
Proof.
  intros HP Hpl HN.
  destruct (prev_is_tail p HP) as [Hp Htail].
  destruct (m2_at_old p Hp) as [y [Hy Hy2]].
  assert (Horbit : exists W',
             walk_list (next_of m) (seg_next x) W'
             /\ (length W' <= s)%nat
             /\ forall c, In c W' <->
                          exists n, seg_next x = Some n /\ reach m n c).
  { destruct next_cases as [[n En]|En]; rewrite En.
    - destruct (next_is_head n En) as [Hn Hhead].
      destruct (head_orbit m n m_ok Hn Hhead) as [W' [Hw [Hl Hin]]].
      exists W'. split; [exact Hw|]. split; [exact Hl|].
      intros c. rewrite Hin. split.
      + intros H. exists n. auto.
      + intros [n' [E H]]. congruence.
    - exists []. simpl. split; [reflexivity|]. split; [lia|].
      intros c. split; [intros []|]. intros [n [E _]]. discriminate. }
  destruct Horbit as [W' [Hw [Hlen HW']]].
  assert (Hvalid : forall c, In c W' -> (c < s)%nat).
  { intros c Hc. apply HW' in Hc. destruct Hc as [n [En [t Ht]]].
    apply (steps_valid m t n c m_ok); [|exact Ht].
    apply (next_is_head n En). }
  assert (Hnotp : ~ In p W').
  { intros Hc. apply HW' in Hc. destruct Hc as [n [En [t Ht]]].
    apply (HN n En).
    rewrite <- (leaders_equal_along m t m_lead n p Ht). exact Hpl. }
  set (W := s :: W').
  destruct (distribute_walk seg_next (fun _ _ => eq_refl) W
              (S (length m2)) m2 p (Some s)) as [m3 [Hd Hr]].
  - unfold W. simpl. split; [reflexivity|].
    change (ptr_of seg_next m2 s) with (next_of m2 s).
    rewrite m2_next_new.
    apply (walk_list_ext (next_of m)); [|exact Hw].
    intros k Hk. change (ptr_of seg_next m2 k) with (next_of m2 k).
    rewrite (m2_next_old k (Hvalid k Hk)), HP.
    replace (SegPtr_eqb (Some p) (Some k)) with false; [reflexivity|].
    symmetry. apply SegPtr_eqb_neq. intros E. injection E as ->.
    exact (Hnotp Hk).
  - apply Forall_forall. intros k [<-|Hk]; rewrite m2_length; [lia|].
    pose proof (Hvalid k Hk). lia.
  - unfold W. rewrite m2_length. simpl. lia.
  - intros [E|Hin]; [lia | exact (Hnotp Hin)].
  - exists m3. split.
    + unfold distributeRingLeaderNext, distributeRingLeader.
      rewrite Hy2.
      replace (seg_next (relink (seg_prev x) (seg_next x) s p y))
        with (next_of m2 p) by (unfold next_of; rewrite Hy2; reflexivity).
      rewrite (m2_next_prev p HP). exact Hd.
    + rewrite (m2_leader_old p Hp), Hpl in Hr.
      assert (Hps : reach m2 pl s).
      { apply (reach_trans m2 pl p s).
        - apply m2_reach_mono. apply leader_reaches_tail; assumption.
        - apply reach_next. apply m2_next_prev. exact HP. }
      apply (relead_leaders_ok m3 W pl Hr).
      * left. reflexivity.
      * intros k [<-|Hk]; [lia|]. pose proof (Hvalid k Hk). lia.
      * intros a b Hab. destruct (old_link_old a b Hab) as [Hlta Hltb].
        unfold W. simpl. rewrite !HW'. split.
        -- intros [E|[n [En Hr']]]; [lia|]. right. exists n.
           split; [exact En|].
           apply (reach_trans m n a b Hr'). apply reach_next. exact Hab.
        -- intros [E|[n [En Hr']]]; [lia|]. right. exists n.
           split; [exact En|].
           apply (reach_closed_back n a b); auto.
           apply (next_is_head n En).
      * intros p' Hp'. right. congruence.
      * intros n Hn. left. right. apply HW'. exists n.
        split; [exact Hn | apply reach_refl].
      * intros a [<-|Ha]; left; [exact Hps|].
        apply HW' in Ha. destruct Ha as [n [En Hr']].
        apply (reach_trans m2 pl s a Hps).
        apply (reach_trans m2 s n a).
        -- apply reach_next. rewrite m2_next_new. exact En.
        -- apply m2_reach_mono. exact Hr'.
Qed.

(** *** Both neighbours have the same ring leader: the ring is closed *)

Lemma close_ok (cf : FindContour) (p n pl : nat) :
  seg_prev x = Some p -> seg_next x = Some n ->
  ringLeader_of m p = Some pl -> ringLeader_of m n = Some pl ->
  let m3 := update m2 s (fun y => set_ringLeader y (Some pl)) in
  leaders_ok m3 /\ exists ring, extract_ring cf m3 (Some pl) = Ok ring.
Proof.
  intros HP HN Hpl Hnl m3.
  destruct (prev_is_tail p HP) as [Hp Htail].
  destruct (next_is_head n HN) as [Hn Hhead].
  assert (Hr : releads m2 m3 [s] (Some pl)) by apply releads_update.
  destruct (leader_reaches_tail p pl Htail Hpl) as [t2 Ht2].
  destruct (head_reaches_leader n pl Hhead Hnl) as [t1 Ht1].
  assert (H1 : steps m2 pl (t2 + 1) = Some s).
  { rewrite steps_add, (m2_steps_mono t2 pl p Ht2). simpl.
    rewrite (m2_next_prev p HP). reflexivity. }
  assert (Hlead : leaders_ok m3).
  { apply (relead_leaders_ok m3 [s] pl Hr).
    - left. reflexivity.
    - intros k [<-|[]]. lia.
    - intros a b Hab. destruct (old_link_old a b Hab). simpl.
      split; intros [E|[]]; lia.
    - intros p' Hp'. right. congruence.
    - intros n' Hn'. right. congruence.
    - intros a [<-|[]]. left. exists (t2 + 1)%nat. exact H1. }
  split; [exact Hlead|].
  assert (Hnp : steps m n (t1 + t2) = Some p)
    by (rewrite steps_add, Ht1; exact Ht2).
  pose proof (steps_from_head_bound m n _ p m_ok Hn Hhead Hnp) as Hbound.
  assert (Hst : forall t a, steps m3 a t = steps m2 a t)
    by (intros t a; apply (releads_steps m2 m3 [s] _ t Hr)).
  assert (H2 : steps m2 pl (t2 + 1 + 1) = Some n).
  { rewrite steps_add, H1. simpl. rewrite m2_next_new, HN. reflexivity. }
  assert (H3 : steps m2 pl (S (S (t2 + t1))) = Some pl).
  { replace (S (S (t2 + t1))) with (t2 + 1 + 1 + t1)%nat by lia.
    rewrite steps_add, H2. apply m2_steps_mono. exact Ht1. }
  pose proof H3 as H4. rewrite steps_snoc in H4.
  destruct (steps m2 pl (S (t2 + t1))) as [q|] eqn:Eq; [|discriminate].
  pose proof (next_prev m2 q pl m2_ok H4) as Hq.
  simpl in H3, Eq.
  destruct (next_of m2 pl) as [k0|] eqn:Ek0; [|discriminate].
  assert (Hlen : length m3 = S s)
    by (unfold m3; rewrite update_length; apply m2_length).
  assert (Hpls : (pl < s)%nat) by (apply (leader_valid m p pl); assumption).
  assert (Hlpl : ringLeader_of m3 pl = Some pl).
  { unfold m3. rewrite ringLeader_of_update by lia.
    rewrite (m2_leader_old pl Hpls).
    rewrite <- (leaders_equal_along m t2 m_lead pl p Ht2). exact Hpl. }
  assert (Hcycle : forall i b, steps m3 k0 i = Some b ->
                               ringLeader_of m3 b = Some pl).
  { intros i b Hb.
    rewrite (leaders_equal_along m3 i Hlead k0 b Hb).
    rewrite <- (proj1 (lead_link m3 Hlead pl k0
                         ltac:(rewrite (releads_next m2 m3 [s] _ pl Hr);
                               exact Ek0))).
    exact Hlpl. }
  assert (Hn3 : next_of m3 pl = Some k0)
    by (rewrite (releads_next m2 m3 [s] _ pl Hr); exact Ek0).
  assert (Hp3 : prev_of m3 pl = Some q)
    by (rewrite (releads_prev m2 m3 [s] _ pl Hr); exact Hq).
  assert (Hq3 : nth_error m3 q <> None).
  { assert (E : next_of m3 q = Some pl)
      by (rewrite (releads_next m2 m3 [s] _ q Hr); exact H4).
    unfold next_of in E. destruct (nth_error m3 q); congruence. }
  unfold extract_ring, extract_end.
  unfold next_of in Hn3. unfold prev_of in Hp3.
  destruct (nth_error m3 pl) as [h|] eqn:Eh; [|discriminate].
  rewrite Hp3.
  destruct (nth_error m3 q) as [hp|] eqn:Ehp; [|congruence].
  cbn [bind]. rewrite Hn3.
  destruct (negb (seg_type h =? seg_type hp)).
  - apply (extract_loop_ok cf m3 pl pl (S (t2 + t1))).
    + rewrite Hst. exact H3.
    + lia.
    + intros i b _ Hb. apply (Hcycle i b Hb).
  - apply (extract_loop_ok cf m3 pl q (t2 + t1)).
    + rewrite Hst. exact Eq.
    + lia.
    + intros i b _ Hb. apply (Hcycle i b Hb).
Qed.

End FreshLeaders.

(** ** Every admissible call of [addSegment] returns *)

Lemma ringLeader_of_update_keep (M : SegmentMap) (k a : nat)
      (f : Segment -> Segment) :
  (forall y, seg_ringLeader (f y) = seg_ringLeader y) ->
  ringLeader_of (update M k f) a = ringLeader_of M a.
Proof.
  intros Hf. unfold ringLeader_of. rewrite update_nth.
  destruct (Nat.eqb k a); [|reflexivity].
  destruct (nth_error M a); simpl; [apply Hf | reflexivity].
Qed.

Lemma link_result (M : SegmentMap) (s : nat) (prev next : SegPtr) :
  link M s prev next
  = (fst (fst (link M s prev next)),
     match prev with Some p => ringLeader_of M p | None => None end,
     match next with Some n => ringLeader_of M n | None => None end).
Proof.
  unfold link. destruct prev as [p|], next as [n|]; cbn [fst];
    rewrite ?ringLeader_of_update_keep by (intros; reflexivity);
    reflexivity.
Qed.

Lemma ringLeader_of_snoc (m : SegmentMap) (x : Segment) (a : nat) :
  (a < length m)%nat -> ringLeader_of (m ++ [x]) a = ringLeader_of m a.
Proof.
  intros H. unfold ringLeader_of. rewrite nth_error_app1 by exact H.
  reflexivity.
Qed.

Lemma addSegment_fresh_ok (cf : FindContour) (b : Builder)
      (type : CellType) (dir : Direction.t) (i j : Z) (st en : Vertex) :
  store_ok (segments b) -> leaders_ok (segments b) ->
  findByStart (segments b) st = None -> findByEnd (segments b) en = None ->
  exists b',
    addSegment cf b type dir i j st en = Ok b' /\ leaders_ok (segments b').
Proof.
  intros Hok Hlead Hs He.
  pose proof (linked_store_fresh_nth (segments b) type dir st en) as Hm2.
  cbv zeta in Hm2.
  assert (Hls : linked_store (segments b) type dir st en
                = match findByEnd (segments b) st,
                        findByStart (segments b) en with
                  | None, None =>
                      segments b
                      ++ [mkSegment type dir st en
                            (findByEnd (segments b) st)
                            (findByStart (segments b) en) None]
                  | _, _ =>
                      fst (fst (link
                        (segments b
                         ++ [mkSegment type dir st en
                               (findByEnd (segments b) st)
                               (findByStart (segments b) en) None])
                        (length (segments b))
                        (findByEnd (segments b) st)
                        (findByStart (segments b) en)))
                  end).
  { unfold linked_store, insert. cbn [seg_start seg_end].
    rewrite Hs, He. reflexivity. }
  assert (Hpf : forall pk, findByEnd (segments b) st = Some pk ->
                  exists P, nth_error (segments b) pk = Some P
                            /\ seg_end P = st)
    by (intros pk H; apply findByEnd_Some; exact H).
  assert (Hnf : forall nk, findByStart (segments b) en = Some nk ->
                  exists N, nth_error (segments b) nk = Some N
                            /\ seg_start N = en)
    by (intros nk H; apply findByStart_Some; exact H).
  pose proof (findByStart_None _ _ Hs) as Hns.
  pose proof (findByEnd_None _ _ He) as Hne.
  unfold addSegment. cbn [segments contour rings border].
  unfold insert. cbn [seg_start seg_end]. rewrite Hs, He.
  revert Hm2 Hls Hpf Hnf.
  generalize (linked_store (segments b) type dir st en) as m2.
  generalize (findByEnd (segments b) st) as prev.
  generalize (findByStart (segments b) en) as next.
  intros next prev m2 Hm2 Hls Hpf Hnf.
  specialize (fun k => Hm2 k Hs He).
  set (m := segments b) in *.
  set (x := mkSegment type dir st en prev next None) in *.
  set (b0 := mkBuilder m _).
  assert (Hlp : forall p, prev = Some p ->
                  ringLeader_of (m ++ [x]) p = ringLeader_of m p).
  { intros p Hp. apply ringLeader_of_snoc.
    destruct (Hpf p Hp) as [P [HP _]]. apply nth_error_Some. congruence. }
  assert (Hln : forall n, next = Some n ->
                  ringLeader_of (m ++ [x]) n = ringLeader_of m n).
  { intros n Hn. apply ringLeader_of_snoc.
    destruct (Hnf n Hn) as [N [HN _]]. apply nth_error_Some. congruence. }
  destruct prev as [p|], next as [n|].
  4:{ exists (with_segments b0 (m ++ [x])). split; [reflexivity|].
      cbn [with_segments segments]. rewrite <- Hls.
      apply (stranded_leaders_ok m x m2); auto. }
  all: rewrite link_result, <- Hls; cbv beta iota.
  all: rewrite ?(Hlp _ eq_refl), ?(Hln _ eq_refl).
  all: try destruct (ringLeader_of m p) as [pl|] eqn:Epl.
  all: try destruct (ringLeader_of m n) as [nl|] eqn:Enl.
  all: try (destruct (Nat.eqb pl nl) eqn:Eeq; cbn [negb]).
  all: try (eexists; split; [reflexivity|];
            cbn [with_segments segments];
            apply (create_leaders_ok m x m2); auto;
            intros q Hq; unfold x in Hq; cbn [seg_prev seg_next] in Hq;
            congruence).
  all: try (destruct (distributePrev_ok m x m2 Hok Hlead Hpf Hnf Hns Hne
                        Hm2 n nl eq_refl Enl) as [m3 [Hd Hl3]];
            [intros q Hq; unfold x in Hq; cbn [seg_prev] in Hq; congruence|];
            exists (with_segments b0 m3); rewrite Hd;
            split; [reflexivity | exact Hl3]).
  all: try (destruct (distributeNext_ok m x m2 Hok Hlead Hpf Hnf Hns Hne
                        Hm2 p pl eq_refl Epl) as [m3 [Hd Hl3]];
            [intros q Hq; unfold x in Hq; cbn [seg_next] in Hq;
             try apply Nat.eqb_neq in Eeq; congruence|];
            exists (with_segments b0 m3); rewrite Hd;
            split; [reflexivity | exact Hl3]).
  apply Nat.eqb_eq in Eeq. subst nl.
  destruct (close_ok m x m2 Hok Hlead Hpf Hnf Hns Hne Hm2 cf p n pl
              eq_refl eq_refl Epl Enl) as [Hl3 [ring Hring]].
  unfold extract. cbn [with_segments segments]. rewrite Hring.
  cbn [bind]. eexists. split; [reflexivity|]. exact Hl3.
Qed.

Lemma addSegment_returns (cf : FindContour) (b : Builder)
      (type : CellType) (dir : Direction.t) (i j : Z) (st en : Vertex) :
  store_ok (segments b) -> leaders_ok (segments b) ->
  admissible (segments b) st en ->
  exists b',
    addSegment cf b type dir i j st en = Ok b' /\ leaders_ok (segments b').
Proof.
  intros Hok Hlead [[Hs He]|[Hp Hn]];
    [apply addSegment_fresh_ok; assumption|].
  destruct (findByStart (segments b) st) as [k1|] eqn:Hs.
  - unfold addSegment, insert. cbn [segments seg_start seg_end].
    rewrite Hs, Hp, Hn. eexists. split; [reflexivity | exact Hlead].
  - destruct (findByEnd (segments b) en) as [k2|] eqn:He;
      [|apply addSegment_fresh_ok; assumption].
    unfold addSegment, insert. cbn [segments seg_start seg_end].
    rewrite Hs, He, Hp, Hn. eexists. split; [reflexivity | exact Hlead].
Qed.

(** ** Every run of compatible calls returns *)

Lemma leaders_ok_nil : leaders_ok [].
Proof.
  constructor.
  - intros a b H. unfold next_of in H. destruct a; discriminate.
  - intros a l H. unfold ringLeader_of in H. destruct a; discriminate.
Qed.

Lemma run_calls_returns (cf : FindContour) (cs : list Call) :
  forall (pre : list Call) (b : Builder),
    ForallOrdPairs compatible (pre ++ cs) ->
    store_ok (segments b) ->
    leaders_ok (segments b) ->
    covered pre (segments b) ->
    exists b', run_calls cf b cs = Ok b' /\ leaders_ok (segments b').
Proof.
  induction cs as [|c cs IH]; intros pre b Hfop Hok Hlead Hcov.
  - exists b. split; [reflexivity | exact Hlead].
  - pose proof (ForallOrdPairs_before _ _ _ _ Hfop) as Hbefore.
    pose proof (admissible_of_compatible pre _ c Hcov Hbefore) as Hadm.
    destruct (addSegment_returns cf b (call_type c) (call_direction c)
                (call_i c) (call_j c) (call_start c) (call_end c)
                Hok Hlead Hadm) as [b1 [H1 Hl1]].
    destruct (addSegment_inv cf b b1 _ _ _ _ _ _ H1) as [Hshape _].
    pose proof (linked_store_ok _ (call_type c) (call_direction c) _ _
                                Hok Hadm) as Hok1.
    pose proof (linked_store_covered pre _ c Hcov) as Hcov1.
    assert (Hpre : (pre ++ [c]) ++ cs = pre ++ c :: cs)
      by (rewrite <- app_assoc; reflexivity).
    rewrite <- Hpre in Hfop.
    destruct (IH (pre ++ [c]) b1 Hfop) as [b' [H2 Hl2]].
    + apply (store_ok_shape _ _ Hshape Hok1).
    + exact Hl1.
    + apply (covered_shape _ _ _ Hshape Hcov1).
    + exists b'. split; [|exact Hl2].
      cbn [run_calls]. unfold run_call. rewrite H1. exact H2.
Qed.

Lemma sweep_prefix_returns (cf : FindContour) (raster : Raster)
      (pre post : list Call) :
  sweep_calls cf raster = pre ++ post ->
  exists cb,
    run_calls cf (Builder_init (width raster) (height raster)) pre = Ok cb
    /\ leaders_ok (segments cb).
Proof.
  intros Hsplit.
  pose proof (sweep_calls_compatible cf raster) as Hfop.
  rewrite Hsplit in Hfop. apply FOP_app_l in Hfop.
  apply (run_calls_returns cf pre []); simpl.
  - exact Hfop.
  - apply store_ok_nil.
  - apply leaders_ok_nil.
  - intros k x Hx. destruct k; discriminate.
Qed.

(** ** [find_contour] returns *)

(** For every raster and every setting, [find_contour] returns a contour:
    the two checks of [extract] never throw, no null pointer is
    dereferenced, and the loops of [distributeRingLeaderPrev],
    [distributeRingLeaderNext] and [extract] end. *)
Theorem find_contour_returns (cf : FindContour) (raster : Raster) :
  exists c : Contour, find_contour cf raster = Ok c.
Proof.
  destruct (sweep_prefix_returns cf raster (sweep_calls cf raster) [])
    as [cb [H _]]; [symmetry; apply app_nil_r|].
  exists (contour cb). apply find_contour_calls. exists cb. auto.
Qed.

(** ** Ring leaders during a sweep *)

(** At every point of a sweep between two calls of [addSegment], two
    segments A and B with A.next = B have the same ring leader, which is
    not null; and a segment S with ring leader L is joined with L by a
    chain of [next] links, from L to S or from S to L. *)
Theorem linked_segments_share_ring_leader (cf : FindContour)
        (raster : Raster) (pre post : list Call) :
  sweep_calls cf raster = pre ++ post ->
  exists cb : Builder,
    run_calls cf (Builder_init (width raster) (height raster)) pre = Ok cb
    /\ (forall (a b : nat) (A B : Segment),
           nth_error (segments cb) a = Some A ->
           nth_error (segments cb) b = Some B ->
           seg_next A = Some b ->
           seg_ringLeader A = seg_ringLeader B
           /\ seg_ringLeader A <> None)
    /\ (forall (k l : nat) (S : Segment),
           nth_error (segments cb) k = Some S ->
           seg_ringLeader S = Some l ->
           reach (segments cb) l k \/ reach (segments cb) k l).
Proof.
  intros Hsplit.
  destruct (sweep_prefix_returns cf raster pre post Hsplit)
    as [cb [Hrun [Hlink Hmem]]].
  exists cb. split; [exact Hrun|]. split.
  - intros a b A B HA HB Hn.
    specialize (Hlink a b). unfold next_of, ringLeader_of in Hlink.
    rewrite HA, HB in Hlink. apply Hlink. exact Hn.
  - intros k l S HS Hl. apply Hmem. unfold ringLeader_of.
    rewrite HS. exact Hl.
Qed.

Lemma linked_segments_share_ring_leader_witness :
  exists cb : Builder,
    run_calls default_cf (Builder_init 2 2)
              (sweep_calls default_cf raster_saddle) = Ok cb
    /\ (forall (a b : nat) (A B : Segment),
           nth_error (segments cb) a = Some A ->
           nth_error (segments cb) b = Some B ->
           seg_next A = Some b ->
           seg_ringLeader A = seg_ringLeader B
           /\ seg_ringLeader A <> None)
    /\ (forall (k l : nat) (S : Segment),
           nth_error (segments cb) k = Some S ->
           seg_ringLeader S = Some l ->
           reach (segments cb) l k \/ reach (segments cb) k l).
Proof.
  apply (linked_segments_share_ring_leader default_cf raster_saddle
           (sweep_calls default_cf raster_saddle) []).
  symmetry. apply app_nil_r.
Defined.

(** * The vertices of a ring *)

(** ** No ring has a vertex twice *)

Lemma Subsequence_NoDup {A : Type} (l1 l2 : list A) :
  Subsequence l1 l2 -> NoDup l2 -> NoDup l1.
Proof.
  induction 1 as [|x l1 l2 H IH|x l1 l2 H IH]; intros Hnd.
  - constructor.
  - inversion Hnd; subst. auto.
  - inversion Hnd as [|? ? Hx Hl]; subst. constructor; [|auto].
    intros Hin. apply Hx. apply (Subsequence_In l1 l2 x H Hin).
Qed.

Lemma NoDup_map_in {A B : Type} (f : A -> B) (l : list A) :
  (forall a b, In a l -> In b l -> f a = f b -> a = b) ->
  NoDup l -> NoDup (map f l).
Proof.
  induction l as [|a l IH]; intros Hf Hnd; simpl; [constructor|].
  inversion Hnd as [|? ? Ha Hl]; subst. constructor.
  - intros Hin. apply in_map_iff in Hin. destruct Hin as [b [E Hb]].
    apply Ha. rewrite (Hf a b); simpl; auto.
  - apply IH; [|exact Hl]. intros x y Hx Hy. apply Hf; simpl; auto.
Qed.

Lemma to_pixel_injective (cf : FindContour) (v v' : Vertex) :
  to_pixel cf v = to_pixel cf v' -> v = v'.
Proof.
  destruct v as [a b], v' as [a' b']. unfold to_pixel. cbn [fst snd].
  intros H.
  pose proof (f_equal fst H) as Hx. pose proof (f_equal snd H) as Hy.
  cbn [fst snd] in Hx, Hy.
  apply Qred_eq_iff in Hx, Hy.
  assert (Hh : forall (u u' : Z) (o : Q),
             (inject_Z u / 2 + o == inject_Z u' / 2 + o)%Q -> u = u').
  { intros u u' o E. apply Qplus_inj_r in E.
    unfold Qeq, Qdiv, Qmult, Qinv, inject_Z in E. simpl in E. lia. }
  f_equal; eapply Hh; eassumption.
Qed.

(** The walk of [extract]: the segments gone through lie between the head
    and [end], and [end] is not one of them. *)
Lemma extract_loop_walk (cf : FindContour) (m : SegmentMap)
      (head end_ : nat) (fuel : nat) :
  forall (pk : nat) (p : Segment) (ring ring' : Polygon),
    nth_error m pk = Some p ->
    extract_loop cf m head end_ fuel p (seg_next p) ring = Ok ring' ->
    exists (ks : list nat) (corners : list Vertex),
      next_path m pk ks end_
      /\ ~ In end_ ks
      /\ Subsequence corners (map (fun k => fst (ends_of m k)) ks)
      /\ ring' = ring ++ map (to_pixel cf) corners.
Proof.
  induction fuel as [|fuel IH]; intros pk p ring ring' Hp H; simpl in H.
  - destruct (SegPtr_eqb (seg_next p) (Some end_)) eqn:E; [|discriminate].
    apply SegPtr_eqb_eq in E. injection H as <-.
    exists [], []. simpl. unfold next_of. rewrite Hp, app_nil_r.
    split; [exact E|]. split; [intros []|]. split; [constructor | reflexivity].
  - destruct (SegPtr_eqb (seg_next p) (Some end_)) eqn:E.
    + apply SegPtr_eqb_eq in E. injection H as <-.
      exists [], []. simpl. unfold next_of. rewrite Hp, app_nil_r.
      split; [exact E|]. split; [intros []|].
      split; [constructor | reflexivity].
    + apply SegPtr_eqb_neq in E.
      destruct (seg_next p) as [k|] eqn:Enext; [|discriminate].
      destruct (nth_error m k) as [sk|] eqn:Ek; [|discriminate].
      destruct (negb (SegPtr_eqb (seg_ringLeader sk) (Some head)));
        [discriminate|].
      destruct (seg_next sk) as [k'|] eqn:Ek'; [|discriminate].
      rewrite <- Ek' in H.
      apply (IH k sk _ ring' Ek) in H.
      destruct H as [ks [corners [Hpath [Hend [Hsub Hring]]]]].
      assert (Hk : next_of m pk = Some k)
        by (unfold next_of; rewrite Hp; exact Enext).
      assert (Hst : fst (ends_of m k) = seg_start sk)
        by (unfold ends_of; rewrite Ek; reflexivity).
      assert (Hend' : ~ In end_ (k :: ks))
        by (intros [->|Hin]; [congruence | exact (Hend Hin)]).
      destruct (negb (joinStraightSegments cf)
                || negb (Direction.eqb (seg_direction sk) (seg_direction p))).
      * exists (k :: ks), (seg_start sk :: corners). simpl.
        split; [auto|]. split; [exact Hend'|]. split.
        -- rewrite Hst. apply Subsequence_keep. exact Hsub.
        -- rewrite Hring. unfold addVertex. rewrite <- app_assoc.
           reflexivity.
      * exists (k :: ks), corners. simpl.
        split; [auto|]. split; [exact Hend'|]. split; [|exact Hring].
        apply Subsequence_skip. exact Hsub.
Qed.

Lemma path_pred (m : SegmentMap) (ks : list nat) :
  forall a b x,
    next_path m a ks b -> In x ks ->
    exists y, (y = a \/ In y ks) /\ next_of m y = Some x.
Proof.
  induction ks as [|k ks IH]; intros a b x H Hin; [destruct Hin|].
  simpl in H. destruct H as [Hak Hp]. destruct Hin as [->|Hin].
  - exists a. auto.
  - destruct (IH k b x Hp Hin) as [y [Hy Hn]].
    exists y. split; [right; destruct Hy as [->|Hy]; simpl; auto | exact Hn].
Qed.

Lemma path_NoDup (m : SegmentMap) (ks : list nat) :
  store_ok m ->
  forall a b, next_path m a ks b -> ~ In a ks -> NoDup (a :: ks).
Proof.
  intros Hok. induction ks as [|k ks IH]; intros a b H Ha.
  - constructor; [exact Ha | constructor].
  - constructor; [exact Ha|].
    simpl in H. destruct H as [Hak Hp].
    apply (IH k b Hp). intros Hin.
    destruct (path_pred m ks k b k Hp Hin) as [y [Hy Hn]].
    rewrite (next_injective m a y k Hok Hak Hn) in Ha.
    apply Ha. destruct Hy as [->|Hy]; simpl; auto.
Qed.

Lemma path_valid (m : SegmentMap) (ks : list nat) :
  store_ok m ->
  forall a b, next_path m a ks b ->
    forall k, In k ks -> nth_error m k <> None.
Proof.
  intros Hok. induction ks as [|k0 ks IH]; intros a b H k Hin;
    [destruct Hin|].
  simpl in H. destruct H as [Hak Hp]. destruct Hin as [<-|Hin].
  - apply nth_error_Some. apply (next_target_valid m a k0 Hok Hak).
  - apply (IH k0 b Hp k Hin).
Qed.

(** The ring [extract] produces from a store with consistent links and
    unique starts has no vertex twice. *)
Lemma extract_ring_NoDup (cf : FindContour) (m : SegmentMap)
      (head : SegPtr) (ring : Polygon) :
  store_ok m -> extract_ring cf m head = Ok ring -> NoDup ring.
Proof.
  intros Hok H. unfold extract_ring in H.
  destruct head as [hk|]; [|discriminate].
  destruct (nth_error m hk) as [h|] eqn:Hh; [|discriminate].
  apply bind_Ok in H. destruct H as [end_ [Hend H]].
  apply (extract_loop_walk cf m hk end_ _ hk h _ ring Hh) in H.
  destruct H as [ks [corners [Hpath [Havoid [Hsub Hring]]]]].
  assert (Hcase : end_ = hk \/ next_of m end_ = Some hk).
  { unfold extract_end in Hend. rewrite Hh in Hend.
    destruct (seg_prev h) as [pk|] eqn:Hprev; [|discriminate].
    destruct (nth_error m pk) as [hp|] eqn:Hpk; [|discriminate].
    injection Hend as Hend.
    destruct (negb (seg_type h =? seg_type hp)); [auto|].
    right. subst end_. apply (prev_next m pk hk Hok).
    unfold prev_of. rewrite Hh. exact Hprev. }
  assert (Hhead : ~ In hk ks).
  { intros Hin. destruct Hcase as [->|Hn]; [exact (Havoid Hin)|].
    destruct (path_pred m ks hk end_ hk Hpath Hin) as [y [Hy Hy']].
    rewrite <- (next_injective m end_ y hk Hok Hn Hy') in Hy.
    destruct Hy as [->|Hy]; [exact (Havoid Hin) | exact (Havoid Hy)]. }
  pose proof (path_NoDup m ks Hok hk end_ Hpath Hhead) as Hnd.
  assert (Hstarts : NoDup (map (fun k => fst (ends_of m k)) (hk :: ks))).
  { apply NoDup_map_in; [|exact Hnd].
    intros a b Ha Hb E.
    assert (Hv : forall k, In k (hk :: ks) -> nth_error m k <> None).
    { intros k [<-|Hk]; [congruence|].
      apply (path_valid m ks Hok hk end_ Hpath k Hk). }
    pose proof (Hv a Ha) as Hva. pose proof (Hv b Hb) as Hvb.
    unfold ends_of in E.
    destruct (nth_error m a) as [A|] eqn:EA; [|congruence].
    destruct (nth_error m b) as [B|] eqn:EB; [|congruence].
    apply (ok_starts m Hok a b A B EA EB). exact E. }
  rewrite Hring. unfold addVertex.
  change (([] ++ [to_pixel cf (seg_start h)]) ++ map (to_pixel cf) corners)
    with (map (to_pixel cf) (seg_start h :: corners)).
  apply NoDup_map_in.
  - intros a b _ _. apply to_pixel_injective.
  - apply (Subsequence_NoDup _ (map (fun k => fst (ends_of m k)) (hk :: ks)));
      [|exact Hstarts].
    simpl. replace (fst (ends_of m hk)) with (seg_start h)
      by (unfold ends_of; rewrite Hh; reflexivity).
    apply Subsequence_keep. exact Hsub.
Qed.

(** What holds for every ring [extract] produces from a store with
    consistent links holds for the rings of a run of compatible calls. *)
Lemma run_calls_rings (cf : FindContour) (Q : Polygon -> Prop) :
  (forall m head ring,
      store_ok m -> extract_ring cf m head = Ok ring -> Q ring) ->
  forall (cs pre : list Call) (b b' : Builder),
    ForallOrdPairs compatible (pre ++ cs) ->
    store_ok (segments b) ->
    covered pre (segments b) ->
    Forall Q (rings (contour b)) ->
    run_calls cf b cs = Ok b' ->
    Forall Q (rings (contour b')).
Proof.
  intros HQ. induction cs as [|c cs IH];
    intros pre b b' Hfop Hok Hcov Hrings H; simpl in H.
  - injection H as <-. exact Hrings.
  - apply bind_Ok in H. destruct H as [b1 [H1 H2]].
    unfold run_call in H1. apply addSegment_inv in H1.
    destruct H1 as [Hshape Hr].
    pose proof (ForallOrdPairs_before _ _ _ _ Hfop) as Hbefore.
    pose proof (admissible_of_compatible pre _ c Hcov Hbefore) as Hadm.
    pose proof (linked_store_ok _ (call_type c) (call_direction c) _ _
                                Hok Hadm) as Hok1.
    pose proof (linked_store_covered pre _ c Hcov) as Hcov1.
    assert (Hpre : (pre ++ [c]) ++ cs = pre ++ c :: cs)
      by (rewrite <- app_assoc; reflexivity).
    rewrite <- Hpre in Hfop.
    apply (IH (pre ++ [c]) b1 b' Hfop); try exact H2.
    + apply (store_ok_shape _ _ Hshape Hok1).
    + apply (covered_shape _ _ _ Hshape Hcov1).
    + destruct Hr as [->|[m' [head [ring [Hs' [_ [_ [Hex ->]]]]]]]];
        [exact Hrings|].
      apply Forall_app. split; [exact Hrings|].
      constructor; [|constructor].
      apply (HQ m' head ring); [|exact Hex].
      apply (store_ok_shape _ _ Hs' Hok1).
Qed.

(** No ring of the contour [find_contour] returns has a vertex twice. *)
Theorem rings_repeat_no_vertex (cf : FindContour) (raster : Raster)
        (c : Contour) (ring : Polygon) :
  find_contour cf raster = Ok c ->
  In ring (rings c) ->
  NoDup ring.
Proof.
  intros H Hin. apply find_contour_calls in H. destruct H as [cb [H <-]].
  assert (Hall : Forall (@NoDup Point2d) (rings (contour cb))).
  { apply (run_calls_rings cf (@NoDup Point2d) (extract_ring_NoDup cf)
             (sweep_calls cf raster) []
             (Builder_init (width raster) (height raster)) cb).
    - apply sweep_calls_compatible.
    - apply store_ok_nil.
    - intros k x Hx. destruct k; discriminate.
    - constructor.
    - exact H. }
  rewrite Forall_forall in Hall. apply Hall. exact Hin.
Qed.

Lemma rings_repeat_no_vertex_witness : NoDup pixel_center_square.
Proof.
  apply (rings_repeat_no_vertex default_cf raster_1x1
           (mkContour [pixel_center_square] (mkMask 1 1 [(0, 0)]))).
  - vm_compute. reflexivity.
  - left. reflexivity.
Defined.

(** ** The vertices of a ring lie within the raster *)

Lemma chained_last (rest : list Edge) :
  forall e t, chained e rest t -> exists e', In e' (e :: rest) /\ snd e' = t.
Proof.
  induction rest as [|e1 rest IH]; intros e t H; simpl in H.
  - exists e. simpl. auto.
  - destruct H as [_ H]. destruct (IH e1 t H) as [e' [Hin He]].
    exists e'. split; [right; exact Hin | exact He].
Qed.

Lemma chained_starts (rest : list Edge) :
  forall e t e',
    chained e rest t -> In e' rest ->
    exists e'', In e'' (e :: rest) /\ snd e'' = fst e'.
Proof.
  induction rest as [|e1 rest IH]; intros e t e' H Hin; [destruct Hin|].
  simpl in H. destruct H as [H1 H2]. destruct Hin as [<-|Hin].
  - exists e. simpl. auto.
  - destruct (IH e1 t e' H2 Hin) as [e'' [Hin' He]].
    exists e''. split; [right; exact Hin' | exact He].
Qed.

(** Every vertex of a closed ring is the end of one of the calls. *)
Lemma closed_ring_vertices (cf : FindContour) (calls : list Call)
      (ring : Polygon) (pt : Point2d) :
  cyclically_closed cf calls ring -> In pt ring ->
  exists c, In c calls /\ pt = to_pixel cf (call_end c).
Proof.
  intros [e [rest [corners [Hch [Hcalls [Hsub ->]]]]]] Hin.
  apply in_map_iff in Hin. destruct Hin as [v [<- Hv]].
  assert (He : exists e', In e' (e :: rest) /\ snd e' = v).
  { destruct Hv as [<-|Hv]; [apply (chained_last rest e _ Hch)|].
    apply (Subsequence_In _ _ _ Hsub) in Hv.
    apply in_map_iff in Hv. destruct Hv as [e' [<- He']].
    apply (chained_starts rest e _ e' Hch He'). }
  destruct He as [e' [He' <-]].
  destruct (Hcalls e' He') as [c [Hc [_ Hend]]].
  exists c. split; [exact Hc | congruence].
Qed.

Lemma visit_cell_range (w h : Z) (v : Visit) :
  0 <= w -> 0 <= h ->
  In v (sweep w h) ->
  -1 <= fst (visit_cell v) <= w - 1 /\ -1 <= snd (visit_cell v) <= h - 1.
Proof.
  intros Hw Hh H. apply sweep_In in H.
  destruct H as [[i [Hi ->]]|[[j [Hj H]]|[i [Hi ->]]]]; simpl; try lia.
  unfold sweep_row in H. rewrite !in_app_iff, in_map_iff in H.
  destruct H as [[<-|[]]|[[i [<- Hi]]|[<-|[]]]]; simpl; try lia.
  apply counter_In in Hi. lia.
Qed.

Lemma crossing_end_range (raster : Raster) (P : Vertex) (i j : Z) :
  -1 <= i <= width raster - 1 -> -1 <= j <= height raster - 1 ->
  crossing_end raster P i j ->
  -1 <= fst P <= 2 * width raster - 1
  /\ -1 <= snd P <= 2 * height raster - 1.
Proof.
  intros Hi Hj H.
  assert (Hg : forall x y, get raster x y = true ->
                 0 <= x < width raster /\ 0 <= y < height raster).
  { intros x y E. apply in_bounds_range, get_true_in_bounds, E. }
  destruct H as [[-> [_ H]]|[[-> [H _]]|[[-> [_ H]]|[[-> [H _]]| ->]]]];
    cbn [fst snd]; try apply Hg in H; lia.
Qed.

Lemma sweep_call_end_range (cf : FindContour) (raster : Raster) (c : Call) :
  In c (sweep_calls cf raster) ->
  -1 <= fst (call_end c) <= 2 * width raster - 1
  /\ -1 <= snd (call_end c) <= 2 * height raster - 1.
Proof.
  intros H.
  destruct (Z_lt_le_dec (width raster) 1) as [Hw|Hw];
    [rewrite no_pixels_no_calls in H by lia; destruct H|].
  destruct (Z_lt_le_dec (height raster) 1) as [Hh|Hh];
    [rewrite no_pixels_no_calls in H by lia; destruct H|].
  destruct (sweep_calls_placed cf raster c H)
    as [[Hend _] [v [Hv Hcell]]].
  apply visit_cell_range in Hv; try lia.
  rewrite Hcell in Hv. cbn [fst snd] in Hv.
  apply (crossing_end_range raster _ (call_i c) (call_j c)); tauto.
Qed.

(** Every vertex of every ring of the contour [find_contour] returns is a
    point [(vx, vy)] of the lattice of half pixels, taken to pixel space,
    with [-1 <= vx <= 2W - 1] and [-1 <= vy <= 2H - 1]: the rings stay
    within the outline of the raster. *)
Theorem ring_vertices_within_raster (cf : FindContour) (raster : Raster)
        (c : Contour) (ring : Polygon) (pt : Point2d) :
  find_contour cf raster = Ok c ->
  In ring (rings c) ->
  In pt ring ->
  exists v : Vertex,
    pt = to_pixel cf v
    /\ -1 <= fst v <= 2 * width raster - 1
    /\ -1 <= snd v <= 2 * height raster - 1.
Proof.
  intros H Hring Hpt.
  apply find_contour_calls in H. destruct H as [cb [H <-]].
  destruct (sweep_prefix_ok cf raster (sweep_calls cf raster) [] cb)
    as [_ [_ Hrings]]; [symmetry; apply app_nil_r | exact H |].
  rewrite Forall_forall in Hrings.
  destruct (closed_ring_vertices cf _ ring pt (Hrings ring Hring) Hpt)
    as [q [Hq ->]].
  exists (call_end q). split; [reflexivity|].
  apply (sweep_call_end_range cf raster q Hq).
Qed.

Lemma ring_vertices_within_raster_witness :
  exists v : Vertex,
    ((1 # 2)%Q, (-1 # 2)%Q) = to_pixel default_cf v
    /\ -1 <= fst v <= 2 * 1 - 1
    /\ -1 <= snd v <= 2 * 1 - 1.
Proof.
  apply (ring_vertices_within_raster default_cf raster_1x1
           (mkContour [pixel_center_square] (mkMask 1 1 [(0, 0)]))
           pixel_center_square).
  - vm_compute. reflexivity.
  - left. reflexivity.
  - right. left. reflexivity.
Defined.

(** * The chains of a finished sweep *)

(** ** Every crossing is served by the tables *)

Ltac cell_tables cf raster Hs x y :=
  rewrite getFlags_code;
  destruct (get raster x (y + 1)) eqn:G0,
    (get raster (x + 1) (y + 1)) eqn:G1,
    (get raster (x + 1) y) eqn:G2, (get raster x y) eqn:G3;
  cbn [code_of Z.b2z Z.add Z.mul Pos.add Pos.mul Pos.succ
       add_calls addBorder_calls];
  try (rewrite addAmbiguous_calls_eq; cbv zeta;
       match goal with
       | |- context [ambiguousType cf ?v ?t] =>
           let E := fresh "E" in
           destruct (is_saddle_cases _ (Hs v t eq_refl)) as [E|E];
           rewrite E; cbn [Z.eqb Pos.eqb]
       end);
  unfold ADD_SEGMENT; cbv zeta.

Ltac serve_with tac :=
  first
    [ solve [eexists; split; [left; reflexivity | tac]]
    | solve [eexists; split; [right; left; reflexivity | tac]]
    | solve [eexists; split; [right; right; left; reflexivity | tac]]
    | solve [eexists; split;
             [right; right; right; left; reflexivity | tac]] ].

(** In a visited cell, a segment starts at every edge of the cell that is
    crossed in the sense in which the tables leave it. *)
Lemma crossing_served (cf : FindContour) (raster : Raster) (v : Visit)
      (P : Vertex) :
  answers_saddles cf ->
  crossing_start raster P (fst (visit_cell v)) (snd (visit_cell v)) ->
  P <> (fst (visit_cell v) * 2 + 1, snd (visit_cell v) * 2 + 1) ->
  exists c, In c (visit_calls cf raster v)
            /\ call_start c = P /\ is_fallthrough c = false.
Proof.
  intros Hs.
  destruct v as [x y|x y]; cbn [visit_calls visit_cell fst snd];
    unfold crossing_start;
    cell_tables cf raster Hs x y;
    intros [[-> [Ha Hb]]|[[-> [Ha Hb]]|[[-> [Ha Hb]]|[[-> [Ha Hb]]| ->]]]]
           Hc;
    try congruence;
    serve_with ltac:(split; [reflexivity | not_fallthrough]).
Qed.

Ltac cell_calls cf raster x y :=
  rewrite getFlags_code;
  destruct (get raster x (y + 1)), (get raster (x + 1) (y + 1)),
    (get raster (x + 1) y), (get raster x y);
  cbn [code_of Z.b2z Z.add Z.mul Pos.add Pos.mul Pos.succ
       add_calls addBorder_calls];
  try rewrite addAmbiguous_calls_eq; cbv zeta;
  repeat match goal with
         | |- context [if ?b then _ else _] => destruct b
         end;
  unfold ADD_SEGMENT; cbv zeta; cbn [In].

(** A segment that ends in the centre of its cell is followed by a segment
    of the same cell. *)
Lemma centre_end_continues (cf : FindContour) (raster : Raster) (v : Visit)
      (c : Call) :
  In c (visit_calls cf raster v) ->
  call_end c = (fst (visit_cell v) * 2 + 1, snd (visit_cell v) * 2 + 1) ->
  exists c', In c' (visit_calls cf raster v)
             /\ call_start c' = call_end c /\ is_fallthrough c' = false.
Proof.
  destruct v as [x y|x y]; cbn [visit_calls visit_cell fst snd];
    cell_calls cf raster x y;
    intros H;
    repeat (destruct H as [H|H]; [subst c|]); try contradiction;
    cbn [call_end]; intros Hc;
    try (exfalso; injection Hc; intros; lia);
    serve_with ltac:(split; [reflexivity | not_fallthrough]).
Qed.

(** No call asks for a segment that ends where it starts. *)
Lemma visit_calls_proper (cf : FindContour) (raster : Raster) (v : Visit)
      (c : Call) :
  In c (visit_calls cf raster v) -> call_start c <> call_end c.
Proof.
  destruct v as [x y|x y]; cbn [visit_calls];
    cell_calls cf raster x y;
    intros H;
    repeat (destruct H as [H|H]; [subst c|]); try contradiction;
    cbn [call_start call_end]; lattice_neq.
Qed.

Lemma sweep_calls_proper (cf : FindContour) (raster : Raster) :
  Forall (fun c => call_start c <> call_end c) (sweep_calls cf raster).
Proof.
  apply Forall_forall. intros c H. unfold sweep_calls in H.
  apply in_flat_map in H. destruct H as [v [_ Hc]].
  apply (visit_calls_proper cf raster v c Hc).
Qed.

(** ** Every segment of a sweep is followed by another *)

Lemma sweep_call_continues (cf : FindContour) (raster : Raster) (c : Call) :
  answers_saddles cf ->
  In c (sweep_calls cf raster) ->
  exists c', In c' (sweep_calls cf raster)
             /\ call_start c' = call_end c /\ is_fallthrough c' = false.
Proof.
  intros Hs H.
  destruct (Z_lt_le_dec (width raster) 1) as [Hw|Hw];
    [rewrite no_pixels_no_calls in H by lia; destruct H|].
  destruct (Z_lt_le_dec (height raster) 1) as [Hh|Hh];
    [rewrite no_pixels_no_calls in H by lia; destruct H|].
  unfold sweep_calls in H. apply in_flat_map in H.
  destruct H as [v [Hv Hc]].
  pose proof (visit_calls_placed cf raster v c
                (sweep_visited_properly raster v Hv) Hc) as [Hend _].
  destruct (visit_calls_tag cf raster v c Hc) as [Hi [Hj _]].
  assert (Hg : forall x y, get raster x y = true ->
                 0 <= x < width raster /\ 0 <= y < height raster).
  { intros x y E. apply in_bounds_range, get_true_in_bounds, E. }
  assert (Hserve : forall i' j' P,
             -1 <= i' <= width raster - 1 ->
             -1 <= j' <= height raster - 1 ->
             crossing_start raster P i' j' ->
             P <> (i' * 2 + 1, j' * 2 + 1) ->
             P = call_end c ->
             exists c', In c' (sweep_calls cf raster)
                        /\ call_start c' = call_end c
                        /\ is_fallthrough c' = false).
  { intros i' j' P Hi' Hj' Hcross Hne HP.
    destruct (cell_visited (width raster) (height raster) i' j'
                Hw Hh Hi' Hj') as [v' [Hv' Hcell]].
    destruct (crossing_served cf raster v' P Hs) as [c' [Hc' [Hst Hf]]].
    - rewrite Hcell. exact Hcross.
    - rewrite Hcell. exact Hne.
    - exists c'. split; [|split; [congruence | exact Hf]].
      unfold sweep_calls. apply in_flat_map. exists v'. auto. }
  unfold crossing_end in Hend.
  destruct Hend as [[HP [Ha Hb]]|[[HP [Ha Hb]]|[[HP [Ha Hb]]|[[HP [Ha Hb]]
                   |HP]]]].
  - (* the upper edge: the cell above *)
    pose proof (Hg _ _ Hb) as Hr.
    apply (Hserve (call_i c) (call_j c - 1)
                  (call_i c * 2 + 1, (call_j c - 1) * 2 + 2)); try lia.
    + right; right; right; left. split; [reflexivity|].
      replace (call_j c - 1 + 1) with (call_j c) by lia. auto.
    + lattice_neq.
    + rewrite HP. f_equal; lia.
  - (* the left edge: the cell on the left *)
    pose proof (Hg _ _ Ha) as Hr.
    apply (Hserve (call_i c - 1) (call_j c)
                  ((call_i c - 1) * 2 + 2, call_j c * 2 + 1)); try lia.
    + right; right; left. split; [reflexivity|].
      replace (call_i c - 1 + 1) with (call_i c) by lia. auto.
    + lattice_neq.
    + rewrite HP. f_equal; lia.
  - (* the right edge: the cell on the right *)
    pose proof (Hg _ _ Hb) as Hr.
    apply (Hserve (call_i c + 1) (call_j c)
                  ((call_i c + 1) * 2 + 0, call_j c * 2 + 1)); try lia.
    + right; left. split; [reflexivity|]. auto.
    + lattice_neq.
    + rewrite HP. f_equal; lia.
  - (* the lower edge: the cell below *)
    pose proof (Hg _ _ Ha) as Hr.
    apply (Hserve (call_i c) (call_j c + 1)
                  (call_i c * 2 + 1, (call_j c + 1) * 2 + 0)); try lia.
    + left. split; [reflexivity|]. auto.
    + lattice_neq.
    + rewrite HP. f_equal; lia.
  - (* the centre: the same cell *)
    destruct (centre_end_continues cf raster v c Hc) as [c' [Hc' H']].
    + rewrite <- Hi, <- Hj. exact HP.
    + exists c'. split; [|exact H'].
      unfold sweep_calls. apply in_flat_map. exists v. auto.
Qed.

(** ** Segments that meet are linked *)

Lemma linked_store_cases (m : SegmentMap) (type : CellType)
      (dir : Direction.t) (st en : Vertex) :
  admissible m st en ->
  (findByStart m st = None /\ findByEnd m en = None)
  \/ linked_store m type dir st en = m.
Proof.
  intros [[Hs He]|[Hp Hn]]; [auto|].
  destruct (findByStart m st) as [k1|] eqn:Hs;
    [|destruct (findByEnd m en) as [k2|] eqn:He; [|auto]];
    right; unfold linked_store, insert; cbn [seg_start seg_end];
    rewrite ?Hs, ?He, Hp, Hn; reflexivity.
Qed.

Lemma links_complete_shape (m m' : SegmentMap) :
  shape m' = shape m -> links_complete m -> links_complete m'.
Proof.
  intros Hs Hl a b A' B' HA HB E.
  destruct (shape_fields m m' a A' Hs HA) as [A [HA0 [_ [Ea [_ [En _]]]]]].
  destruct (shape_fields m m' b B' Hs HB) as [B [HB0 [Eb _]]].
  rewrite <- En. apply (Hl a b A B HA0 HB0). congruence.
Qed.

Lemma stored_shape (cs : list Call) (m m' : SegmentMap) :
  shape m' = shape m -> stored cs m -> stored cs m'.
Proof.
  intros Hs Hst c Hc Hf. destruct (Hst c Hc Hf) as [k [S [HS [E1 E2]]]].
  assert (Hs' : shape m = shape m') by (symmetry; exact Hs).
  destruct (shape_fields m' m k S Hs' HS) as [S' [HS' [Es [Ee _]]]].
  exists k, S'. split; [exact HS'|]. split; congruence.
Qed.

Lemma linked_store_links_complete (m : SegmentMap) (type : CellType)
      (dir : Direction.t) (st en : Vertex) :
  store_ok m -> links_complete m -> st <> en ->
  findByStart m st = None -> findByEnd m en = None ->
  links_complete (linked_store m type dir st en).
Proof.
  intros Hok Hl Hne Hs He.
  pose proof (linked_store_fresh_nth m type dir st en) as Hn.
  cbv zeta in Hn. specialize (fun k => Hn k Hs He).
  set (x := mkSegment type dir st en (findByEnd m st) (findByStart m en)
                      None) in *.
  set (m2 := linked_store m type dir st en) in *.
  intros a b A2 B2 HA HB E.
  destruct (m2_cases m x m2 Hn a A2 HA) as [[-> ->]|[Ha [A [HA0 ->]]]];
    destruct (m2_cases m x m2 Hn b B2 HB) as [[-> ->]|[Hb [B [HB0 ->]]]].
  - elim Hne. symmetry. exact E.
  - destruct (relink_fields (seg_prev x) (seg_next x) (length m) b B)
      as [Es _]. rewrite Es in E. cbn [x seg_end seg_next] in E |- *.
    destruct (findByStart m en) as [b'|] eqn:Eb.
    + destruct (findByStart_Some m en b' Eb) as [B' [HB' Es']].
      f_equal. apply (ok_starts m Hok b' b B' B HB' HB0). congruence.
    + elim (findByStart_None m en Eb b B HB0). congruence.
  - destruct (relink_fields (seg_prev x) (seg_next x) (length m) a A)
      as [_ [Ee [En _]]]. rewrite Ee in E. rewrite En.
    cbn [x seg_start seg_prev] in E |- *.
    destruct (findByEnd m st) as [a'|] eqn:Ea.
    + destruct (findByEnd_Some m st a' Ea) as [A' [HA' Ee']].
      assert (a' = a)
        by (apply (ok_ends m Hok a' a A' A HA' HA0); congruence).
      subst a'. cbn [SegPtr_eqb]. rewrite Nat.eqb_refl. reflexivity.
    + elim (findByEnd_None m st Ea a A HA0). exact E.
  - destruct (relink_fields (seg_prev x) (seg_next x) (length m) a A)
      as [_ [Ee [En _]]].
    destruct (relink_fields (seg_prev x) (seg_next x) (length m) b B)
      as [Es _].
    rewrite Ee, Es in E. rewrite En.
    destruct (SegPtr_eqb (seg_prev x) (Some a)) eqn:Ep.
    + apply SegPtr_eqb_eq in Ep. cbn [x seg_prev] in Ep.
      destruct (findByEnd_Some m st a Ep) as [A' [HA' Ee']].
      elim (findByStart_None m st Hs b B HB0). congruence.
    + apply (Hl a b A B HA0 HB0 E).
Qed.

Lemma linked_store_stored (cs : list Call) (m : SegmentMap) (c : Call) :
  admissible m (call_start c) (call_end c) ->
  (is_fallthrough c = false ->
   findByStart m (call_start c) = None /\ findByEnd m (call_end c) = None) ->
  stored cs m ->
  stored (cs ++ [c])
         (linked_store m (call_type c) (call_direction c)
                       (call_start c) (call_end c)).
Proof.
  intros Hadm Hfresh Hst q Hq Hf.
  destruct (linked_store_cases m (call_type c) (call_direction c) _ _ Hadm)
    as [[Hs He]|Hsame].
  - pose proof (linked_store_fresh_nth m (call_type c) (call_direction c)
                  (call_start c) (call_end c)) as Hn.
    cbv zeta in Hn. specialize (fun k => Hn k Hs He).
    apply in_app_or in Hq. destruct Hq as [Hq|[<-|[]]].
    + destruct (Hst q Hq Hf) as [k [S [HS [E1 E2]]]].
      assert (Hk : (k < length m)%nat)
        by (apply nth_error_Some; congruence).
      exists k. eexists. split.
      * rewrite Hn, HS. apply Nat.ltb_lt in Hk. rewrite Hk. reflexivity.
      * destruct (relink_fields
                    (findByEnd m (call_start c))
                    (findByStart m (call_end c)) (length m) k S)
          as [Es [Ee _]].
        cbn [seg_prev seg_next]. rewrite Es, Ee. auto.
    + exists (length m). eexists. split.
      * rewrite Hn, Nat.ltb_irrefl, Nat.eqb_refl. reflexivity.
      * auto.
  - rewrite Hsame. apply in_app_or in Hq. destruct Hq as [Hq|[<-|[]]].
    + apply (Hst q Hq Hf).
    + destruct (Hfresh Hf) as [Hs He].
      pose proof (linked_store_fresh_nth m (call_type c) (call_direction c)
                    (call_start c) (call_end c) (length m) Hs He) as Hn.
      cbv zeta in Hn. rewrite Hsame, Nat.ltb_irrefl, Nat.eqb_refl in Hn.
      exists (length m). eexists. split; [exact Hn|]. auto.
Qed.

Lemma run_calls_complete (cf : FindContour) (cs : list Call) :
  forall (pre : list Call) (b b' : Builder),
    ForallOrdPairs compatible (pre ++ cs) ->
    Forall (fun c => call_start c <> call_end c) cs ->
    store_ok (segments b) ->
    covered pre (segments b) ->
    stored pre (segments b) ->
    links_complete (segments b) ->
    run_calls cf b cs = Ok b' ->
    covered (pre ++ cs) (segments b')
    /\ stored (pre ++ cs) (segments b')
    /\ links_complete (segments b').
Proof.
  induction cs as [|c cs IH];
    intros pre b b' Hfop Hprop Hok Hcov Hst Hl H; simpl in H.
  - injection H as <-. rewrite app_nil_r. auto.
  - apply bind_Ok in H. destruct H as [b1 [H1 H2]].
    unfold run_call in H1. apply addSegment_inv in H1.
    destruct H1 as [Hshape _].
    inversion Hprop as [|? ? Hc Hprop']; subst.
    pose proof (ForallOrdPairs_before _ _ _ _ Hfop) as Hbefore.
    pose proof (admissible_of_compatible pre _ c Hcov Hbefore) as Hadm.
    pose proof (linked_store_ok _ (call_type c) (call_direction c) _ _
                                Hok Hadm) as Hok1.
    pose proof (linked_store_covered pre _ c Hcov) as Hcov1.
    assert (Hst1 : stored (pre ++ [c])
                     (linked_store (segments b) (call_type c)
                        (call_direction c) (call_start c) (call_end c))).
    { apply linked_store_stored; [exact Hadm | | exact Hst].
      intros Hf. apply (fresh_of_compatible pre _ c Hf Hcov Hbefore). }
    assert (Hl1 : links_complete
                    (linked_store (segments b) (call_type c)
                       (call_direction c) (call_start c) (call_end c))).
    { destruct (linked_store_cases (segments b) (call_type c)
                  (call_direction c) _ _ Hadm) as [[Hs He]|Hsame].
      - apply linked_store_links_complete; assumption.
      - rewrite Hsame. exact Hl. }
    assert (Hpre : (pre ++ [c]) ++ cs = pre ++ c :: cs)
      by (rewrite <- app_assoc; reflexivity).
    rewrite <- Hpre in Hfop |- *.
    apply (IH (pre ++ [c]) b1 b' Hfop Hprop'); try exact H2.
    + apply (store_ok_shape _ _ Hshape Hok1).
    + apply (covered_shape _ _ _ Hshape Hcov1).
    + apply (stored_shape _ _ _ Hshape Hst1).
    + apply (links_complete_shape _ _ Hshape Hl1).
Qed.

(** In a store in which every segment has a [next], every segment has a
    [prev]. *)
Lemma all_next_all_prev (m : SegmentMap) :
  store_ok m ->
  (forall k, (k < length m)%nat -> next_of m k <> None) ->
  forall k, (k < length m)%nat -> prev_of m k <> None.
Proof.
  intros Hok Hnext k Hk.
  set (f := fun a => match next_of m a with Some b => b | None => 0%nat end).
  assert (Hf : forall a, (a < length m)%nat -> next_of m a = Some (f a)).
  { intros a Ha. unfold f. pose proof (Hnext a Ha).
    destruct (next_of m a); congruence. }
  assert (Hnd : NoDup (map f (seq 0 (length m)))).
  { apply NoDup_map_seq. intros i j Hi Hj E.
    apply (next_injective m i j (f i) Hok); [apply Hf; exact Hi|].
    rewrite E. apply Hf. exact Hj. }
  assert (Hincl : incl (map f (seq 0 (length m))) (seq 0 (length m))).
  { intros b Hb. apply in_map_iff in Hb. destruct Hb as [a [<- Ha]].
    apply in_seq in Ha. apply in_seq. split; [lia|]. simpl.
    apply (next_target_valid m a (f a) Hok). apply Hf. lia. }
  assert (Hlen : (length (seq 0 (length m))
                  <= length (map f (seq 0 (length m))))%nat)
    by (rewrite length_map; lia).
  pose proof (NoDup_length_incl Hnd Hlen Hincl) as Hback.
  assert (Hin : In k (map f (seq 0 (length m)))).
  { apply Hback. apply in_seq. lia. }
  apply in_map_iff in Hin. destruct Hin as [a [E Ha]].
  apply in_seq in Ha.
  rewrite (next_prev m a k Hok); [discriminate|].
  rewrite <- E. apply Hf. lia.
Qed.

(** ** No chain is left open *)

(** When the policy for ambiguous cells answers saddle codes with saddle
    codes, the sweep returns, and in the store it leaves every segment has
    a next and a previous segment: every chain of segments has been closed
    to a ring. *)
Theorem sweep_leaves_no_open_chain (cf : FindContour) (raster : Raster) :
  answers_saddles cf ->
  exists cb : Builder,
    run_sweep cf raster (Builder_init (width raster) (height raster))
              (sweep (width raster) (height raster)) = Ok cb
    /\ forall (k : nat) (S : Segment),
        nth_error (segments cb) k = Some S ->
        seg_next S <> None /\ seg_prev S <> None.
Proof.
  intros Hs.
  destruct (sweep_prefix_returns cf raster (sweep_calls cf raster) [])
    as [cb [Hrun _]]; [symmetry; apply app_nil_r|].
  exists cb. split; [rewrite run_sweep_calls; exact Hrun|].
  destruct (sweep_prefix_ok cf raster (sweep_calls cf raster) [] cb)
    as [Hok _]; [symmetry; apply app_nil_r | exact Hrun |].
  destruct (run_calls_complete cf (sweep_calls cf raster) []
              (Builder_init (width raster) (height raster)) cb)
    as [Hcov [Hst Hl]]; try exact Hrun.
  - apply sweep_calls_compatible.
  - apply sweep_calls_proper.
  - apply store_ok_nil.
  - intros k x Hx. destruct k; discriminate.
  - intros c [].
  - intros a b A B HA. destruct a; discriminate.
  - simpl in Hcov, Hst.
    assert (Hnext : forall k, (k < length (segments cb))%nat ->
                              next_of (segments cb) k <> None).
    { intros k Hk. unfold next_of.
      destruct (nth_error (segments cb) k) as [S|] eqn:HS;
        [|apply nth_error_None in HS; lia].
      destruct (Hcov k S HS) as [c [Hc [Es Ee]]].
      destruct (sweep_call_continues cf raster c Hs Hc)
        as [c' [Hc' [Hst' Hf']]].
      destruct (Hst c' Hc' Hf') as [k' [S' [HS' [Es' _]]]].
      rewrite (Hl k k' S S' HS HS'); [discriminate | congruence]. }
    intros k S HS.
    assert (Hk : (k < length (segments cb))%nat)
      by (apply nth_error_Some; congruence).
    pose proof (Hnext k Hk) as Hn.
    pose proof (all_next_all_prev (segments cb) Hok Hnext k Hk) as Hp.
    unfold next_of in Hn. unfold prev_of in Hp. rewrite HS in Hn, Hp.
    auto.
Qed.

Lemma sweep_leaves_no_open_chain_witness :
  exists cb : Builder,
    run_sweep default_cf raster_saddle (Builder_init 2 2) (sweep 2 2)
    = Ok cb
    /\ forall (k : nat) (S : Segment),
        nth_error (segments cb) k = Some S ->
        seg_next S <> None /\ seg_prev S <> None.
Proof.
  apply (sweep_leaves_no_open_chain default_cf raster_saddle).
  apply keep_type_answers_saddles.
Defined.

(** ** The vertex [extract] leaves out *)

(** When the head of a ring and the segment before it have the same cell
    type, [extract] ends its walk at that segment: the start of the segment
    before the head is no vertex of the ring, whether straight segments are
    joined or not and whatever the directions of the segments are. *)
Theorem extract_leaves_out_start_before_head (cf : FindContour)
        (m : SegmentMap) (hk pk : nat) (h hp : Segment) (ring : Polygon) :
  store_ok m ->
  nth_error m hk = Some h ->
  seg_prev h = Some pk ->
  nth_error m pk = Some hp ->
  seg_type h = seg_type hp ->
  pk <> hk ->
  extract_ring cf m (Some hk) = Ok ring ->
  ~ In (to_pixel cf (seg_start hp)) ring.
Proof.
  intros Hok Hh Hprev Hhp Htype Hne H Hin.
  unfold extract_ring, extract_end in H. rewrite Hh, Hprev, Hhp in H.
  rewrite Htype, Z.eqb_refl in H. cbn [negb bind] in H.
  apply (extract_loop_walk cf m hk pk _ hk h _ ring Hh) in H.
  destruct H as [ks [corners [Hpath [Havoid [Hsub ->]]]]].
  unfold addVertex in Hin. rewrite !in_app_iff in Hin.
  destruct Hin as [[[]|[E|[]]]|Hin].
  - apply to_pixel_injective in E.
    apply Hne. apply (ok_starts m Hok pk hk hp h Hhp Hh). congruence.
  - apply in_map_iff in Hin. destruct Hin as [v [E Hv]].
    apply to_pixel_injective in E. subst v.
    apply (Subsequence_In _ _ _ Hsub) in Hv.
    apply in_map_iff in Hv. destruct Hv as [k [E Hk]].
    pose proof (path_valid m ks Hok hk pk Hpath k Hk) as Hvalid.
    unfold ends_of in E.
    destruct (nth_error m k) as [K|] eqn:HK; [|congruence].
    cbn [fst] in E.
    assert (k = pk) by (apply (ok_starts m Hok k pk K hp HK Hhp E)).
    subst k. exact (Havoid Hk).
Qed.

Lemma store_of_ok (cf : FindContour) (raster : Raster) :
  store_ok (store_of cf raster).
Proof.
  unfold store_of.
  destruct (run_calls cf (Builder_init (width raster) (height raster))
                      (sweep_calls cf raster)) as [cb|f] eqn:E;
    [|apply store_ok_nil].
  apply (sweep_prefix_ok cf raster (sweep_calls cf raster) [] cb);
    [symmetry; apply app_nil_r | exact E].
Qed.

Lemma extract_leaves_out_start_before_head_witness :
  ~ In ((1 # 2)%Q, 0%Q)
       [(1 # 2, -1 # 2); (3 # 2, -1 # 2); (3 # 2, 1 # 2); (1, 1 # 2)]%Q.
Proof.
  refine (extract_leaves_out_start_before_head default_cf
            (store_of default_cf raster_one_of_four) 1 0
            (mkSegment b0010 Direction.r (1, -1) (2, -1)
                       (Some 0%nat) (Some 2%nat) (Some 1%nat))
            (mkSegment b0010 Direction.u (1, 0) (1, -1)
                       (Some 4%nat) (Some 1%nat) (Some 1%nat))
            _ (store_of_ok _ _) _ _ _ _ _ _);
    try (vm_compute; reflexivity).
  discriminate.
Defined.

(** ** Points where rings meet stay *)

Section SimplifyJunctions.

Variable double : Type.
Variable dlt : double -> double -> bool.
Variable dsub dmul : double -> double -> double.
Variable dabs : double -> double.
Variable dlit : Z -> double.
Variable infinity : double.
Variable isfinite : double -> bool.
Variable point_lt : P2 double -> P2 double -> bool.
Variable make_heap : (nat -> nat -> bool) -> list nat -> list nat.

Local Abbreviation same := (same_key double point_lt).

Hypothesis make_heap_In :
  forall comp l x, In x (make_heap comp l) -> In x l.
Hypothesis same_trans :
  forall a b c, same a b = true -> same b c = true -> same a c = true.

(** A point that occurs more than twice among the vertices of all rings of
    all contours is a vertex of every ring [simplify] returns for a ring it
    was a vertex of. *)
Theorem simplify_keeps_junctions
        (contours out : list (ContourOf (P2 double))) (p : P2 double) :
  simplify double dlt dsub dmul dabs dlit infinity isfinite point_lt
           make_heap contours = Ok out ->
  (occurrences same p (all_points contours) >? 2) = true ->
  Forall2 (fun c' c => Forall2 (fun r' r => In p r -> In p r')
                               (rings c') (rings c)) out contours.
Proof.
  unfold simplify. intros H Hocc.
  apply (simplify_contours_keep double dlt dsub dmul dabs dlit infinity
           isfinite point_lt make_heap make_heap_In
           (findLockedPoints double point_lt contours) p); [|exact H].
  apply locked_of_count; assumption.
Qed.

End SimplifyJunctions.

Lemma simplify_keeps_junctions_witness :
  Forall2 (fun c' c => Forall2 (fun r' r => In (Exact.pt 0 0) r ->
                                            In (Exact.pt 0 0) r')
                               (rings c') (rings c))
          clover_simplified clover.
Proof.
  apply (simplify_keeps_junctions Exact.double Exact.dlt Exact.dsub
           Exact.dmul Exact.dabs Exact.dlit Exact.infinity Exact.isfinite
           Exact.point_lt Exact.make_heap Exact_make_heap_In
           Exact_same_trans clover clover_simplified
           (Exact.pt 0 0)).
  - vm_compute. reflexivity.
  - vm_compute. reflexivity.
Defined.

(** ** A ring with a locked point is simplified without an invalid iterator *)

Lemma NoDup_map_filter {A B : Type} (f : A -> B) (g : A -> bool)
      (l : list A) :
  NoDup (map f l) -> NoDup (map f (filter g l)).
Proof.
  induction l as [|a l IH]; simpl; intros H; [constructor|].
  inversion H as [|? ? Ha Hl]; subst.
  destruct (g a); simpl; [|auto]. constructor; [|auto].
  intros Hin. apply Ha. apply in_map_iff in Hin.
  destruct Hin as [b [E Hb]]. apply filter_In in Hb.
  apply in_map_iff. exists b. tauto.
Qed.

Section SimplifyReturns.

Variable double : Type.
Variable dlt : double -> double -> bool.
Variable dsub dmul : double -> double -> double.
Variable dabs : double -> double.
Variable dlit : Z -> double.
Variable infinity : double.
Variable isfinite : double -> bool.
Variable point_lt : P2 double -> P2 double -> bool.
Variable make_heap : (nat -> nat -> bool) -> list nat -> list nat.

(** [std::make_heap] permutes the range. *)
Hypothesis make_heap_perm :
  forall comp l, Permutation (make_heap comp l) l.

Local Abbreviation ids := (map (node_id double)).

Lemma position_Some (points : LinkedPoints double) (id : nat) :
  In id (ids points) ->
  exists k nk, position double points id = Some k
               /\ nth_error points k = Some nk
               /\ node_id double nk = id.
Proof.
  induction points as [|n points IH]; simpl; [intros []|].
  destruct (Nat.eqb (node_id double n) id) eqn:E.
  - intros _. exists 0%nat, n. apply Nat.eqb_eq in E. auto.
  - apply Nat.eqb_neq in E. intros [H|H]; [congruence|].
    destruct (IH H) as [k [nk [Hk [Hn Hid]]]].
    exists (S k), nk. rewrite Hk. auto.
Qed.

Lemma lookup_Some (points : LinkedPoints double) (id : nat) :
  In id (ids points) -> exists n, lookup double points id = Some n.
Proof.
  induction points as [|n points IH]; simpl; [intros []|].
  destruct (Nat.eqb (node_id double n) id) eqn:E; [eauto|].
  apply Nat.eqb_neq in E. intros [H|H]; [congruence | auto].
Qed.

Lemma erase_ids_In (points : LinkedPoints double) :
  forall k nk,
    NoDup (ids points) -> nth_error points k = Some nk ->
    forall id, In id (ids (erase double points k)) <->
               (In id (ids points) /\ id <> node_id double nk).
Proof.
  induction points as [|n points IH]; intros k nk Hnd Hk id;
    [destruct k; discriminate|].
  simpl in Hnd. inversion Hnd as [|? ? Hn Hl]; subst.
  destruct k as [|k]; simpl in Hk |- *.
  - injection Hk as <-. split.
    + intros H. split; [auto|]. intros ->. exact (Hn H).
    + intros [[H|H] Hne]; [congruence | exact H].
  - rewrite (IH k nk Hl Hk id). split.
    + intros [<-|[H Hne]]; [|auto]. split; [auto|].
      intros E. apply Hn. rewrite E. apply in_map.
      apply (nth_error_In _ _ Hk).
    + intros [[H|H] Hne]; auto.
Qed.

Lemma erase_ids_NoDup (points : LinkedPoints double) :
  forall k, NoDup (ids points) -> NoDup (ids (erase double points k)).
Proof.
  induction points as [|n points IH]; intros k Hnd; [destruct k; exact Hnd|].
  simpl in Hnd. inversion Hnd as [|? ? Hn Hl]; subst.
  destruct k as [|k]; simpl; [exact Hl|].
  constructor; [|apply IH; exact Hl].
  intros H. apply Hn. clear - H. revert k H.
  induction points as [|m points IH]; intros [|k] H; simpl in *; auto.
  destruct H as [H|H]; [auto|]. right. apply (IH k H).
Qed.

Lemma update_cost_ids (points : LinkedPoints double) :
  forall k c, ids (update_cost double points k c) = ids points.
Proof.
  induction points as [|n points IH]; intros [|k] c; simpl; auto.
  f_equal. apply IH.
Qed.

Lemma remove_point_ok (points : LinkedPoints double) (k : nat) :
  erase double points k <> [] ->
  exists points',
    remove_point double dsub dmul dabs isfinite points k = Ok points'
    /\ ids points' = ids (erase double points k).
Proof.
  intros Hne. unfold remove_point.
  destruct (erase double points k) as [|n0 rest] eqn:E; [congruence|].
  cbv zeta. eexists. split; [reflexivity|].
  repeat match goal with
         | |- context [if ?b then _ else _] => destruct b
         end;
    rewrite ?update_cost_ids; reflexivity.
Qed.

Lemma simplify_loop_ok (stop : double) (fuel : nat) :
  forall (heap : list nat) (points : LinkedPoints double),
    NoDup heap -> NoDup (ids points) -> incl heap (ids points) ->
    (exists i, In i (ids points) /\ ~ In i heap) ->
    exists points',
      simplify_loop double dlt dsub dmul dabs isfinite make_heap
                    fuel stop heap points = Ok points'.
Proof.
  induction fuel as [|fuel IH]; intros heap points Hh Hp Hincl [i [Hi Hni]];
    [destruct heap; simpl; eauto|].
  destruct heap as [|h t]; [simpl; eauto|].
  cbn [simplify_loop].
  pose proof (make_heap_perm (compare double dlt points) (h :: t)) as Hperm.
  destruct (make_heap (compare double dlt points) (h :: t))
    as [|point heap'] eqn:Eh; [eauto|].
  assert (Hpoint : In point (h :: t))
    by (apply (Permutation_in _ Hperm); left; reflexivity).
  assert (Hnd : NoDup (point :: heap'))
    by (apply (Permutation_NoDup (Permutation_sym Hperm)); exact Hh).
  inversion Hnd as [|? ? Hfresh Hnd']; subst.
  destruct (position_Some points point (Hincl _ Hpoint))
    as [k [nk [Hk [Hnk Hid]]]].
  destruct (lookup_Some points point (Hincl _ Hpoint)) as [n Hn].
  rewrite Hk, Hn.
  destruct (dlt stop (node_cost double n)); [eauto|].
  assert (Hrest : forall id, In id (ids (erase double points k)) <->
                             (In id (ids points) /\ id <> point)).
  { intros id. rewrite (erase_ids_In points k nk Hp Hnk id), Hid.
    reflexivity. }
  assert (Hkeep : In i (ids (erase double points k))).
  { apply Hrest. split; [exact Hi|]. intros ->. exact (Hni Hpoint). }
  destruct (remove_point_ok points k) as [points' [Hr Hids]].
  { intros E. rewrite E in Hkeep. destruct Hkeep. }
  rewrite Hr. cbn [bind].
  apply IH.
  - exact Hnd'.
  - rewrite Hids. apply erase_ids_NoDup. exact Hp.
  - intros id Hin. rewrite Hids. apply Hrest. split.
    + apply Hincl. apply (Permutation_in _ Hperm). right. exact Hin.
    + intros ->. exact (Hfresh Hin).
  - exists i. split; [rewrite Hids; exact Hkeep|].
    intros Hin. apply Hni. apply (Permutation_in _ Hperm). right. exact Hin.
Qed.

Lemma add_point_id (lockedPoints : LockedPoints double) (i : nat)
      (a b c : P2 double) :
  node_id double
    (fst (add_point double dsub dmul dabs infinity point_lt
                    lockedPoints i a b c)) = i.
Proof. unfold add_point. destruct (negb _); reflexivity. Qed.

Lemma work_area_ids (lockedPoints : LockedPoints double)
      (ring : list (P2 double)) (d : P2 double) :
  (2 <= length ring)%nat ->
  map (fun w => node_id double (fst w))
      (work_area double dsub dmul dabs infinity point_lt
                 lockedPoints ring d)
  = seq 0 (length ring).
Proof.
  intros H. unfold work_area.
  rewrite !map_app, !map_map. simpl. rewrite !add_point_id.
  rewrite (map_ext _ (fun i => i)) by (intros i; apply add_point_id).
  rewrite map_id. symmetry. apply (seq_ends (length ring) H).
Qed.

(** [simplifyRing] returns for a ring one of whose points is locked: the
    list of points never becomes empty, and every iterator taken from the
    heap is valid. *)
Theorem simplifyRing_returns_with_locked_point
        (ring : list (P2 double)) (lockedPoints : LockedPoints double)
        (stop : double) (p : P2 double) :
  In p ring ->
  is_locked double point_lt lockedPoints p = true ->
  exists out,
    simplifyRing double dlt dsub dmul dabs dlit infinity isfinite point_lt
                 make_heap ring lockedPoints stop = Ok out.
Proof.
  intros Hin Hlocked. unfold simplifyRing.
  destruct (length ring <=? 4)%nat eqn:Hn; [eauto|].
  apply Nat.leb_gt in Hn. cbv zeta.
  set (d := nth 0 ring (dlit 0, dlit 0)).
  set (work := work_area double dsub dmul dabs infinity point_lt
                         lockedPoints ring d).
  assert (Hids : map (fun w => node_id double (fst w)) work
                 = seq 0 (length ring))
    by (apply work_area_ids; lia).
  destruct (In_nth ring p d Hin) as [i [Hi Hp]].
  destruct (simplify_loop_ok (dmul stop (dlit 2))
              (length (map (fun w => node_id double (fst w))
                           (filter snd work)))
              (map (fun w => node_id double (fst w)) (filter snd work))
              (map fst work)) as [points' Hloop].
  - apply NoDup_map_filter. rewrite Hids. apply seq_NoDup.
  - rewrite map_map, Hids. apply seq_NoDup.
  - intros id H. rewrite map_map. apply in_map_iff in H.
    destruct H as [w [E Hw]]. apply filter_In in Hw.
    apply in_map_iff. exists w. tauto.
  - exists i. split.
    + rewrite map_map, Hids. apply in_seq. lia.
    + intros H. apply in_map_iff in H. destruct H as [w [E Hw]].
      apply filter_In in Hw. destruct Hw as [Hw Hflag].
      apply (work_area_entries double dsub dmul dabs infinity point_lt
               lockedPoints ring d ltac:(lia)) in Hw.
      destruct Hw as [i' [Hi' ->]]. rewrite add_point_id in E. subst i'.
      unfold add_point in Hflag. rewrite Hp, Hlocked in Hflag.
      discriminate.
  - rewrite Hloop. cbn [bind]. eauto.
Qed.

End SimplifyReturns.

Lemma Exact_remove_first_perm (g : nat) (l : list nat) :
  In g l -> Permutation (g :: Exact.remove_first g l) l.
Proof.
  induction l as [|y l IH]; intros H; [destruct H|]. simpl.
  destruct (Nat.eqb g y) eqn:E.
  - apply Nat.eqb_eq in E. subst. apply Permutation_refl.
  - apply Nat.eqb_neq in E. destruct H as [H|H]; [congruence|].
    apply (perm_trans (perm_swap y g _)). apply perm_skip. apply IH.
    exact H.
Qed.

Lemma Exact_make_heap_perm (comp : nat -> nat -> bool) (l : list nat) :
  Permutation (Exact.make_heap comp l) l.
Proof.
  destruct l as [|x l]; [constructor|]. unfold Exact.make_heap.
  apply Exact_remove_first_perm.
  destruct (Exact_greatest_In comp l x) as [-> | H]; simpl; auto.
Qed.

Lemma simplifyRing_returns_with_locked_point_witness :
  exists out,
    Exact.simplifyRing hexagon [Exact.pt 0 6] (Exact.dlit 10) = Ok out.
Proof.
  apply (simplifyRing_returns_with_locked_point Exact.double Exact.dlt
           Exact.dsub Exact.dmul Exact.dabs Exact.dlit Exact.infinity
           Exact.isfinite Exact.point_lt Exact.make_heap
           Exact_make_heap_perm hexagon [Exact.pt 0 6] (Exact.dlit 10)
           (Exact.pt 0 6)).
  - vm_compute. tauto.
  - vm_compute. reflexivity.
Defined.

(** ** The rings run between set and unset pixels *)

Lemma code_some_set (b0 b1 b2 b3 : bool) :
  code_of b0 b1 b2 b3 <> b0000 ->
  b0 = true \/ b1 = true \/ b2 = true \/ b3 = true.
Proof.
  destruct b0, b1, b2, b3; auto; intros H; elim H; reflexivity.
Qed.

Lemma code_some_unset (b0 b1 b2 b3 : bool) :
  code_of b0 b1 b2 b3 <> b1111 ->
  b0 = false \/ b1 = false \/ b2 = false \/ b3 = false.
Proof.
  destruct b0, b1, b2, b3; auto; intros H; elim H; reflexivity.
Qed.

(** The end of every call of a sweep lies on the outline of a set pixel and
    on the outline of a pixel that is not set. *)
Lemma sweep_call_end_between (cf : FindContour) (raster : Raster)
      (c : Call) :
  In c (sweep_calls cf raster) ->
  (exists x y, get raster x y = true
               /\ Z.abs (2 * x - fst (call_end c)) <= 1
               /\ Z.abs (2 * y - snd (call_end c)) <= 1)
  /\ (exists x y, get raster x y = false
                  /\ Z.abs (2 * x - fst (call_end c)) <= 1
                  /\ Z.abs (2 * y - snd (call_end c)) <= 1).
Proof.
  intros H. unfold sweep_calls in H. apply in_flat_map in H.
  destruct H as [v [Hv Hc]].
  pose proof (visit_calls_placed cf raster v c
                (sweep_visited_properly raster v Hv) Hc) as [Hend _].
  destruct (visit_calls_tag cf raster v c Hc) as [Hi [Hj [H0 [H15 _]]]].
  rewrite <- Hi, <- Hj, getFlags_code in H0, H15.
  set (i := call_i c) in *. set (j := call_j c) in *.
  unfold crossing_end in Hend.
  destruct Hend as [[-> [Ha Hb]]|[[-> [Ha Hb]]|[[-> [Ha Hb]]|[[-> [Ha Hb]]
                   | ->]]]]; cbn [fst snd].
  - split; [exists (i + 1), j | exists i, j]; repeat split; auto; lia.
  - split; [exists i, j | exists i, (j + 1)]; repeat split; auto; lia.
  - split; [exists (i + 1), (j + 1) | exists (i + 1), j];
      repeat split; auto; lia.
  - split; [exists i, (j + 1) | exists (i + 1), (j + 1)];
      repeat split; auto; lia.
  - split.
    + destruct (code_some_set _ _ _ _ H0) as [G|[G|[G|G]]];
        [exists i, (j + 1) | exists (i + 1), (j + 1)
         | exists (i + 1), j | exists i, j];
        repeat split; auto; lia.
    + destruct (code_some_unset _ _ _ _ H15) as [G|[G|[G|G]]];
        [exists i, (j + 1) | exists (i + 1), (j + 1)
         | exists (i + 1), j | exists i, j];
        repeat split; auto; lia.
Qed.

(** Every vertex of every ring of the contour [find_contour] returns lies
    on the outline of a set pixel and on the outline of a pixel that is not
    set (unset, or outside the raster): it is a lattice point [(vx, vy)]
    taken to pixel space, at most one lattice unit (half a pixel) away in
    each coordinate from the centres [(2x, 2y)] of two such pixels. *)
Theorem ring_vertices_between_set_and_unset (cf : FindContour)
        (raster : Raster) (c : Contour) (ring : Polygon) (pt : Point2d) :
  find_contour cf raster = Ok c ->
  In ring (rings c) ->
  In pt ring ->
  exists (v : Vertex) (x y x' y' : Z),
    pt = to_pixel cf v
    /\ get raster x y = true /\ get raster x' y' = false
    /\ Z.abs (2 * x - fst v) <= 1 /\ Z.abs (2 * y - snd v) <= 1
    /\ Z.abs (2 * x' - fst v) <= 1 /\ Z.abs (2 * y' - snd v) <= 1.
Proof.
  intros H Hring Hpt.
  apply find_contour_calls in H. destruct H as [cb [H <-]].
  destruct (sweep_prefix_ok cf raster (sweep_calls cf raster) [] cb)
    as [_ [_ Hrings]]; [symmetry; apply app_nil_r | exact H |].
  rewrite Forall_forall in Hrings.
  destruct (closed_ring_vertices cf _ ring pt (Hrings ring Hring) Hpt)
    as [q [Hq ->]].
  destruct (sweep_call_end_between cf raster q Hq)
    as [[x [y [Hg [Hx Hy]]]] [x' [y' [Hg' [Hx' Hy']]]]].
  exists (call_end q), x, y, x', y'. auto 10.
Qed.

Lemma ring_vertices_between_set_and_unset_witness :
  exists (v : Vertex) (x y x' y' : Z),
    ((1 # 2)%Q, (-1 # 2)%Q) = to_pixel default_cf v
    /\ get raster_1x1 x y = true /\ get raster_1x1 x' y' = false
    /\ Z.abs (2 * x - fst v) <= 1 /\ Z.abs (2 * y - snd v) <= 1
    /\ Z.abs (2 * x' - fst v) <= 1 /\ Z.abs (2 * y' - snd v) <= 1.
Proof.
  apply (ring_vertices_between_set_and_unset default_cf raster_1x1
           (mkContour [pixel_center_square] (mkMask 1 1 [(0, 0)]))
           pixel_center_square).
  - vm_compute. reflexivity.
  - left. reflexivity.
  - right. left. reflexivity.
Defined.
